(* Verification development for meteoserver: a shallow embedding of the
   LRU cache (lruCache.c), the request queue (requestQueue.c), the request
   tokenizer (requestMonitor.c), the MD5 primitive (crypto.c) and the
   accept loop (main.c), with theorems about each. *)

From Stdlib Require Import ZArith Lia.
From Stdlib Require String Ascii DecimalNat.
From stdpp Require Import base list sets strings.

Local Open Scope string_scope.
Local Open Scope list_scope.
Local Open Scope nat_scope.

Abbreviation string := String.string.

(* ===================================================================== *)
(* lruCache.c                                                            *)
(* ===================================================================== *)

(* lruCacheNode_t.  Pointers into the pool are the pool indices; NULL is
   [None].  The strings [request] and [md5] are owned heap strings or NULL. *)
Record lruCacheNode_t := mk_node {
  request : option string;
  md5 : option string;
  next : option nat;
  prev : option nat
}.

(* lruCache_t, without the mutex (every operation runs under it).
   [head] is the pointer cache->head, i.e. the pool index it points to. *)
Record lruCache_t := mk_cache {
  head : nat;
  cachePool : list lruCacheNode_t;
  currentCapacity : nat;
  totalCapacity : nat
}.

(* A node freshly returned by calloc: every field zero / NULL. *)
Definition calloc_node : lruCacheNode_t := mk_node None None None None.

Definition with_next (n : lruCacheNode_t) (v : option nat) : lruCacheNode_t :=
  mk_node (request n) (md5 n) v (prev n).
Definition with_prev (n : lruCacheNode_t) (v : option nat) : lruCacheNode_t :=
  mk_node (request n) (md5 n) (next n) v.
Definition with_entry (n : lruCacheNode_t) (r v : option string) : lruCacheNode_t :=
  mk_node r v (next n) (prev n).

(* [p->next = v] and [p->prev = v]: dereferencing NULL or a pointer
   outside the pool is undefined behaviour, modelled as [None]. *)
Definition set_next (pool : list lruCacheNode_t) (p : option nat) (v : option nat)
  : option (list lruCacheNode_t) :=
  i ← p; n ← pool !! i; Some (<[i := with_next n v]> pool).
Definition set_prev (pool : list lruCacheNode_t) (p : option nat) (v : option nat)
  : option (list lruCacheNode_t) :=
  i ← p; n ← pool !! i; Some (<[i := with_prev n v]> pool).

(* lru_find_element: scan cachePool[0 .. currentCapacity).  The outer
   option is the reading of cachePool[i] (out of the pool: undefined
   behaviour), the inner one the returned node pointer or NULL. *)
Fixpoint find_from (pool : list lruCacheNode_t) (req : string) (i n : nat)
  : option (option nat) :=
  match n with
  | 0 => Some None
  | S n' =>
      nd ← pool !! i;
      match request nd with
      | Some r => if decide (req = r) then Some (Some i) else find_from pool req (S i) n'
      | None => find_from pool req (S i) n'
      end
  end.

Definition lru_find_element (cachePool : list lruCacheNode_t) (req : string)
  (currentCapacity : nat) : option (option nat) :=
  find_from cachePool req 0 currentCapacity.

(* lru_cache_init *)
Definition lru_cache_init (capacity : Z) : option lruCache_t :=
  if Z.leb capacity 0 then None
  else
    let n := Z.to_nat capacity in
    let pool := replicate n calloc_node in
    (* cache->head = cache->cachePool[0] *)
    pool ← set_next pool (Some 0) (Some 0);   (* cache->head->next = cache->head *)
    pool ← set_prev pool (Some 0) (Some 0);   (* cache->head->prev = cache->head *)
    Some (mk_cache 0 pool 0 n).

(* Reading [p->next] and [p->prev]. *)
Definition get_next (pool : list lruCacheNode_t) (p : option nat) : option (option nat) :=
  i ← p; n ← pool !! i; Some (next n).
Definition get_prev (pool : list lruCacheNode_t) (p : option nat) : option (option nat) :=
  i ← p; n ← pool !! i; Some (prev n).

(* The four statements shared by lru_cache_get_element (lines 132-135)
   and lru_cache_update_node (lines 156-159): splice node [t] just before
   the node [h] that cache->head points to. *)
Definition link_before_head (pool : list lruCacheNode_t) (t h : nat)
  : option (list lruCacheNode_t) :=
  pool ← set_next pool (Some t) (Some h);          (* tmpNode->next = cache->head *)
  hp ← get_prev pool (Some h);
  pool ← set_prev pool (Some t) hp;                (* tmpNode->prev = cache->head->prev *)
  tp ← get_prev pool (Some t);
  pool ← set_next pool tp (Some t);                (* tmpNode->prev->next = tmpNode *)
  tn ← get_next pool (Some t);
  set_prev pool tn (Some t).                       (* tmpNode->next->prev = tmpNode *)

(* Lines 130-131 of lru_cache_get_element: unlink node [t]. *)
Definition unlink (pool : list lruCacheNode_t) (t : nat) : option (list lruCacheNode_t) :=
  tp ← get_prev pool (Some t);
  tn ← get_next pool (Some t);
  pool ← set_next pool tp tn;                      (* tmpNode->prev->next = tmpNode->next *)
  tn ← get_next pool (Some t);
  tp ← get_prev pool (Some t);
  set_prev pool tn tp.                             (* tmpNode->next->prev = tmpNode->prev *)

(* lru_cache_get_element: the new cache and the returned pointer
   tmpNode->md5 (or NULL). *)
Definition lru_cache_get_element (cache : lruCache_t) (req : string)
  : option (lruCache_t * option string) :=
  tmp ← lru_find_element (cachePool cache) req (currentCapacity cache);
  match tmp with
  | None => Some (cache, None)
  | Some t =>
      if decide (t = head cache) then
        nt ← cachePool cache !! t; Some (cache, md5 nt)
      else
        pool ← unlink (cachePool cache) t;
        pool ← link_before_head pool t (head cache);
        nt ← pool !! t;                            (* cache->head = tmpNode *)
        Some (mk_cache t pool (currentCapacity cache) (totalCapacity cache), md5 nt)
  end.

(* lru_cache_update_node: [value] is the digest string handed over. *)
Definition lru_cache_update_node (cache : lruCache_t) (req value : string)
  : option lruCache_t :=
  if decide (currentCapacity cache < totalCapacity cache) then
    (* tmpNode = cache->cachePool[cache->currentCapacity] *)
    let t := currentCapacity cache in
    nt ← cachePool cache !! t;
    let pool := <[t := with_entry nt (Some req) (Some value)]> (cachePool cache) in
    pool ← link_before_head pool t (head cache);
    Some (mk_cache t pool (S (currentCapacity cache)) (totalCapacity cache))
  else
    (* tmpNode = cache->head->prev *)
    hp ← get_prev (cachePool cache) (Some (head cache));
    t ← hp;
    nt ← cachePool cache !! t;
    (* safe_free the old request and md5, then store the new ones *)
    let pool := <[t := with_entry nt (Some req) (Some value)]> (cachePool cache) in
    Some (mk_cache t pool (currentCapacity cache) (totalCapacity cache)).

(* A client-visible operation on the cache. *)
Inductive cache_op :=
| Put (k v : string)
| Get (k : string).

Definition cache_step (c : lruCache_t) (op : cache_op) : option lruCache_t :=
  match op with
  | Put k v => lru_cache_update_node c k v
  | Get k => fst <$> lru_cache_get_element c k
  end.

Fixpoint cache_run (c : lruCache_t) (ops : list cache_op) : option lruCache_t :=
  match ops with
  | [] => Some c
  | op :: ops' => c' ← cache_step c op; cache_run c' ops'
  end.

(* put(k, v) as an operation. *)
Definition put_op (kv : string * string) : cache_op := Put kv.1 kv.2.

(* The result of get(k) on a cache, the cache itself left aside. *)
Definition get_result (c : lruCache_t) (k : string) : option (option string) :=
  snd <$> lru_cache_get_element c k.

(* ----- Recency ring and cache invariant (proof vocabulary) ----- *)

(* Consecutive pairs of a list of node indices. *)
Fixpoint links (l : list nat) : list (nat * nat) :=
  match l with
  | x :: ((y :: _) as r) => (x, y) :: links r
  | _ => []
  end.

(* Every consecutive pair x, y of [l] is linked: x->next == y, y->prev == x. *)
Definition chain (pool : list lruCacheNode_t) (l : list nat) : Prop :=
  Forall (λ '(x, y), get_next pool (Some x) = Some (Some y) ∧
                     get_prev pool (Some y) = Some (Some x)) (links l).

(* The nodes [o], in next-order starting at the head, form a cyclic
   doubly-linked ring. *)
Definition ring_ok (pool : list lruCacheNode_t) (o : list nat) : Prop :=
  NoDup o ∧ match o with [] => True | h :: _ => chain pool (o ++ [h]) end.

(* The payload of node [x]: its request and md5 pointers. *)
Definition get_entry (pool : list lruCacheNode_t) (x : nat)
  : option (option string * option string) :=
  (λ n, (request n, md5 n)) <$> pool !! x.

(* [o] lists the live nodes in recency order (MRU first): they are the
   slots 0 .. currentCapacity-1, linked as a ring starting at the head.
   While no node is live, head is the self-linked slot 0. *)
Definition cache_inv (c : lruCache_t) (o : list nat) : Prop :=
  length (cachePool c) = totalCapacity c ∧
  currentCapacity c ≤ totalCapacity c ∧ 0 < totalCapacity c ∧
  o ≡ₚ seq 0 (currentCapacity c) ∧
  match o with
  | [] => head c = 0 ∧ get_prev (cachePool c) (Some 0) = Some (Some 0)
  | h :: _ => head c = h ∧ ring_ok (cachePool c) o
  end.

(* The request stored in slot [x] (NULL or out of the pool: [None]). *)
Definition req_at (pool : list lruCacheNode_t) (x : nat) : option string :=
  pool !! x ≫= request.

(* The key an operation names. *)
Definition op_key (op : cache_op) : string :=
  match op with Put k _ => k | Get k => k end.

(* The server's use of the cache (requestMonitor.c, process_client_request):
   a key is put only after get returned NULL for it. *)
Fixpoint fresh_run (c : lruCache_t) (ops : list cache_op) : bool :=
  match ops with
  | [] => true
  | op :: ops' =>
      (match op with
       | Put k _ => bool_decide (get_result c k = Some None)
       | Get _ => true
       end) &&
      (match cache_step c op with Some c' => fresh_run c' ops' | None => false end)
  end.

(* The nodes ahead of node [t] in the recency order [o]. *)
Fixpoint before (t : nat) (o : list nat) : list nat :=
  match o with
  | [] => []
  | x :: r => if decide (x = t) then [] else x :: before t r
  end.

(* Every live slot holds a request and a digest, and no two live slots
   hold the same request. *)
Definition cache_wf (c : lruCache_t) (o : list nat) : Prop :=
  cache_inv c o ∧
  (∀ x, x < currentCapacity c → ∃ r v, get_entry (cachePool c) x = Some (Some r, Some v)) ∧
  (∀ x y z, x < currentCapacity c → y < currentCapacity c →
     req_at (cachePool c) x = Some z → req_at (cachePool c) y = Some z → x = y).

(* Where key [k] stands after the keys [seen] were operated on: either a
   live node [t] holds [k] and every node ahead of it in the recency order
   holds a key of [seen] other than [k], or no live node holds [k]. *)
Definition tracks (k : string) (c : lruCache_t) (o : list nat) (seen : list string) : Prop :=
  (∃ t, t ∈ o ∧ req_at (cachePool c) t = Some k ∧
     ∀ a, a ∈ before t o → ∃ y, req_at (cachePool c) a = Some y ∧ y ≠ k ∧ y ∈ seen) ∨
  (∀ x, x < currentCapacity c → req_at (cachePool c) x ≠ Some k).

(* ===================================================================== *)
(* utils/crypto.c: MD5                                                    *)
(* ===================================================================== *)

(* uint32_t and uint64_t values are Z's in [0, 2^32) and [0, 2^64); every
   arithmetic result is reduced as the C types do. *)
Section crypto.
Local Open Scope Z_scope.

Definition mask32 (x : Z) : Z := Z.land x (Z.ones 32).
Definition mask64 (x : Z) : Z := Z.land x (Z.ones 64).
Definition not32 (x : Z) : Z := Z.lxor x (Z.ones 32).    (* ~x on uint32_t *)

(* #define A, B, C, D *)
Definition md5_A : Z := 0x67452301.
Definition md5_B : Z := 0xefcdab89.
Definition md5_C : Z := 0x98badcfe.
Definition md5_D : Z := 0x10325476.

Definition hex : string := "0123456789abcdef".

(* S[] and K[]: per-round shift amounts and sine constants. *)
Definition md5_S : list Z :=
  [7; 12; 17; 22; 7; 12; 17; 22; 7; 12; 17; 22; 7; 12; 17; 22;
   5;  9; 14; 20; 5;  9; 14; 20; 5;  9; 14; 20; 5;  9; 14; 20;
   4; 11; 16; 23; 4; 11; 16; 23; 4; 11; 16; 23; 4; 11; 16; 23;
   6; 10; 15; 21; 6; 10; 15; 21; 6; 10; 15; 21; 6; 10; 15; 21].

Definition md5_K : list Z :=
  [0xd76aa478; 0xe8c7b756; 0x242070db; 0xc1bdceee;
   0xf57c0faf; 0x4787c62a; 0xa8304613; 0xfd469501;
   0x698098d8; 0x8b44f7af; 0xffff5bb1; 0x895cd7be;
   0x6b901122; 0xfd987193; 0xa679438e; 0x49b40821;
   0xf61e2562; 0xc040b340; 0x265e5a51; 0xe9b6c7aa;
   0xd62f105d; 0x02441453; 0xd8a1e681; 0xe7d3fbc8;
   0x21e1cde6; 0xc33707d6; 0xf4d50d87; 0x455a14ed;
   0xa9e3e905; 0xfcefa3f8; 0x676f02d9; 0x8d2a4c8a;
   0xfffa3942; 0x8771f681; 0x6d9d6122; 0xfde5380c;
   0xa4beea44; 0x4bdecfa9; 0xf6bb4b60; 0xbebfbc70;
   0x289b7ec6; 0xeaa127fa; 0xd4ef3085; 0x04881d05;
   0xd9d4d039; 0xe6db99e5; 0x1fa27cf8; 0xc4ac5665;
   0xf4292244; 0x432aff97; 0xab9423a7; 0xfc93a039;
   0x655b59c3; 0x8f0ccc92; 0xffeff47d; 0x85845dd1;
   0x6fa87e4f; 0xfe2ce6e0; 0xa3014314; 0x4e0811a1;
   0xf7537e82; 0xbd3af235; 0x2ad7d2bb; 0xeb86d391].

(* The macros F, G, H, I. *)
Definition md5F (X Y Z' : Z) : Z := Z.lor (Z.land X Y) (Z.land (not32 X) Z').
Definition md5G (X Y Z' : Z) : Z := Z.lor (Z.land X Z') (Z.land Y (not32 Z')).
Definition md5H (X Y Z' : Z) : Z := Z.lxor (Z.lxor X Y) Z'.
Definition md5I (X Y Z' : Z) : Z := Z.lxor Y (Z.lor X (not32 Z')).

(* PADDING: 0x80 then 63 zero bytes. *)
Definition PADDING : list Z := 0x80 :: repeat 0 63.

Definition rotateLeft (x n : Z) : Z :=
  mask32 (Z.lor (Z.shiftl x n) (Z.shiftr x (32 - n))).

(* One iteration i of the loop of md5Step on (AA, BB, CC, DD). *)
Definition md5_round (input : list Z) (st : Z * Z * Z * Z) (i : nat) : Z * Z * Z * Z :=
  let '(AA, BB, CC, DD) := st in
  let '(E, j) :=
    match Nat.div i 16 with
    | 0%nat => (md5F BB CC DD, i)
    | 1%nat => (md5G BB CC DD, Nat.modulo (i * 5 + 1) 16)
    | 2%nat => (md5H BB CC DD, Nat.modulo (i * 3 + 5) 16)
    | _ => (md5I BB CC DD, Nat.modulo (i * 7) 16)
    end in
  let temp := DD in
  let DD := CC in
  let CC := BB in
  let BB := mask32 (BB + rotateLeft (mask32 (AA + E + nth i md5_K 0 + nth j input 0)) (nth i md5_S 0)) in
  let AA := temp in
  (AA, BB, CC, DD).

Definition md5Step (buffer input : list Z) : list Z :=
  let '(AA, BB, CC, DD) :=
    fold_left (md5_round input) (seq 0 64)
      (nth 0 buffer 0, nth 1 buffer 0, nth 2 buffer 0, nth 3 buffer 0) in
  [mask32 (nth 0 buffer 0 + AA); mask32 (nth 1 buffer 0 + BB);
   mask32 (nth 2 buffer 0 + CC); mask32 (nth 3 buffer 0 + DD)].

Record MD5Context_t := mk_md5 {
  size : Z;              (* uint64_t *)
  buffer : list Z;       (* uint32_t[4] *)
  input : list Z;        (* uint8_t[64] *)
  digest : list Z        (* uint8_t[16] *)
}.

(* Little-endian word j of the 64-byte block. *)
Definition le_word (inp : list Z) (j : nat) : Z :=
  Z.lor (Z.lor (Z.lor (Z.shiftl (nth (j * 4 + 3) inp 0) 24)
                      (Z.shiftl (nth (j * 4 + 2) inp 0) 16))
               (Z.shiftl (nth (j * 4 + 1) inp 0) 8))
        (nth (j * 4) inp 0).

(* md5Init: size and buffer are set; input and digest are left as they
   are (md5String's ctx lives on the stack). *)
Definition md5Init (ctx : MD5Context_t) : MD5Context_t :=
  mk_md5 0 [md5_A; md5_B; md5_C; md5_D] (input ctx) (digest ctx).

(* One iteration of the byte loop of md5Update, on (buffer, input, offset). *)
Definition md5_update_byte (st : list Z * list Z * nat) (b : Z) : list Z * list Z * nat :=
  let '(buf, inp, offset) := st in
  let inp := <[offset := b]> inp in
  let offset := S offset in
  if decide (Nat.modulo offset 64 = 0%nat) then
    (md5Step buf (map (le_word inp) (seq 0 16)), inp, 0%nat)
  else (buf, inp, offset).

(* md5Update when its byte loop runs to the end. *)
Definition md5Update_loop (ctx : MD5Context_t) (bytes : list Z) : MD5Context_t :=
  let offset := Z.to_nat (size ctx mod 64) in
  let sz := mask64 (size ctx + Z.of_nat (length bytes)) in
  let '(buf, inp, _) := fold_left md5_update_byte bytes (buffer ctx, input ctx, offset) in
  mk_md5 sz buf inp (digest ctx).

(* md5Update: the byte loop is for (unsigned int i = 0; i < input_len; ++i)
   with a size_t input_len.  The counter wraps from 2^32 - 1 to 0, so for
   input_len >= 2^32 the test i < input_len never fails and md5Update never
   returns ([None]). *)
Definition md5Update (ctx : MD5Context_t) (bytes : list Z) : option MD5Context_t :=
  if (Z.of_nat (length bytes) <? 2 ^ 32)%Z then Some (md5Update_loop ctx bytes) else None.

(* The four bytes of a word, least significant first. *)
Definition word_bytes (w : Z) : list Z :=
  [Z.land w 0x000000FF; Z.shiftr (Z.land w 0x0000FF00) 8;
   Z.shiftr (Z.land w 0x00FF0000) 16; Z.shiftr (Z.land w 0xFF000000) 24].

Definition md5Finalize (ctx : MD5Context_t) : option MD5Context_t :=
  let offset := size ctx mod 64 in
  let padding_length := if offset <? 56 then 56 - offset else (56 + 64) - offset in
  ctx ← md5Update ctx (firstn (Z.to_nat padding_length) PADDING);
  let sz := mask64 (size ctx - padding_length) in
  let inp := map (le_word (input ctx)) (seq 0 14) ++
             [mask32 (mask64 (sz * 8)); mask32 (Z.shiftr (mask64 (sz * 8)) 32)] in
  let buf := md5Step (buffer ctx) inp in
  Some (mk_md5 sz buf (input ctx) (flat_map word_bytes (firstn 4 buf))).

(* The bytes of a C string up to its terminating NUL (strlen). *)
Fixpoint c_bytes (s : string) : list Z :=
  match s with
  | String.EmptyString => []
  | String.String a s' =>
      if Ascii.eqb a Ascii.zero then [] else Z.of_nat (Ascii.nat_of_ascii a) :: c_bytes s'
  end.

(* The string of n characters c (a test input). *)
Fixpoint string_repeat (n : nat) (c : Ascii.ascii) : string :=
  match n with
  | O => String.EmptyString
  | S n => String.String c (string_repeat n c)
  end.

(* hex[n] *)
Definition hex_at (n : Z) : Ascii.ascii :=
  match String.get (Z.to_nat n) hex with Some a => a | None => Ascii.zero end.

(* ctx is an uninitialised stack variable: its input and digest arrays
   hold whatever the stack held. They are modelled as zeros; md5Update
   writes every byte of ctx.input before md5Update or md5Finalize reads it,
   and md5Finalize writes all of ctx.digest.  [None]: md5String does not
   return (md5Update does not, on 2^32 bytes or more). *)
Definition md5String (s : string) : option string :=
  let ctx := md5Init (mk_md5 0 [] (repeat 0 64) (repeat 0 16)) in
  ctx ← md5Update ctx (c_bytes s);
  ctx ← md5Finalize ctx;
  Some (String.string_of_list_ascii
    (flat_map (λ i, let d := nth i (digest ctx) 0 in
                    [hex_at (Z.shiftr (Z.land d 0xF0) 4); hex_at (Z.land d 0x0F)])
              (seq 0 16))).

(* A lowercase hexadecimal digit: 0-9 or a-f. *)
Definition is_lower_hex (a : Ascii.ascii) : bool :=
  let n := Ascii.nat_of_ascii a in
  (Nat.leb 48 n && Nat.leb n 57) || (Nat.leb 97 n && Nat.leb n 102).

End crypto.

(* ===================================================================== *)
(* dataStructures/requestQueue.c                                         *)
(* ===================================================================== *)

(* Pointers to queue nodes are addresses into a heap of cells; a freed
   cell is [None]. A [void *] payload is an address, NULL being 0. *)
Record queue_node_t := mk_qnode {
  data : nat;
  qnext : option nat;
  qprev : option nat
}.

Record linked_queue_t := mk_queue {
  elements : Z;            (* unsigned int: ++ and -- wrap modulo 2^32 *)
  first : option nat;
  last : option nat
}.

Abbreviation qheap := (list (option queue_node_t)).

Record qstate := mk_qstate {
  queue : linked_queue_t;
  heap : qheap
}.

(* *p: undefined ([None]) on NULL or a freed cell. *)
Definition qload (h : qheap) (p : option nat) : option queue_node_t :=
  a ← p; h !! a ≫= id.

(* *p = n *)
Definition qstore (h : qheap) (p : option nat) (n : queue_node_t) : option qheap :=
  _ ← qload h p; a ← p; Some (<[a := Some n]> h).

Definition set_qnext (n : queue_node_t) (p : option nat) := mk_qnode (data n) p (qprev n).
Definition set_qprev (n : queue_node_t) (p : option nat) := mk_qnode (data n) (qnext n) p.

(* linked_queue_init *)
Definition linked_queue_init : qstate := mk_qstate (mk_queue 0%Z None None) [].

Definition linked_queue_append_node (st : qstate) (node : nat) : option qstate :=
  let q := queue st in
  let h := heap st in
  match first q with
  | None =>
      n ← qload h (Some node);
      h ← qstore h (Some node) (set_qnext (set_qprev n None) None);
      Some (mk_qstate (mk_queue ((elements q + 1) mod 2 ^ 32)%Z (Some node) (Some node)) h)
  | Some _ =>
      l ← qload h (last q);
      h ← qstore h (last q) (set_qnext l (Some node));      (* queue->last->next = node *)
      n ← qload h (Some node);
      h ← qstore h (Some node) (set_qnext (set_qprev n (last q)) None);
      Some (mk_qstate (mk_queue ((elements q + 1) mod 2 ^ 32)%Z (first q) (Some node)) h)
  end.

(* linked_queue_push (and the body of linked_queue_push_ex under the
   mutex): the node is calloc'ed at a fresh address. *)
Definition linked_queue_push (st : qstate) (d : nat) : option qstate :=
  let a := length (heap st) in
  linked_queue_append_node
    (mk_qstate (queue st) (heap st ++ [Some (mk_qnode d None None)])) a.

Definition linked_queue_pop_node (st : qstate) : option qstate :=
  let q := queue st in
  let h := heap st in
  let tmp := first q in
  f ← qload h (first q);
  let fst' := qnext f in                                 (* queue->first = queue->first->next *)
  '(h, lst) ←
    match fst' with
    | Some _ =>
        n ← qload h fst';
        h ← qstore h fst' (set_qprev n None);            (* queue->first->prev = NULL *)
        Some (h, last q)
    | None => Some (h, None)                             (* queue->last = NULL *)
    end;
  a ← tmp;
  Some (mk_qstate (mk_queue ((elements q - 1) mod 2 ^ 32)%Z fst' lst) (<[a := None]> h)). (* free(tmp) *)

(* linked_queue_pop: the payload (NULL when empty) and the new state. *)
Definition linked_queue_pop (st : qstate) : option (nat * qstate) :=
  match first (queue st) with
  | Some _ =>
      f ← qload (heap st) (first (queue st));
      st ← linked_queue_pop_node st;
      Some (data f, st)
  | None => Some (0, st)
  end.

Definition SERVER_SIGTERM : Z := 0x04.

(* One test of the loop of linked_queue_pop_ex:
   while (data = linked_queue_pop(queue), !data) {
     if (serverHandler & SERVER_SIGTERM) break;
     pthread_cond_wait(...); } *)
Inductive pop_check := Return (d : nat) (st : qstate) | Wait (st : qstate).

Definition pop_ex_check (st : qstate) (serverHandler : Z) : option pop_check :=
  '(d, st) ← linked_queue_pop st;
  if decide (d ≠ 0) then Some (Return d st)
  else if decide (Z.land serverHandler SERVER_SIGTERM ≠ 0%Z) then Some (Return d st)
  else Some (Wait st).

(* What other threads do while this one waits on the condition variable
   with the mutex released: push a payload, or change serverHandler. *)
Inductive env_event := EPush (d : nat) | ESetHandler (f : Z).

Definition env_step (sf : qstate * Z) (e : env_event) : option (qstate * Z) :=
  let '(st, f) := sf in
  match e with
  | EPush d => st ← linked_queue_push st d; Some (st, f)
  | ESetHandler f' => Some (st, f')
  end.

Fixpoint env_run (sf : qstate * Z) (es : list env_event) : option (qstate * Z) :=
  match es with
  | [] => Some sf
  | e :: es => sf ← env_step sf e; env_run sf es
  end.

Inductive pop_ex_outcome :=
| Returned (d : nat) (st : qstate) (serverHandler : Z)
| Waiting (st : qstate) (serverHandler : Z).

(* linked_queue_pop_ex, with one list of events per wakeup of
   pthread_cond_wait (an empty list is a spurious wakeup); when the
   wakeups run out the thread is still waiting. *)
Fixpoint linked_queue_pop_ex (st : qstate) (serverHandler : Z)
    (wakeups : list (list env_event)) : option pop_ex_outcome :=
  r ← pop_ex_check st serverHandler;
  match r with
  | Return d st => Some (Returned d st serverHandler)
  | Wait st =>
      match wakeups with
      | [] => Some (Waiting st serverHandler)
      | es :: ws =>
          '(st, f) ← env_run (st, serverHandler) es;
          linked_queue_pop_ex st f ws
      end
  end.

(* ----- Proof vocabulary: the queue holds the payloads [l] ----- *)

(* From pointer [p], with [pp] the expected prev pointer of the first
   node, the nodes [l] (address, payload) follow each other by next and
   point back by prev; [lp] is the last address ([pp] when [l] is
   empty). *)
Fixpoint qseg (h : qheap) (p pp : option nat) (l : list (nat * nat)) (lp : option nat) : Prop :=
  match l with
  | [] => p = None ∧ lp = pp
  | (a, d) :: l' =>
      ∃ n, p = Some a ∧ h !! a = Some (Some n) ∧ data n = d ∧ qprev n = pp ∧
        qseg h (qnext n) (Some a) l' lp
  end.

Definition qrep (st : qstate) (l : list (nat * nat)) : Prop :=
  qseg (heap st) (first (queue st)) None l (last (queue st)) ∧
  elements (queue st) = (Z.of_nat (length l) mod 2 ^ 32)%Z ∧ NoDup l.*1 ∧ Forall (λ a, a < length (heap st)) l.*1.

(* A producer/consumer interleaving on the queue: pushes, and pops by the
   single consumer. *)
Inductive qop := QPush (d : nat) | QPop.

(* What the consumer observes of each pop: the payload of the node it
   detached ([Some]), or that linked_queue_pop found queue->first NULL
   ([None]). *)
Fixpoint queue_run (st : qstate) (ops : list qop) : option (list (option nat) * qstate) :=
  match ops with
  | [] => Some ([], st)
  | QPush d :: ops => st ← linked_queue_push st d; queue_run st ops
  | QPop :: ops =>
      '(d, st') ← linked_queue_pop st;
      '(outs, st'') ← queue_run st' ops;
      Some ((if first (queue st) then Some d else None) :: outs, st'')
  end.

(* The payloads pushed, in order. *)
Fixpoint pushes (ops : list qop) : list nat :=
  match ops with
  | [] => []
  | QPush d :: ops => d :: pushes ops
  | QPop :: ops => pushes ops
  end.

(* A heap cell holding a queue node that has not been freed. *)
Definition allocated (h : qheap) (a : nat) : Prop := ∃ n, h !! a = Some (Some n).

(* An event that pushes no NULL payload (the server pushes &connection). *)
Definition push_nonnull (e : env_event) : bool :=
  match e with EPush d => bool_decide (d ≠ 0) | ESetHandler _ => true end.

(* ===================================================================== *)
(* requestMonitor.c: tokenize_request                                    *)
(* ===================================================================== *)

Definition ERROR : Z := 1%Z.
Definition SUCCESS : Z := 0%Z.
Definition REQUEST_FIELDS : nat := 3.

(* request_t; [msg] is NULL ([None]) or an owned heap string. *)
Record request_t := mk_request {
  msg : option (list Ascii.ascii);
  mseconds : Z                       (* time_t, 64 bits *)
}.

Definition is_nul (c : Ascii.ascii) : bool := Ascii.eqb c Ascii.zero.
Definition is_space_delim (c : Ascii.ascii) : bool := Ascii.eqb c (Ascii.ascii_of_nat 32).

(* The characters of a C string: the memory at the pointer up to its NUL. *)
Fixpoint c_chars (s : list Ascii.ascii) : list Ascii.ascii :=
  match s with
  | [] => []
  | c :: s => if is_nul c then [] else c :: c_chars s
  end.

(* strtok with the delimiter set " ", on the characters left of the
   string (its saved pointer): skip the leading delimiters; at the end of
   the string return NULL; otherwise the token runs up to the next
   delimiter, which is overwritten by NUL, and the saved pointer moves
   past it. *)
Fixpoint skip_delims (s : list Ascii.ascii) : list Ascii.ascii :=
  match s with
  | c :: s' => if is_space_delim c then skip_delims s' else s
  | [] => []
  end.

Fixpoint take_token (s : list Ascii.ascii) : list Ascii.ascii * list Ascii.ascii :=
  match s with
  | [] => ([], [])
  | c :: s' =>
      if is_space_delim c then ([], s')
      else let '(t, r) := take_token s' in (c :: t, r)
  end.

Definition strtok (s : list Ascii.ascii) : option (list Ascii.ascii * list Ascii.ascii) :=
  match skip_delims s with
  | [] => None
  | s' => Some (take_token s')
  end.

(* strcmp(token, "get") == 0 *)
Definition is_get (token : list Ascii.ascii) : bool :=
  bool_decide (token = String.list_ascii_of_string "get").

(* strtoul(token, NULL, 10) as glibc computes it: leading isspace
   characters are skipped, then an optional sign, then the longest run of
   decimal digits (none: the result is 0); a value above ULONG_MAX gives
   ULONG_MAX, and a '-' negates the value modulo 2^64. *)
Definition ULONG_MAX : Z := (2 ^ 64 - 1)%Z.

Definition is_c_space (c : Ascii.ascii) : bool :=
  let n := Ascii.nat_of_ascii c in (n =? 32) || ((9 <=? n) && (n <=? 13)).

Definition is_digit (c : Ascii.ascii) : bool :=
  let n := Ascii.nat_of_ascii c in (48 <=? n) && (n <=? 57).

Definition digit_value (c : Ascii.ascii) : Z := Z.of_nat (Ascii.nat_of_ascii c - 48).

Fixpoint skip_c_space (s : list Ascii.ascii) : list Ascii.ascii :=
  match s with
  | c :: s' => if is_c_space c then skip_c_space s' else s
  | [] => []
  end.

Fixpoint digits_value (acc : Z) (s : list Ascii.ascii) : Z :=
  match s with
  | c :: s' => if is_digit c then digits_value (acc * 10 + digit_value c)%Z s' else acc
  | [] => acc
  end.

Definition strtoul10 (s : list Ascii.ascii) : Z :=
  let s := skip_c_space s in
  let '(neg, s) :=
    match s with
    | c :: s' =>
        if Ascii.eqb c (Ascii.ascii_of_nat 45) then (true, s')
        else if Ascii.eqb c (Ascii.ascii_of_nat 43) then (false, s') else (false, s)
    | [] => (false, s)
    end in
  let v := digits_value 0 s in
  if (ULONG_MAX <? v)%Z then ULONG_MAX
  else if neg then ((- v) mod 2 ^ 64)%Z else v.

(* The unsigned long stored in the time_t field (two's complement). *)
Definition to_time_t (u : Z) : Z := if (u <? 2 ^ 63)%Z then u else (u - 2 ^ 64)%Z.

(* The for loop of tokenize_request: [tok] is the last value returned by
   strtok; the loop ends when it is NULL, or returns early. [fuel] bounds
   the number of iterations (the string shrinks at each strtok). *)
Inductive loop_exit :=
| LoopReturn (code : Z) (request : request_t)
| LoopDone (requestIterator : nat) (request : request_t).

Fixpoint tokenize_loop (fuel : nat) (tok : option (list Ascii.ascii * list Ascii.ascii))
    (requestIterator : nat) (request : request_t) : option loop_exit :=
  match tok with
  | None => Some (LoopDone requestIterator request)
  | Some (token, rest) =>
      match fuel with
      | 0 => None
      | S fuel =>
          let requestIterator := S requestIterator in
          match requestIterator with
          | 1 =>
              if is_get token then tokenize_loop fuel (strtok rest) requestIterator request
              else Some (LoopReturn ERROR request)
          | 2 =>
              tokenize_loop fuel (strtok rest) requestIterator
                (mk_request (Some token) (mseconds request))          (* strdup *)
          | 3 =>
              tokenize_loop fuel (strtok rest) requestIterator
                (mk_request (msg request) (to_time_t (strtoul10 token)))
          | _ => Some (LoopReturn ERROR request)
          end
      end
  end.

(* tokenize_request(str, request): [None] is a NULL [str]; otherwise
   [str] is the memory at [str], read up to its NUL. *)
Definition tokenize_request (str : option (list Ascii.ascii)) (request : request_t)
    : option (Z * request_t) :=
  match str with
  | None => Some (ERROR, request)
  | Some s =>
      let s := c_chars s in
      r ← tokenize_loop (S (length s)) (strtok s) 0 request;
      match r with
      | LoopReturn code request => Some (code, request)
      | LoopDone requestIterator request =>
          if bool_decide (requestIterator ≠ REQUEST_FIELDS) then Some (ERROR, request)
          else Some (SUCCESS, request)
      end
  end.

(* ----- Proof vocabulary ----- *)

(* All the tokens strtok returns, in order. *)
Fixpoint space_tokens_acc (cur : list Ascii.ascii) (s : list Ascii.ascii) : list (list Ascii.ascii) :=
  match s with
  | [] => match cur with [] => [] | _ => [rev cur] end
  | c :: s' =>
      if is_space_delim c then
        match cur with
        | [] => space_tokens_acc [] s'
        | _ => rev cur :: space_tokens_acc [] s'
        end
      else space_tokens_acc (c :: cur) s'
  end.

Definition space_tokens (s : list Ascii.ascii) : list (list Ascii.ascii) := space_tokens_acc [] s.

(* str(d) (characters '0' .. '9' are 48 .. 57): the decimal digits of [d], as printf's %u writes them. *)
Fixpoint uint_chars (u : Decimal.uint) : list Ascii.ascii :=
  match u with
  | Decimal.Nil => []
  | Decimal.D0 u => Ascii.ascii_of_nat 48 :: uint_chars u
  | Decimal.D1 u => Ascii.ascii_of_nat 49 :: uint_chars u
  | Decimal.D2 u => Ascii.ascii_of_nat 50 :: uint_chars u
  | Decimal.D3 u => Ascii.ascii_of_nat 51 :: uint_chars u
  | Decimal.D4 u => Ascii.ascii_of_nat 52 :: uint_chars u
  | Decimal.D5 u => Ascii.ascii_of_nat 53 :: uint_chars u
  | Decimal.D6 u => Ascii.ascii_of_nat 54 :: uint_chars u
  | Decimal.D7 u => Ascii.ascii_of_nat 55 :: uint_chars u
  | Decimal.D8 u => Ascii.ascii_of_nat 56 :: uint_chars u
  | Decimal.D9 u => Ascii.ascii_of_nat 57 :: uint_chars u
  end.

Definition str_of_nat (d : nat) : list Ascii.ascii := uint_chars (Nat.to_uint d).

Definition space_char : Ascii.ascii := Ascii.ascii_of_nat 32.

(* The loop of tokenize_request run on the list of tokens. *)
Fixpoint loop_on_tokens (toks : list (list Ascii.ascii)) (requestIterator : nat)
    (request : request_t) : loop_exit :=
  match toks with
  | [] => LoopDone requestIterator request
  | token :: toks =>
      let requestIterator := S requestIterator in
      match requestIterator with
      | 1 =>
          if is_get token then loop_on_tokens toks requestIterator request
          else LoopReturn ERROR request
      | 2 => loop_on_tokens toks requestIterator (mk_request (Some token) (mseconds request))
      | 3 =>
          loop_on_tokens toks requestIterator
            (mk_request (msg request) (to_time_t (strtoul10 token)))
      | _ => LoopReturn ERROR request
      end
  end.

(* ===================================================================== *)
(* main.c: start_server's accept loop and the workers (request_monitor)  *)
(* ===================================================================== *)

Definition SERVER_ENABLED : Z := 0x01.

(* The address of start_server's local [int connection] (non-NULL). *)
Definition connection_addr : nat := 1.

(* The main thread's [connection] cell, the request queue, the global
   serverHandler and, for each worker that popped, the [int *clientSocket]
   it holds (most recent first). *)
Record server_t := mk_server {
  connection : Z;
  requestQueue : qstate;
  serverHandler : Z;
  held : list (nat * nat)          (* (worker, clientSocket) *)
}.

Definition server_init (connection0 : Z) : server_t :=
  mk_server connection0 linked_queue_init SERVER_ENABLED [].

(* One step of an interleaving: the main thread's accept returns [fd]
   (negative: failure, the loop continues), or worker [w] returns from
   linked_queue_pop_ex (a worker finding the queue empty blocks: no step). *)
Inductive server_event := Accept (fd : Z) | WorkerPop (w : nat).

Definition server_step (s : server_t) (e : server_event) : option server_t :=
  match e with
  | Accept fd =>
      (* connection = accept(...); continue when it is negative *)
      if bool_decide (fd < 0)%Z then Some (mk_server fd (requestQueue s) (serverHandler s) (held s))
      else
        (* linked_queue_push_ex(queue, &connection) *)
        q ← linked_queue_push (requestQueue s) connection_addr;
        Some (mk_server fd q (serverHandler s) (held s))
  | WorkerPop w =>
      r ← linked_queue_pop_ex (requestQueue s) (serverHandler s) [];
      match r with
      | Returned p q _ => Some (mk_server (connection s) q (serverHandler s) ((w, p) :: held s))
      | Waiting _ _ => None
      end
  end.

Fixpoint server_run (s : server_t) (es : list server_event) : option server_t :=
  match es with
  | [] => Some s
  | e :: es => s ← server_step s e; server_run s es
  end.

(* *clientSocket: the only int the queue's payloads point to is [connection]. *)
Definition deref (s : server_t) (p : nat) : option Z :=
  if bool_decide (p = connection_addr) then Some (connection s) else None.

(* ===================================================================== *)
(* signalHandler.c: the serverHandler flags                              *)
(* ===================================================================== *)

Definition SERVER_SIGUSR1 : Z := 0x02.

(* Linux signal numbers. *)
Definition SIGINT : Z := 2.
Definition SIGUSR1 : Z := 10.
Definition SIGTERM : Z := 15.

(* signal_handler(signal), on the value of serverHandler. *)
Definition signal_handler (signal : Z) (serverHandler : Z) : Z :=
  if (signal =? SIGUSR1)%Z then Z.lor serverHandler SERVER_SIGUSR1
  else if ((signal =? SIGTERM) || (signal =? SIGINT))%Z then
    Z.lor (Z.land serverHandler (Z.lnot SERVER_ENABLED)) SERVER_SIGTERM
  else serverHandler.

(* The updates of serverHandler: a signal delivered to signal_handler, or
   the first statement of empty_cache (serverHandler &= ~(SERVER_SIGUSR1)). *)
Inductive flag_event := Signal (signal : Z) | EmptyCache.

Definition flag_step (serverHandler : Z) (e : flag_event) : Z :=
  match e with
  | Signal signal => signal_handler signal serverHandler
  | EmptyCache => Z.land serverHandler (Z.lnot SERVER_SIGUSR1)
  end.

(* From the initial value of the global (main.c: serverHandler = SERVER_ENABLED). *)
Definition flag_run (es : list flag_event) : Z := fold_left flag_step es SERVER_ENABLED.

(* ===================================================================== *)
(* main.c: parse_arguments and initialize_server_data                    *)
(* ===================================================================== *)

Definition THREAD_POOL_SIZE : Z := 8.

Definition LONG_MAX : Z := (2 ^ 63 - 1)%Z.
Definition LONG_MIN : Z := (- 2 ^ 63)%Z.

(* strtol(s, NULL, 10): spaces, an optional sign, then the decimal
   digits; out of range it gives LONG_MAX or LONG_MIN. *)
Definition strtol10 (s : list Ascii.ascii) : Z :=
  let s := skip_c_space s in
  let '(neg, s) :=
    match s with
    | c :: s' =>
        if Ascii.eqb c (Ascii.ascii_of_nat 45) then (true, s')
        else if Ascii.eqb c (Ascii.ascii_of_nat 43) then (false, s') else (false, s)
    | [] => (false, s)
    end in
  let v := digits_value 0 s in
  if neg then (if (2 ^ 63 <? v)%Z then LONG_MIN else (- v)%Z)
  else (if (LONG_MAX <? v)%Z then LONG_MAX else v).

(* The conversion of a long to a 32-bit int (two's complement). *)
Definition to_int (v : Z) : Z := ((v + 2 ^ 31) mod 2 ^ 32 - 2 ^ 31)%Z.

(* atoi(s) = (int) strtol(s, NULL, 10) *)
Definition atoi (s : list Ascii.ascii) : Z := to_int (strtol10 s).

Record arguments_t := mk_arguments {
  cacheSize : Z;
  port : Z;
  threadNumber : Z
}.

(* The loop over getopt(argc, argv, "p:C:ht:"), on the values getopt
   returns with their optarg ('?' for an unknown option or a missing
   argument). [inl]: the switch's default case returned false. *)
Fixpoint getopt_loop (opts : list (Ascii.ascii * list Ascii.ascii)) (args : arguments_t)
    : arguments_t + arguments_t :=
  match opts with
  | [] => inr args
  | (c, optarg) :: opts =>
      if Ascii.eqb c (Ascii.ascii_of_nat 112) then                  (* 'p' *)
        getopt_loop opts (mk_arguments (cacheSize args) (atoi optarg) (threadNumber args))
      else if Ascii.eqb c (Ascii.ascii_of_nat 67) then             (* 'C' *)
        getopt_loop opts (mk_arguments (atoi optarg) (port args) (threadNumber args))
      else if Ascii.eqb c (Ascii.ascii_of_nat 116) then            (* 't' *)
        getopt_loop opts (mk_arguments (cacheSize args) (port args) (atoi optarg))
      else inl args                                                (* print_help_message *)
  end.

Definition parse_arguments (opts : list (Ascii.ascii * list Ascii.ascii)) (args : arguments_t)
    : bool * arguments_t :=
  match getopt_loop opts args with
  | inl args => (false, args)
  | inr args =>
      if (port args <=? 0)%Z then (false, args)
      else if (cacheSize args <=? 0)%Z then (false, args)
      else if ((threadNumber args <=? 0) || (1000 <=? threadNumber args))%Z then
        (true, mk_arguments (cacheSize args) (port args) THREAD_POOL_SIZE)
      else (true, args)
  end.




(* ===================================================================== *)
(* main.c: the printing loop of teardown_server                          *)
(* ===================================================================== *)

(* for (i = 0; i < currentCapacity; i++) {
     printf(..., head->request, head->md5); head = head->next; }
   The printed (request, md5) pairs and the final value of head
   (dereferencing NULL or a pointer out of the pool: [None]). *)
Fixpoint teardown_loop (pool : list lruCacheNode_t) (head : option nat) (i : nat)
    : option (list (option string * option string) * option nat) :=
  match i with
  | 0 => Some ([], head)
  | S i =>
      nd ← (h ← head; pool !! h);
      '(printed, head) ← teardown_loop pool (next nd) i;
      Some ((request nd, md5 nd) :: printed, head)
  end.

Definition teardown_print (c : lruCache_t) : option (list (option string * option string)) :=
  fst <$> teardown_loop (cachePool c) (Some (head c)) (currentCapacity c).

(* ===================================================================== *)
(* requestMonitor.c: read_client_request and process_client_request      *)
(* ===================================================================== *)

Definition MAXREQUESTSIZE : nat := 4096.

Definition EAGAIN : Z := 11.

Definition newline : list Ascii.ascii := [Ascii.ascii_of_nat 10].

Definition SEND_TIMEOUT : list Ascii.ascii := String.list_ascii_of_string "Timeout." ++ newline.
Definition SEND_LONG_REQUEST : list Ascii.ascii :=
  String.list_ascii_of_string "Request is too long." ++ newline.
Definition SEND_INVALID_REQUEST : list Ascii.ascii :=
  String.list_ascii_of_string "Request is not valid." ++ newline.

(* What the socket calls do on the client's connection. *)
Inductive io_action :=
| Send (fd : Z) (bytes : list Ascii.ascii)
| Close (fd : Z)
| Sleep (usec : Z).

(* What one recv returns: -1 with errno, or the bytes it wrote (none: the
   peer closed the connection); recv writes at most MAXREQUESTSIZE + 1. *)
Inductive recv_result := RecvErr (errno : Z) | RecvData (bytes : list Ascii.ascii).

(* do memset(...); while (recv(...) > 0); [None]: recv still blocks when
   the results run out. *)
Fixpoint drain (rs : list recv_result) : option (list recv_result) :=
  match rs with
  | [] => None
  | RecvErr _ :: rs => Some rs
  | RecvData bytes :: rs => if bool_decide (length bytes = 0) then Some rs else drain rs
  end.

(* read_client_request(request, connection): [None] for a NULL
   connection pointer, otherwise *connection.  The result, the request
   after the call, the actions on the socket and the recv results left. *)
Definition read_client_request (request : request_t) (connection : option Z) (rs : list recv_result)
    : option (bool * request_t * list io_action * list recv_result) :=
  match connection with
  | None => Some (false, request, [], rs)
  | Some recvSocket =>
      match rs with
      | [] => None
      | RecvErr errno :: rs =>
          Some (false, request,
                (if bool_decide (errno = EAGAIN) then [Send recvSocket SEND_TIMEOUT] else []) ++
                [Close recvSocket], rs)
      | RecvData bytes :: rs =>
          if bool_decide (MAXREQUESTSIZE < length bytes) then
            rs ← drain rs;
            Some (false, request, [Send recvSocket SEND_LONG_REQUEST; Close recvSocket], rs)
          else
            (* buffer[MAXREQUESTSIZE + 1] = {0}, then the bytes recv wrote *)
            let buffer := bytes ++ replicate (S MAXREQUESTSIZE - length bytes) Ascii.zero in
            '(code, request) ← tokenize_request (Some buffer) request;
            if bool_decide (code = ERROR) then
              (* safe_free(request->msg) *)
              Some (false, mk_request None (mseconds request),
                    [Send recvSocket SEND_INVALID_REQUEST; Close recvSocket], rs)
            else Some (true, request, [], rs)
      end
  end.

(* usleep(request->mseconds * 1000): a long product (overflow is
   undefined behaviour: [None]), converted to useconds_t (32 bits). *)
Definition usleep_arg (mseconds : Z) : option Z :=
  let p := (mseconds * 1000)%Z in
  if bool_decide (p < LONG_MIN ∨ LONG_MAX < p)%Z then None else Some (p mod 2 ^ 32)%Z.

(* The C string request->msg as a cache key. *)
Definition msg_key (m : list Ascii.ascii) : string := String.string_of_list_ascii (c_chars m).

(* process_client_request(connection, serverState, request): the cache,
   the request and the actions on the socket after the call.  A NULL
   request->msg is undefined behaviour, and md5String may not return:
   both are [None]. *)
Definition process_client_request (connection : Z) (cache : lruCache_t) (request : request_t)
    : option (lruCache_t * request_t * list io_action) :=
  m ← msg request;
  let key := msg_key m in
  '(cache, hit) ← lru_cache_get_element cache key;
  '(cache, md5, slept) ←
    match hit with
    | Some md5 => Some (cache, md5, [])
    | None =>
        md5 ← md5String key;
        usec ← usleep_arg (mseconds request);
        cache ← lru_cache_update_node cache key md5;
        Some (cache, md5, [Sleep usec])
    end;
  Some (cache, mk_request None 0,                    (* mseconds = 0; safe_free(msg) *)
        slept ++ [Send connection (take 32 (String.list_ascii_of_string md5));
                  Send connection newline; Close connection]).

(* Requests (client socket, request read) served one after another. *)
Fixpoint serve_run (cache : lruCache_t) (reqs : list (Z * request_t))
    : option (lruCache_t * list (list io_action)) :=
  match reqs with
  | [] => Some (cache, [])
  | (fd, request) :: reqs =>
      '(cache, _, io) ← process_client_request fd cache request;
      '(cache, ios) ← serve_run cache reqs;
      Some (cache, io :: ios)
  end.

(* ===================================================================== *)
(* Proofs: lruCache.c                                                    *)
(* ===================================================================== *)

Example lru_demo :
  (c ← lru_cache_init 2;
   c ← cache_run c [Put "a" "A"; Put "b" "B"; Get "a"; Put "c" "C"];
   Some (get_result c "a", get_result c "b", get_result c "c"))
  = Some (Some (Some "A"), Some None, Some (Some "C")).
Proof. reflexivity. Qed.

(* ----- Field updates ----- *)

Lemma obind_Some {A B} (x : A) (f : A → option B) : (Some x ≫= f) = f x.
Proof. reflexivity. Qed.

Lemma set_next_spec (pool : list lruCacheNode_t) i v :
  is_Some (pool !! i) →
  ∃ pool', set_next pool (Some i) v = Some pool' ∧
    length pool' = length pool ∧
    (∀ x, get_next pool' (Some x) = if decide (x = i) then Some v else get_next pool (Some x)) ∧
    (∀ x, get_prev pool' (Some x) = get_prev pool (Some x)) ∧
    (∀ x, get_entry pool' x = get_entry pool x).
Proof.
  intros [n Hn]. unfold set_next; simpl. rewrite Hn; simpl.
  eexists; split; [reflexivity|].
  assert (Hi : i < length pool) by (apply lookup_lt_is_Some; eauto).
  split; [apply length_insert|].
  split; [|split]; intros x; unfold get_next, get_prev, get_entry; simpl;
    destruct (decide (x = i)) as [->|Hne];
    [rewrite list_lookup_insert_eq by done; done
    |rewrite list_lookup_insert_ne by done; done
    |rewrite list_lookup_insert_eq, Hn by done; done
    |rewrite list_lookup_insert_ne by done; done
    |rewrite list_lookup_insert_eq, Hn by done; done
    |rewrite list_lookup_insert_ne by done; done].
Qed.

Lemma set_prev_spec (pool : list lruCacheNode_t) i v :
  is_Some (pool !! i) →
  ∃ pool', set_prev pool (Some i) v = Some pool' ∧
    length pool' = length pool ∧
    (∀ x, get_prev pool' (Some x) = if decide (x = i) then Some v else get_prev pool (Some x)) ∧
    (∀ x, get_next pool' (Some x) = get_next pool (Some x)) ∧
    (∀ x, get_entry pool' x = get_entry pool x).
Proof.
  intros [n Hn]. unfold set_prev; simpl. rewrite Hn; simpl.
  eexists; split; [reflexivity|].
  assert (Hi : i < length pool) by (apply lookup_lt_is_Some; eauto).
  split; [apply length_insert|].
  split; [|split]; intros x; unfold get_next, get_prev, get_entry; simpl;
    destruct (decide (x = i)) as [->|Hne];
    [rewrite list_lookup_insert_eq by done; done
    |rewrite list_lookup_insert_ne by done; done
    |rewrite list_lookup_insert_eq, Hn by done; done
    |rewrite list_lookup_insert_ne by done; done
    |rewrite list_lookup_insert_eq, Hn by done; done
    |rewrite list_lookup_insert_ne by done; done].
Qed.

Lemma get_next_is_Some (pool : list lruCacheNode_t) x a :
  get_next pool (Some x) = Some a → is_Some (pool !! x).
Proof. unfold get_next; simpl. destruct (pool !! x); simpl; [eauto|discriminate]. Qed.

Lemma get_prev_is_Some (pool : list lruCacheNode_t) x a :
  get_prev pool (Some x) = Some a → is_Some (pool !! x).
Proof. unfold get_prev; simpl. destruct (pool !! x); simpl; [eauto|discriminate]. Qed.

(* ----- Chains of links ----- *)

Lemma links_app (l1 l2 : list nat) x :
  links (l1 ++ x :: l2) = links (l1 ++ [x]) ++ links (x :: l2).
Proof.
  induction l1 as [|a l1 IH]; [done|].
  destruct l1 as [|b l1]; simpl in *; [done|]. by rewrite IH.
Qed.

Lemma links_in_l (l : list nat) z a b : (a, b) ∈ links (l ++ [z]) → a ∈ l.
Proof.
  induction l as [|x l IH]; simpl; [intros H; inversion H|].
  destruct l as [|y l]; simpl.
  - intros H. apply list_elem_of_singleton in H. injection H as -> ->. set_solver.
  - intros H. apply elem_of_cons in H as [H|H].
    + injection H as -> ->. set_solver.
    + apply IH in H. set_solver.
Qed.

Lemma links_in_r (l : list nat) x a b : (a, b) ∈ links (x :: l) → b ∈ l.
Proof.
  revert x. induction l as [|y l IH]; intros x; simpl; [intros H; inversion H|].
  intros H. apply elem_of_cons in H as [H|H].
  - injection H as -> ->. set_solver.
  - apply IH in H. set_solver.
Qed.

Lemma chain_app (pool : list lruCacheNode_t) l1 x l2 :
  chain pool (l1 ++ x :: l2) ↔ chain pool (l1 ++ [x]) ∧ chain pool (x :: l2).
Proof. unfold chain. rewrite links_app, Forall_app. done. Qed.

Lemma chain_pair (pool : list lruCacheNode_t) x y :
  chain pool [x; y] ↔
  get_next pool (Some x) = Some (Some y) ∧ get_prev pool (Some y) = Some (Some x).
Proof. unfold chain; simpl. rewrite Forall_singleton. done. Qed.

Lemma chain_frame (pool pool' : list lruCacheNode_t) l :
  chain pool l →
  (∀ a b, (a, b) ∈ links l →
     get_next pool' (Some a) = get_next pool (Some a) ∧
     get_prev pool' (Some b) = get_prev pool (Some b)) →
  chain pool' l.
Proof.
  unfold chain. intros Hc Hf. apply Forall_forall. intros [a b] Hab.
  rewrite Forall_forall in Hc. specialize (Hc _ Hab). simpl in Hc.
  destruct (Hf a b Hab) as [-> ->]. done.
Qed.

(* A ring h :: r, viewed through its last node L. *)
Lemma ring_last (pool : list lruCacheNode_t) h r :
  ring_ok pool (h :: r) →
  ∃ l L, h :: r = l ++ [L] ∧ NoDup (l ++ [L]) ∧ chain pool (l ++ [L]) ∧
         get_next pool (Some L) = Some (Some h) ∧ get_prev pool (Some h) = Some (Some L).
Proof.
  intros [Hnd Hc].
  destruct (exists_last (l := h :: r)) as [l [L HL]]; [done|].
  exists l, L. rewrite HL in Hc, Hnd |- *.
  replace ((l ++ [L]) ++ [h]) with (l ++ L :: [h]) in Hc by (rewrite <- app_assoc; done).
  apply chain_app in Hc as [Hc1 Hc2]. apply chain_pair in Hc2 as [H1 H2]. done.
Qed.

(* Lines 132-135 / 156-159 splice a node t that is not in the ring
   h :: r just before h, giving the ring t :: h :: r. *)
Lemma link_before_head_ok (pool : list lruCacheNode_t) h r t :
  ring_ok pool (h :: r) → t ∉ h :: r → is_Some (pool !! t) →
  ∃ pool', link_before_head pool t h = Some pool' ∧
    ring_ok pool' (t :: h :: r) ∧ length pool' = length pool ∧
    (∀ x, get_entry pool' x = get_entry pool x).
Proof.
  intros Hr Ht Hts.
  destruct (ring_last _ _ _ Hr) as (l & L & HL & Hnd & Hc & HnL & HpH).
  assert (HLin : L ∈ h :: r) by (rewrite HL; set_solver).
  assert (HtL : t ≠ L) by (intros ->; done).
  assert (Hth : t ≠ h) by (intros ->; set_solver).
  unfold link_before_head.
  destruct (set_next_spec pool t (Some h) Hts) as (p1 & -> & Hl1 & Hn1 & Hp1 & He1).
  rewrite obind_Some, Hp1, HpH, obind_Some.
  assert (Ht1 : is_Some (p1 !! t)) by (apply lookup_lt_is_Some; apply lookup_lt_is_Some in Hts; lia).
  destruct (set_prev_spec p1 t (Some L) Ht1) as (p2 & -> & Hl2 & Hp2 & Hn2 & He2).
  rewrite obind_Some, Hp2, decide_True, obind_Some by done.
  assert (HL2 : is_Some (p2 !! L)).
  { apply get_next_is_Some with (a := Some h). rewrite Hn2, Hn1, decide_False by congruence. done. }
  destruct (set_next_spec p2 L (Some t) HL2) as (p3 & -> & Hl3 & Hn3 & Hp3 & He3).
  rewrite obind_Some, Hn3, decide_False by done. rewrite Hn2, Hn1, decide_True, obind_Some by done.
  assert (Hh3 : is_Some (p3 !! h)).
  { apply get_prev_is_Some with (a := Some L). rewrite Hp3, Hp2, decide_False by congruence.
    rewrite Hp1. done. }
  destruct (set_prev_spec p3 h (Some t) Hh3) as (p4 & -> & Hl4 & Hp4 & Hn4 & He4).
  exists p4. split; [done|].
  split; [|split; [lia|intros x; rewrite He4, He3, He2, He1; done]].
  split; [constructor; [done|by destruct Hr]|].
  (* the new ring t :: h :: r ++ [t] *)
  change ((t :: h :: r) ++ [t]) with ([t] ++ h :: (r ++ [t])).
  rewrite chain_app. split.
  { change ([t] ++ [h]) with [t; h]. rewrite chain_pair. split.
    - rewrite Hn4, Hn3, decide_False by done. rewrite Hn2, Hn1, decide_True by done. done.
    - rewrite Hp4, decide_True by done. done. }
  replace (h :: r ++ [t]) with (l ++ L :: [t]) by (rewrite app_comm_cons, HL, <- app_assoc; done).
  rewrite chain_app. split.
  - apply (chain_frame pool); [done|]. intros a b Hab.
    assert (Ha : a ∈ l) by (eapply links_in_l; eauto).
    assert (Hb : b ∈ r).
    { eapply (links_in_r r h). rewrite HL. done. }
    assert (HaL : a ≠ L).
    { intros ->. apply NoDup_app in Hnd as (_ & Hd & _). apply (Hd L); set_solver. }
    assert (Hbh : b ≠ h).
    { intros ->. destruct Hr as [Hnd' _]. apply NoDup_cons in Hnd' as [Hn' _]. done. }
    assert (Hat : a ≠ t) by (intros ->; apply Ht; rewrite HL; set_solver).
    assert (Hbt : b ≠ t) by (intros ->; apply Ht; set_solver).
    split.
    + rewrite Hn4, Hn3, decide_False by done. rewrite Hn2, Hn1, decide_False by done. done.
    + rewrite Hp4, decide_False by done. rewrite Hp3, Hp2, decide_False by done. rewrite Hp1. done.
  - rewrite chain_pair. split.
    + rewrite Hn4, Hn3, decide_True by done. done.
    + rewrite Hp4, decide_False by done. rewrite Hp3, Hp2, decide_True by done. done.
Qed.

(* Lines 130-131 take a node t other than the head out of the ring. *)
Lemma unlink_ok (pool : list lruCacheNode_t) h A t B :
  ring_ok pool (h :: A ++ t :: B) →
  ∃ pool', unlink pool t = Some pool' ∧
    ring_ok pool' (h :: A ++ B) ∧ length pool' = length pool ∧
    (∀ x, get_entry pool' x = get_entry pool x).
Proof.
  intros [Hnd Hc].
  assert (Hnd' : NoDup (t :: (h :: A) ++ B)).
  { eapply NoDup_Permutation_proper; [|exact Hnd].
    simpl. rewrite (Permutation_middle (h :: A) B t). done. }
  apply NoDup_cons in Hnd' as [HtO Hnd2].
  apply NoDup_app in Hnd2 as (HndA & HdisA & HndB).
  destruct (exists_last (l := h :: A)) as [l [p HlA]]; [done|].
  assert (HsB : ∃ s B', B ++ [h] = s :: B').
  { destruct B as [|b B0]; [exists h, []|exists b, (B0 ++ [h])]; done. }
  destruct HsB as (s & B' & HsB).
  assert (Hsplit : (h :: A ++ t :: B) ++ [h] = l ++ p :: t :: s :: B').
  { rewrite <- HsB. change (h :: A ++ t :: B) with ((h :: A) ++ t :: B).
    rewrite HlA. rewrite <- !app_assoc. done. }
  rewrite Hsplit in Hc.
  rewrite chain_app in Hc. destruct Hc as [Hc1 Hc2].
  change (p :: t :: s :: B') with ([p] ++ t :: s :: B') in Hc2.
  rewrite chain_app in Hc2. destruct Hc2 as [Hpt Hc2].
  change (t :: s :: B') with ([t] ++ s :: B') in Hc2.
  rewrite chain_app in Hc2. destruct Hc2 as [Hts Hc3].
  change ([p] ++ [t]) with [p; t] in Hpt. change ([t] ++ [s]) with [t; s] in Hts.
  rewrite chain_pair in Hpt, Hts. destruct Hpt as [Hnp Hpt]. destruct Hts as [Hnt Hps].
  assert (Hp_in : p ∈ h :: A) by (rewrite HlA; set_solver).
  assert (Hs_in : s ∈ B ++ [h]) by (rewrite HsB; set_solver).
  assert (Hpt' : p ≠ t) by (intros ->; set_solver).
  assert (Hst : s ≠ t) by (intros ->; apply HtO; set_solver).
  unfold unlink. rewrite Hpt, obind_Some, Hnt, obind_Some.
  destruct (set_next_spec pool p (Some s) (get_next_is_Some _ _ _ Hnp))
    as (p1 & -> & Hl1 & Hn1 & Hp1 & He1).
  rewrite obind_Some, Hn1, decide_False, Hnt, obind_Some by done.
  rewrite Hp1, Hpt, obind_Some.
  assert (Hs1 : is_Some (p1 !! s)).
  { apply get_prev_is_Some with (a := Some t). rewrite Hp1. done. }
  destruct (set_prev_spec p1 s (Some p) Hs1) as (p2 & -> & Hl2 & Hp2 & Hn2 & He2).
  exists p2. split; [done|].
  split; [|split; [lia|intros x; rewrite He2, He1; done]].
  split.
  { change (h :: A ++ B) with ((h :: A) ++ B). apply NoDup_app. done. }
  assert (Hsplit' : (h :: A ++ B) ++ [h] = l ++ p :: s :: B').
  { rewrite <- HsB. change (h :: A ++ B) with ((h :: A) ++ B).
    rewrite HlA. rewrite <- !app_assoc. done. }
  rewrite Hsplit', chain_app. split.
  - apply (chain_frame pool); [done|]. intros a b Hab.
    assert (Ha : a ∈ l) by (eapply links_in_l; eauto).
    assert (Hb : b ∈ A) by (eapply (links_in_r A h); rewrite HlA; done).
    assert (Hap : a ≠ p).
    { intros ->. rewrite HlA in HndA. apply NoDup_app in HndA as (_ & Hd & _).
      apply (Hd p); set_solver. }
    assert (Hbs : b ≠ s).
    { intros ->. apply elem_of_app in Hs_in as [Hs_in|Hs_in].
      - apply (HdisA s); set_solver.
      - apply list_elem_of_singleton in Hs_in as ->. apply NoDup_cons in HndA as [HA _]. done. }
    split.
    + rewrite Hn2, Hn1, decide_False by done. done.
    + rewrite Hp2, decide_False by done. rewrite Hp1. done.
  - change (p :: s :: B') with ([p] ++ s :: B'). rewrite chain_app. split.
    + change ([p] ++ [s]) with [p; s]. rewrite chain_pair. split.
      * rewrite Hn2, Hn1, decide_True by done. done.
      * rewrite Hp2, decide_True by done. done.
    + apply (chain_frame pool); [done|]. intros a b Hab.
      assert (Ha : a ∈ B).
      { eapply (links_in_l B h). rewrite HsB. done. }
      assert (Hb : b ∈ B') by (eapply links_in_r; eauto).
      assert (Hap : a ≠ p) by (intros ->; apply (HdisA p); done).
      assert (Hbs : b ≠ s).
      { intros ->. assert (Hnd3 : NoDup (B ++ [h])).
        { apply NoDup_app. split; [done|]. split; [|apply NoDup_singleton].
          intros x Hx Hx'. apply list_elem_of_singleton in Hx' as ->.
          apply (HdisA h); set_solver. }
        rewrite HsB in Hnd3. apply NoDup_cons in Hnd3 as [Hn3 _]. done. }
      split.
      * rewrite Hn2, Hn1, decide_False by done. done.
      * rewrite Hp2, decide_False by done. rewrite Hp1. done.
Qed.

(* The ring read from its last node L = head->prev. *)
Lemma ring_rotate (pool : list lruCacheNode_t) l L :
  ring_ok pool (l ++ [L]) → ring_ok pool (L :: l).
Proof.
  intros [Hnd Hc]. split.
  { eapply NoDup_Permutation_proper; [|exact Hnd]. rewrite Permutation_app_comm. done. }
  destruct l as [|h l']; [done|].
  simpl in Hc. rewrite <- app_assoc in Hc. simpl in Hc.
  change (h :: l' ++ L :: [h]) with ((h :: l') ++ L :: [h]) in Hc.
  rewrite chain_app in Hc. destruct Hc as [Hc1 Hc2].
  change ((L :: h :: l') ++ [L]) with ([L] ++ h :: (l' ++ [L])).
  rewrite chain_app. split; [done|]. done.
Qed.

(* ----- Slot contents ----- *)

Lemma with_entry_spec (pool : list lruCacheNode_t) i nt r v :
  pool !! i = Some nt →
  let pool' := <[i := with_entry nt r v]> pool in
  length pool' = length pool ∧
  (∀ x, get_next pool' (Some x) = get_next pool (Some x)) ∧
  (∀ x, get_prev pool' (Some x) = get_prev pool (Some x)) ∧
  (∀ x, get_entry pool' x = if decide (x = i) then Some (r, v) else get_entry pool x).
Proof.
  intros Hi pool'. subst pool'.
  assert (Hl : i < length pool) by (apply lookup_lt_is_Some; eauto).
  split; [apply length_insert|].
  split; [|split]; intros x; unfold get_next, get_prev, get_entry; simpl;
    (destruct (decide (x = i)) as [->|Hne];
     [rewrite list_lookup_insert_eq, ?Hi by done; done
     |rewrite list_lookup_insert_ne by done; done]).
Qed.

Lemma req_at_entry (pool pool' : list lruCacheNode_t) x :
  get_entry pool' x = get_entry pool x → req_at pool' x = req_at pool x.
Proof.
  unfold get_entry, req_at.
  destruct (pool' !! x), (pool !! x); simpl; try discriminate; [|done].
  intros H. injection H as H1 H2. done.
Qed.

Lemma req_at_entry_Some (pool : list lruCacheNode_t) x r v :
  get_entry pool x = Some (r, v) → req_at pool x = r.
Proof.
  unfold get_entry, req_at. destruct (pool !! x); simpl; [|discriminate].
  intros H. injection H as H1 H2. done.
Qed.

(* lru_find_element returns the first slot of the scanned range whose
   request equals [req]. *)
Lemma find_from_spec (pool : list lruCacheNode_t) req i n :
  i + n ≤ length pool →
  (find_from pool req i n = Some None ∧
     ∀ j, i ≤ j < i + n → req_at pool j ≠ Some req) ∨
  (∃ t, find_from pool req i n = Some (Some t) ∧ i ≤ t < i + n ∧
     req_at pool t = Some req ∧ ∀ j, i ≤ j < t → req_at pool j ≠ Some req).
Proof.
  revert i. induction n as [|n IH]; intros i Hle; simpl.
  - left. split; [done|]. lia.
  - destruct (lookup_lt_is_Some_2 pool i) as [nd Hnd]; [lia|].
    rewrite Hnd, obind_Some.
    assert (Hreq : req_at pool i = request nd) by (unfold req_at; rewrite Hnd; done).
    assert (Hrest : (find_from pool req (S i) n = Some None ∧
              ∀ j, S i ≤ j < S i + n → req_at pool j ≠ Some req) ∨
            (∃ t, find_from pool req (S i) n = Some (Some t) ∧ S i ≤ t < S i + n ∧
              req_at pool t = Some req ∧ ∀ j, S i ≤ j < t → req_at pool j ≠ Some req))
      by (apply IH; lia).
    destruct (request nd) as [r|] eqn:Hr.
    + destruct (decide (req = r)) as [<-|Hne].
      * right. exists i. repeat split; [lia|lia|done|]. intros j Hj. lia.
      * destruct Hrest as [[-> Hall]|(t & -> & Ht & Hrt & Hbefore)].
        -- left. split; [done|]. intros j Hj.
           destruct (decide (j = i)) as [->|Hji]; [rewrite Hreq; congruence|].
           apply Hall. lia.
        -- right. exists t. repeat split; [lia|lia|done|]. intros j Hj.
           destruct (decide (j = i)) as [->|Hji]; [rewrite Hreq; congruence|].
           apply Hbefore. lia.
    + destruct Hrest as [[-> Hall]|(t & -> & Ht & Hrt & Hbefore)].
      * left. split; [done|]. intros j Hj.
        destruct (decide (j = i)) as [->|Hji]; [rewrite Hreq; congruence|].
        apply Hall. lia.
      * right. exists t. repeat split; [lia|lia|done|]. intros j Hj.
        destruct (decide (j = i)) as [->|Hji]; [rewrite Hreq; congruence|].
        apply Hbefore. lia.
Qed.

(* ----- The cache operations preserve the invariant ----- *)

Lemma cache_init_spec (cap : Z) :
  (cap <= 0)%Z → lru_cache_init cap = None.
Proof. intros H. unfold lru_cache_init. apply Z.leb_le in H. rewrite H. done. Qed.

Lemma cache_init_spec_pos (cap : Z) :
  (0 < cap)%Z →
  ∃ c, lru_cache_init cap = Some c ∧ cache_inv c [] ∧
    currentCapacity c = 0 ∧ totalCapacity c = Z.to_nat cap ∧ head c = 0 ∧
    get_next (cachePool c) (Some 0) = Some (Some 0) ∧
    (∀ x, x < totalCapacity c → get_entry (cachePool c) x = Some (None, None)).
Proof.
  intros Hcap. unfold lru_cache_init.
  assert (Hf : Z.leb cap 0 = false) by (apply Z.leb_gt; lia). rewrite Hf.
  set (n := Z.to_nat cap).
  assert (Hn : 0 < n) by (subst n; lia).
  assert (H0 : is_Some (replicate n calloc_node !! 0)).
  { apply lookup_lt_is_Some. rewrite length_replicate. done. }
  destruct (set_next_spec _ 0 (Some 0) H0) as (p1 & -> & Hl1 & Hn1 & Hp1 & He1).
  rewrite obind_Some.
  assert (H1 : is_Some (p1 !! 0)) by (apply lookup_lt_is_Some; rewrite Hl1, length_replicate; done).
  destruct (set_prev_spec _ 0 (Some 0) H1) as (p2 & -> & Hl2 & Hp2 & Hn2 & He2).
  rewrite obind_Some. eexists. split; [done|].
  cbn [cachePool head currentCapacity totalCapacity].
  split; [|split; [done|split; [done|split; [done|split]]]].
  - unfold cache_inv. cbn [cachePool head currentCapacity totalCapacity].
    split; [rewrite Hl2, Hl1, length_replicate; done|].
    split; [lia|]. split; [done|]. split; [done|].
    split; [done|]. rewrite Hp2. done.
  - rewrite Hn2, Hn1. done.
  - intros x Hx. rewrite He2, He1. unfold get_entry.
    rewrite lookup_replicate_2 by done. done.
Qed.

Lemma ring_ok_frame (pool pool' : list lruCacheNode_t) o :
  (∀ x, get_next pool' (Some x) = get_next pool (Some x)) →
  (∀ x, get_prev pool' (Some x) = get_prev pool (Some x)) →
  ring_ok pool o → ring_ok pool' o.
Proof.
  intros Hn Hp [Hnd Hc]. split; [done|]. destruct o as [|h r]; [done|].
  apply (chain_frame pool); [done|]. intros a b _. done.
Qed.

Lemma perm_seq_notin (o : list nat) n : o ≡ₚ seq 0 n → n ∉ o.
Proof. intros Hp Hin. rewrite Hp in Hin. apply elem_of_seq in Hin. lia. Qed.

(* put, cache not full: slot pool[used] becomes the new head. *)
Lemma put_nonfull_spec (c : lruCache_t) o k v :
  cache_inv c o → currentCapacity c < totalCapacity c →
  ∃ c', lru_cache_update_node c k v = Some c' ∧
    cache_inv c' (currentCapacity c :: o) ∧
    currentCapacity c' = S (currentCapacity c) ∧ totalCapacity c' = totalCapacity c ∧
    head c' = currentCapacity c ∧
    (∀ x, get_entry (cachePool c') x =
          if decide (x = currentCapacity c) then Some (Some k, Some v)
          else get_entry (cachePool c) x).
Proof.
  intros (Hlen & Hle & Hpos & Hperm & Hhd) Hlt.
  unfold lru_cache_update_node. rewrite decide_True by done.
  set (u := currentCapacity c) in *.
  destruct (lookup_lt_is_Some_2 (cachePool c) u) as [nt Hnt]; [lia|].
  rewrite Hnt, obind_Some.
  destruct (with_entry_spec _ _ _ (Some k) (Some v) Hnt) as (Hl0 & Hn0 & Hp0 & He0).
  set (pool0 := <[u := with_entry nt (Some k) (Some v)]> (cachePool c)) in *.
  destruct o as [|h r].
  - (* empty cache: the self-linked slot 0 *)
    destruct Hhd as [Hh0 Hp00].
    assert (Hu : u = 0) by (apply Permutation_nil_l in Hperm; destruct u; [done|discriminate]).
    rewrite Hh0. clearbody pool0 u. subst u.
    unfold link_before_head.
    assert (Hs0 : is_Some (pool0 !! 0)) by (apply lookup_lt_is_Some; lia).
    destruct (set_next_spec _ 0 (Some 0) Hs0) as (p1 & -> & Hl1 & Hn1 & Hp1 & He1).
    rewrite obind_Some, Hp1, Hp0, Hp00, obind_Some.
    assert (Hs1 : is_Some (p1 !! 0)) by (apply lookup_lt_is_Some; lia).
    destruct (set_prev_spec _ 0 (Some 0) Hs1) as (p2 & -> & Hl2 & Hp2 & Hn2 & He2).
    rewrite obind_Some, Hp2, decide_True, obind_Some by done.
    assert (Hs2 : is_Some (p2 !! 0)) by (apply lookup_lt_is_Some; lia).
    destruct (set_next_spec _ 0 (Some 0) Hs2) as (p3 & -> & Hl3 & Hn3 & Hp3 & He3).
    rewrite obind_Some, Hn3, decide_True, obind_Some by done.
    assert (Hs3 : is_Some (p3 !! 0)) by (apply lookup_lt_is_Some; lia).
    destruct (set_prev_spec _ 0 (Some 0) Hs3) as (p4 & -> & Hl4 & Hp4 & Hn4 & He4).
    eexists. split; [done|]. cbn [cachePool head currentCapacity totalCapacity].
    split; [|split; [done|split; [done|split; [done|]]]].
    + unfold cache_inv. cbn [cachePool head currentCapacity totalCapacity].
      split; [lia|]. split; [lia|]. split; [done|]. split; [done|].
      split; [done|]. split; [apply NoDup_singleton|].
      change ([0] ++ [0]) with [0; 0]. rewrite chain_pair.
      rewrite Hn4, Hn3, Hp4. done.
    + intros x. rewrite He4, He3, He2, He1, He0. done.
  - destruct Hhd as [Hh Hring].
    assert (Hring0 : ring_ok pool0 (h :: r)) by (eapply ring_ok_frame; [| |exact Hring]; done).
    assert (Hu : u ∉ h :: r) by (apply perm_seq_notin; done).
    assert (Hs : is_Some (pool0 !! u)) by (apply lookup_lt_is_Some; lia).
    destruct (link_before_head_ok pool0 h r u Hring0 Hu Hs) as (p1 & Hlink & Hr1 & Hl1 & He1).
    rewrite Hh, Hlink, obind_Some.
    eexists. split; [done|]. cbn [cachePool head currentCapacity totalCapacity].
    split; [|split; [done|split; [done|split; [done|]]]].
    + unfold cache_inv. cbn [cachePool head currentCapacity totalCapacity].
      split; [lia|]. split; [lia|]. split; [done|]. split.
      * rewrite seq_S, <- Permutation_cons_append. constructor. done.
      * done.
    + intros x. rewrite He1, He0. done.
Qed.

(* put, cache full: the LRU node head->prev is overwritten in place and
   becomes the head; no link changes. *)
Lemma put_full_spec (c : lruCache_t) o k v :
  cache_inv c o → currentCapacity c = totalCapacity c →
  ∃ c' l L, o = l ++ [L] ∧ lru_cache_update_node c k v = Some c' ∧
    cache_inv c' (L :: l) ∧
    get_prev (cachePool c) (Some (head c)) = Some (Some L) ∧ head c' = L ∧
    currentCapacity c' = currentCapacity c ∧ totalCapacity c' = totalCapacity c ∧
    (∀ x, get_next (cachePool c') (Some x) = get_next (cachePool c) (Some x) ∧
          get_prev (cachePool c') (Some x) = get_prev (cachePool c) (Some x)) ∧
    (∀ x, get_entry (cachePool c') x =
          if decide (x = L) then Some (Some k, Some v) else get_entry (cachePool c) x).
Proof.
  intros (Hlen & Hle & Hpos & Hperm & Hhd) Heq.
  destruct o as [|h r].
  { apply Permutation_nil_l in Hperm. destruct (currentCapacity c); [lia|discriminate]. }
  destruct Hhd as [Hh Hring].
  destruct (ring_last _ _ _ Hring) as (l & L & HL & Hnd & Hc & HnL & HpH).
  unfold lru_cache_update_node. rewrite decide_False by lia.
  rewrite Hh, HpH, !obind_Some.
  destruct (get_next_is_Some _ _ _ HnL) as [nt Hnt]. rewrite Hnt, obind_Some.
  destruct (with_entry_spec _ _ _ (Some k) (Some v) Hnt) as (Hl0 & Hn0 & Hp0 & He0).
  eexists _, l, L. split; [done|]. split; [done|].
  split; [|split; [done|split; [done|split; [done|split; [done|split]]]]].
  - unfold cache_inv. cbn [cachePool head currentCapacity totalCapacity].
    split; [lia|]. split; [lia|]. split; [done|]. split.
    + rewrite <- Hperm, HL. rewrite Permutation_app_comm. done.
    + split; [done|]. apply ring_rotate. rewrite <- HL.
      eapply ring_ok_frame; [| |exact Hring]; done.
  - intros x. cbn [cachePool]. rewrite Hn0, Hp0. done.
  - intros x. cbn [cachePool]. rewrite He0. done.
Qed.

(* get, miss: nothing changes. *)
Lemma get_miss_spec (c : lruCache_t) k :
  lru_find_element (cachePool c) k (currentCapacity c) = Some None →
  lru_cache_get_element c k = Some (c, None).
Proof. intros H. unfold lru_cache_get_element. rewrite H. done. Qed.

(* get, hit on slot t: t moves to the front of the recency order. *)
Lemma get_hit_spec (c : lruCache_t) o k t :
  cache_inv c o →
  lru_find_element (cachePool c) k (currentCapacity c) = Some (Some t) →
  ∃ c' A B d, o = A ++ t :: B ∧ get_entry (cachePool c) t = Some (Some k, d) ∧
    lru_cache_get_element c k = Some (c', d) ∧
    cache_inv c' (t :: A ++ B) ∧ head c' = t ∧
    (t = head c → c' = c) ∧
    currentCapacity c' = currentCapacity c ∧ totalCapacity c' = totalCapacity c ∧
    (∀ x, get_entry (cachePool c') x = get_entry (cachePool c) x).
Proof.
  intros Hinv Hfind.
  pose proof Hinv as (Hlen & Hle & Hpos & Hperm & Hhd).
  destruct (find_from_spec (cachePool c) k 0 (currentCapacity c)) as [[H _]|(t' & H & Ht & Hrq & _)];
    [lia| unfold lru_find_element in Hfind; congruence|].
  unfold lru_find_element in Hfind. rewrite Hfind in H. injection H as <-.
  assert (Hto : t ∈ o) by (rewrite Hperm; apply elem_of_seq; lia).
  destruct (lookup_lt_is_Some_2 (cachePool c) t) as [nt Hnt]; [lia|].
  assert (Hent : get_entry (cachePool c) t = Some (Some k, md5 nt)).
  { unfold get_entry. rewrite Hnt. simpl. unfold req_at in Hrq. rewrite Hnt in Hrq.
    simpl in Hrq. rewrite Hrq. done. }
  destruct o as [|h r]; [set_solver|].
  destruct Hhd as [Hh Hring].
  unfold lru_cache_get_element. unfold lru_find_element. rewrite Hfind, obind_Some.
  destruct (decide (t = head c)) as [Hth|Hth].
  - rewrite Hnt, obind_Some. exists c, [], r, (md5 nt).
    rewrite Hth, Hh. split; [done|]. split; [rewrite <- Hh, <- Hth; done|].
    split; [done|]. split; [split; [done|split; [done|split; [done|split; [done|]]]]; by rewrite Hh|].
    split; [done|]. split; [done|]. done.
  - assert (Htr : t ∈ r) by (rewrite Hh in Hth; set_solver).
    apply list_elem_of_split in Htr as (A' & B & ->).
    destruct (unlink_ok _ _ _ _ _ Hring) as (p1 & Hun & Hr1 & Hl1 & He1).
    rewrite Hun, obind_Some.
    assert (Htn : t ∉ h :: A' ++ B).
    { destruct Hring as [Hnd _].
      assert (Hnd' : NoDup (t :: (h :: A') ++ B)).
      { eapply NoDup_Permutation_proper; [|exact Hnd].
        simpl. rewrite (Permutation_middle (h :: A') B t). done. }
      apply NoDup_cons in Hnd' as [Hn' _]. done. }
    assert (Hts : is_Some (p1 !! t)) by (apply lookup_lt_is_Some; lia).
    destruct (link_before_head_ok _ _ _ _ Hr1 Htn Hts) as (p2 & Hlk & Hr2 & Hl2 & He2).
    rewrite Hh, Hlk, obind_Some.
    destruct (lookup_lt_is_Some_2 p2 t) as [nt2 Hnt2]; [lia|]. rewrite Hnt2, obind_Some.
    assert (Hmd : md5 nt2 = md5 nt).
    { pose proof (He2 t) as E2. rewrite He1 in E2. unfold get_entry in E2.
      rewrite Hnt2, Hnt in E2. simpl in E2. injection E2 as _ ->. done. }
    exists (mk_cache t p2 (currentCapacity c) (totalCapacity c)), (h :: A'), B, (md5 nt).
    rewrite Hmd. split; [done|]. split; [done|]. split; [done|].
    split; [|split; [done|split; [intros E; congruence|split; [done|split; [done|]]]]].
    + unfold cache_inv. cbn [cachePool head currentCapacity totalCapacity].
      split; [lia|]. split; [lia|]. split; [done|]. split; [|split; done].
      rewrite <- Hperm. simpl. rewrite <- (Permutation_middle (h :: A') B t). done.
    + intros x. cbn [cachePool]. rewrite He2, He1. done.
Qed.

Lemma find_total (c : lruCache_t) o k :
  cache_inv c o → ∃ r, lru_find_element (cachePool c) k (currentCapacity c) = Some r.
Proof.
  intros (Hlen & Hle & _).
  destruct (find_from_spec (cachePool c) k 0 (currentCapacity c)) as [[H _]|(t & H & _)];
    [lia|eauto|eauto].
Qed.

(* Every operation succeeds on a cache satisfying the invariant, and
   keeps it. *)
Lemma cache_step_inv (c : lruCache_t) o op :
  cache_inv c o →
  ∃ c' o', cache_step c op = Some c' ∧ cache_inv c' o' ∧
    totalCapacity c' = totalCapacity c.
Proof.
  intros Hinv. destruct op as [k v|k]; simpl.
  - pose proof Hinv as (_ & Hle & _).
    destruct (decide (currentCapacity c < totalCapacity c)) as [Hlt|Hge].
    + destruct (put_nonfull_spec c o k v Hinv Hlt) as (c' & H & Hi & _ & Ht & _).
      eauto.
    + destruct (put_full_spec c o k v Hinv ltac:(lia)) as (c' & l & L & _ & H & Hi & _ & _ & _ & Ht & _).
      eauto.
  - destruct (find_total c o k Hinv) as [[t|] Hf].
    + destruct (get_hit_spec c o k t Hinv Hf) as (c' & A & B & d & _ & _ & H & Hi & _ & _ & _ & Ht & _).
      rewrite H. eexists _, _. split; [done|]. eauto.
    + rewrite (get_miss_spec c k Hf). eexists _, _. split; [done|]. eauto.
Qed.

Lemma cache_run_inv (c : lruCache_t) o ops :
  cache_inv c o →
  ∃ c' o', cache_run c ops = Some c' ∧ cache_inv c' o' ∧ totalCapacity c' = totalCapacity c.
Proof.
  revert c o. induction ops as [|op ops IH]; intros c o Hinv; simpl; [eauto|].
  destruct (cache_step_inv c o op Hinv) as (c1 & o1 & -> & Hi1 & Ht1).
  rewrite obind_Some. destruct (IH c1 o1 Hi1) as (c2 & o2 & -> & Hi2 & Ht2).
  exists c2, o2. split; [done|]. split; [done|]. lia.
Qed.

(* Puts into free slots fill them in order. *)
Lemma run_puts (c : lruCache_t) o kvs :
  cache_inv c o → currentCapacity c + length kvs ≤ totalCapacity c →
  ∃ c', cache_run c (map put_op kvs) = Some c' ∧
    cache_inv c' (rev (seq (currentCapacity c) (length kvs)) ++ o) ∧
    currentCapacity c' = currentCapacity c + length kvs ∧
    totalCapacity c' = totalCapacity c ∧
    (∀ i k v, kvs !! i = Some (k, v) →
       get_entry (cachePool c') (currentCapacity c + i) = Some (Some k, Some v)) ∧
    (∀ x, x < currentCapacity c ∨ currentCapacity c + length kvs ≤ x →
       get_entry (cachePool c') x = get_entry (cachePool c) x).
Proof.
  revert c o. induction kvs as [|[k v] kvs IH]; intros c o Hinv Hroom.
  - exists c. simpl. rewrite Nat.add_0_r. split; [done|]. split; [done|].
    split; [done|]. split; [done|]. split; [intros i k v Hi; done|]. done.
  - simpl in Hroom |- *.
    destruct (put_nonfull_spec c o k v Hinv ltac:(lia)) as (c1 & Hput & Hi1 & Hu1 & Ht1 & _ & He1).
    unfold put_op at 1. simpl. rewrite Hput, obind_Some.
    destruct (IH c1 _ Hi1 ltac:(lia)) as (c2 & Hrun & Hi2 & Hu2 & Ht2 & Hnew & Hold).
    exists c2. split; [done|].
    split.
    { rewrite Hu1 in Hi2. simpl. rewrite <- app_assoc. done. }
    split; [lia|]. split; [lia|]. split.
    + intros [|i] k' v' Hi; simpl in Hi.
      * injection Hi as <- <-. rewrite Nat.add_0_r, Hold by lia. rewrite He1, decide_True; done.
      * rewrite Hu1 in Hnew. replace (currentCapacity c + S i) with (S (currentCapacity c) + i) by lia.
        apply Hnew. done.
    + intros x Hx. rewrite Hold by lia. rewrite He1, decide_False by lia. done.
Qed.

(* get(k) when exactly one live slot t holds k. *)
Lemma get_result_unique (c : lruCache_t) o k t d :
  cache_inv c o → t < currentCapacity c →
  get_entry (cachePool c) t = Some (Some k, d) →
  (∀ y, y < currentCapacity c → req_at (cachePool c) y = Some k → y = t) →
  get_result c k = Some d.
Proof.
  intros Hinv Ht He Huniq. pose proof Hinv as (Hlen & Hle & _).
  destruct (find_from_spec (cachePool c) k 0 (currentCapacity c)) as [[H Hall]|(t' & H & Ht' & Hrq & _)];
    [lia| |].
  - exfalso. apply (Hall t); [lia|]. apply req_at_entry_Some in He. done.
  - assert (t' = t) as -> by (apply Huniq; [lia|done]).
    destruct (get_hit_spec c o k t Hinv H) as (c' & A & B & d' & _ & He' & Hget & _).
    unfold get_result. rewrite Hget. rewrite He in He'. injection He' as ->. done.
Qed.

(* get(k) when no live slot holds k. *)
Lemma get_result_absent (c : lruCache_t) o k :
  cache_inv c o →
  (∀ y, y < currentCapacity c → req_at (cachePool c) y ≠ Some k) →
  get_result c k = Some None.
Proof.
  intros Hinv Hno. pose proof Hinv as (Hlen & Hle & _).
  destruct (find_from_spec (cachePool c) k 0 (currentCapacity c)) as [[H _]|(t & H & Ht & Hrq & _)];
    [lia| |].
  - unfold get_result. rewrite (get_miss_spec c k H). done.
  - exfalso. apply (Hno t); [lia|done].
Qed.

(* ----- Recency of one key under the server's use of the cache ----- *)

Lemma cache_run_app (c : lruCache_t) l1 l2 :
  cache_run c (l1 ++ l2) = c' ← cache_run c l1; cache_run c' l2.
Proof.
  revert c. induction l1 as [|op l1 IH]; intros c; simpl; [done|].
  destruct (cache_step c op); simpl; [apply IH|done].
Qed.

Lemma fresh_run_app (c c' : lruCache_t) l1 l2 :
  fresh_run c (l1 ++ l2) = true → cache_run c l1 = Some c' →
  fresh_run c l1 = true ∧ fresh_run c' l2 = true.
Proof.
  revert c. induction l1 as [|op l1 IH]; intros c Hf Hr; simpl in *.
  - injection Hr as <-. done.
  - apply andb_prop in Hf as [Hop Hf]. rewrite Hop. simpl.
    destruct (cache_step c op); [|discriminate]. simpl in Hr. apply IH; done.
Qed.

Lemma before_cons_ne t s X : s ≠ t → before t (s :: X) = s :: before t X.
Proof. intros H. simpl. rewrite decide_False by done. done. Qed.

Lemma before_app_in t l X : t ∈ l → before t (l ++ X) = before t l.
Proof.
  induction l as [|x l IH]; intros Ht; [set_solver|]. simpl.
  destruct (decide (x = t)); [done|]. rewrite IH by set_solver. done.
Qed.

Lemma before_last t l : t ∉ l → before t (l ++ [t]) = l.
Proof.
  induction l as [|x l IH]; intros Ht; simpl; [rewrite decide_True; done|].
  rewrite decide_False by set_solver. rewrite IH by set_solver. done.
Qed.

Lemma before_sub t o a : a ∈ before t o → a ∈ o.
Proof.
  induction o as [|x o IH]; simpl; [set_solver|].
  destruct (decide (x = t)); set_solver.
Qed.

Lemma before_remove t s A B a :
  s ≠ t → a ∈ before t (A ++ B) → a ∈ before t (A ++ s :: B).
Proof.
  intros Hs. induction A as [|x A IH]; simpl.
  - rewrite decide_False by done. set_solver.
  - destruct (decide (x = t)); [set_solver|]. set_solver.
Qed.

Lemma tracks_mono k c o seen seen' :
  (∀ y, y ∈ seen → y ∈ seen') → tracks k c o seen → tracks k c o seen'.
Proof.
  intros Hs [(t & Ht & Hk & Hb)|Habs]; [left|right; done].
  exists t. split; [done|]. split; [done|]. intros a Ha.
  destruct (Hb a Ha) as (y & Hy & Hyk & Hys). eauto.
Qed.

Lemma inv_lt (c : lruCache_t) o x : cache_inv c o → x ∈ o → x < currentCapacity c.
Proof. intros (_ & _ & _ & Hp & _) Hx. rewrite Hp in Hx. apply elem_of_seq in Hx. lia. Qed.

(* get(k) on a well-formed cache answers NULL exactly when no live slot
   holds k. *)
Lemma wf_absent (c : lruCache_t) o k :
  cache_wf c o → get_result c k = Some None →
  ∀ x, x < currentCapacity c → req_at (cachePool c) x ≠ Some k.
Proof.
  intros (Hinv & Hfull & Huniq) Hg x Hx Hk.
  destruct (Hfull x Hx) as (r & v & He).
  pose proof (req_at_entry_Some _ _ _ _ He) as Hr. rewrite Hk in Hr. injection Hr as <-.
  rewrite (get_result_unique c o k x (Some v) Hinv Hx He) in Hg.
  - discriminate.
  - intros y Hy Hky. eapply Huniq; eauto.
Qed.

Lemma wf_present (c : lruCache_t) o k :
  cache_wf c o → get_result c k ≠ Some None →
  ∃ t, t < currentCapacity c ∧ req_at (cachePool c) t = Some k.
Proof.
  intros ((Hlen & Hle & _) & _ & _) Hg.
  destruct (find_from_spec (cachePool c) k 0 (currentCapacity c)) as [[H _]|(t & _ & Ht & Hrq & _)];
    [lia| |exists t; split; [lia|done]].
  exfalso. apply Hg. unfold get_result. rewrite (get_miss_spec c k H). done.
Qed.

Lemma wf_transfer (c c' : lruCache_t) o o' :
  cache_wf c o → cache_inv c' o' → currentCapacity c' = currentCapacity c →
  (∀ x, get_entry (cachePool c') x = get_entry (cachePool c) x) →
  cache_wf c' o'.
Proof.
  intros (_ & Hfull & Huniq) Hinv' Hu He. split; [done|]. rewrite Hu. split.
  - intros x Hx. rewrite He. auto.
  - intros x y z Hx Hy Hrx Hry.
    rewrite (req_at_entry (cachePool c) (cachePool c')) in Hrx, Hry by done.
    eapply Huniq; eauto.
Qed.


(* A put of a key absent from a well-formed cache keeps it well formed. *)
Lemma put_fresh_wf (c c' : lruCache_t) o y v :
  cache_wf c o → get_result c y = Some None → lru_cache_update_node c y v = Some c' →
  (currentCapacity c < totalCapacity c ∧ cache_wf c' (currentCapacity c :: o) ∧
     currentCapacity c' = S (currentCapacity c) ∧
     ∀ x, get_entry (cachePool c') x =
          if decide (x = currentCapacity c) then Some (Some y, Some v)
          else get_entry (cachePool c) x) ∨
  (∃ l L, o = l ++ [L] ∧ currentCapacity c = totalCapacity c ∧ cache_wf c' (L :: l) ∧
     currentCapacity c' = currentCapacity c ∧
     ∀ x, get_entry (cachePool c') x =
          if decide (x = L) then Some (Some y, Some v) else get_entry (cachePool c) x).
Proof.
  intros Hwf Hg Hput.
  pose proof (wf_absent c o y Hwf Hg) as Hno.
  destruct Hwf as (Hinv & Hfull & Huniq).
  assert (Hreq : ∀ (pool : list lruCacheNode_t) S x,
            get_entry pool x = (if decide (x = S) then Some (Some y, Some v)
                                else get_entry (cachePool c) x) →
            req_at pool x = if decide (x = S) then Some y else req_at (cachePool c) x).
  { intros pool S x He. destruct (decide (x = S)).
    - apply req_at_entry_Some in He. done.
    - apply req_at_entry. done. }
  pose proof Hinv as (_ & Hle & _).
  destruct (decide (currentCapacity c < totalCapacity c)) as [Hlt|Hge].
  - destruct (put_nonfull_spec c o y v Hinv Hlt) as (c1 & H & Hi & Hu & _ & _ & He).
    rewrite Hput in H. injection H as <-. left.
    split; [done|]. split; [|done]. split; [done|]. rewrite Hu. split.
    + intros x Hx. rewrite He. destruct (decide _); [eauto|]. apply Hfull. lia.
    + intros x1 x2 z H1 H2 Hr1 Hr2.
      rewrite (Hreq _ _ x1 (He x1)) in Hr1. rewrite (Hreq _ _ x2 (He x2)) in Hr2.
      destruct (decide (x1 = _)), (decide (x2 = _)); subst; try done.
      * injection Hr1 as <-. exfalso. apply (Hno x2); [lia|done].
      * injection Hr2 as <-. exfalso. apply (Hno x1); [lia|done].
      * eapply Huniq; eauto; lia.
  - destruct (put_full_spec c o y v Hinv ltac:(lia))
      as (c1 & l & L & Ho & H & Hi & _ & _ & Hu & _ & _ & He).
    rewrite Hput in H. injection H as <-. right. exists l, L.
    assert (HL : L < currentCapacity c) by (apply (inv_lt c o); [done|rewrite Ho; set_solver]).
    split; [done|]. split; [lia|]. split; [|done]. split; [done|]. rewrite Hu. split.
    + intros x Hx. rewrite He. destruct (decide _); eauto.
    + intros x1 x2 z H1 H2 Hr1 Hr2.
      rewrite (Hreq _ _ x1 (He x1)) in Hr1. rewrite (Hreq _ _ x2 (He x2)) in Hr2.
      destruct (decide (x1 = L)), (decide (x2 = L)); subst; try done.
      * injection Hr1 as <-. exfalso. apply (Hno x2); [lia|done].
      * injection Hr2 as <-. exfalso. apply (Hno x1); [lia|done].
      * eapply Huniq; eauto.
Qed.

(* A get on a well-formed cache: a miss changes nothing, a hit moves the
   slot holding the key to the front. *)
Lemma get_wf (c c' : lruCache_t) o y :
  cache_wf c o → cache_step c (Get y) = Some c' →
  (c' = c) ∨
  (∃ s A B, o = A ++ s :: B ∧ req_at (cachePool c) s = Some y ∧
     cache_wf c' (s :: A ++ B) ∧ currentCapacity c' = currentCapacity c ∧
     ∀ x, get_entry (cachePool c') x = get_entry (cachePool c) x).
Proof.
  intros Hwf Hst. pose proof Hwf as (Hinv & _). simpl in Hst.
  destruct (find_total c o y Hinv) as [[s|] Hf].
  - destruct (get_hit_spec c o y s Hinv Hf) as (c1 & A & B & d & Ho & He & Hget & Hi & _ & _ & Hu & _ & Hent).
    rewrite Hget in Hst. injection Hst as <-. right. exists s, A, B.
    split; [done|]. split; [apply req_at_entry_Some in He; done|].
    split; [|done]. eapply wf_transfer; eauto.
  - rewrite (get_miss_spec c y Hf) in Hst. injection Hst as <-. left. done.
Qed.

(* Distinct slots holding distinct keys give as many distinct keys. *)
Lemma keys_of (f : nat → option string) (P : string → Prop) l :
  NoDup l → (∀ a, a ∈ l → ∃ y, f a = Some y ∧ P y) →
  (∀ a b z, a ∈ l → b ∈ l → f a = Some z → f b = Some z → a = b) →
  ∃ ys, NoDup ys ∧ length ys = length l ∧ ∀ y, y ∈ ys → P y ∧ ∃ a, a ∈ l ∧ f a = Some y.
Proof.
  induction l as [|a l IH]; intros Hnd Hall Hinj.
  - exists []. split; [constructor|]. split; [done|]. set_solver.
  - apply NoDup_cons in Hnd as [Ha Hnd].
    destruct IH as (ys & Hys & Hlen & Hin); [done|set_solver|intros; eapply Hinj; set_solver|].
    destruct (Hall a) as (ya & Hfa & Hpa); [set_solver|].
    exists (ya :: ys). split; [|split; [simpl; lia|]].
    + constructor; [|done]. intros Hya. destruct (Hin ya Hya) as (_ & b & Hb & Hfb).
      assert (a = b) as <- by (eapply Hinj; [set_solver|set_solver|exact Hfa|exact Hfb]). done.
    + intros y Hy. apply elem_of_cons in Hy as [->|Hy]; [split; [done|exists a; set_solver]|].
      destruct (Hin y Hy) as (Hp & b & Hb & Hfb). split; [done|]. exists b. set_solver.
Qed.


Lemma req_at_update (pool pool' : list lruCacheNode_t) S y v x :
  get_entry pool' x = (if decide (x = S) then Some (Some y, Some v) else get_entry pool x) →
  req_at pool' x = if decide (x = S) then Some y else req_at pool x.
Proof.
  intros He. destruct (decide (x = S)).
  - apply req_at_entry_Some in He. done.
  - apply req_at_entry. done.
Qed.

Lemma inv_nodup (c : lruCache_t) o : cache_inv c o → NoDup o.
Proof. intros (_ & _ & _ & Hp & _). rewrite Hp. apply NoDup_seq. Qed.

(* A fresh put of another key: k keeps its node and one more node (the
   new head) may come ahead of it, or k's node is the one overwritten. *)
Lemma track_put (c c' : lruCache_t) o seen k y v :
  cache_wf c o → tracks k c o seen → get_result c y = Some None → y ≠ k →
  lru_cache_update_node c y v = Some c' →
  ∃ o', cache_wf c' o' ∧ tracks k c' o' (seen ++ [y]).
Proof.
  intros Hwf Htr Hg Hyk Hput.
  pose proof Hwf as (Hinv & _ & Huniq).
  pose proof (inv_nodup c o Hinv) as Hnd.
  destruct (put_fresh_wf c c' o y v Hwf Hg Hput)
    as [(Hlt & Hwf' & Hu & He)|(l & L & Ho & Hfull & Hwf' & Hu & He)].
  - set (u := currentCapacity c) in *.
    exists (u :: o). split; [done|].
    destruct Htr as [(t & Ht & Hk & Hb)|Habs].
    + left. pose proof (inv_lt c o t Hinv Ht) as Htu.
      exists t. split; [set_solver|].
      rewrite (req_at_update _ _ _ _ _ _ (He t)), decide_False by lia. split; [done|].
      intros a Ha. rewrite before_cons_ne in Ha by lia.
      rewrite (req_at_update _ _ _ _ _ _ (He a)).
      apply elem_of_cons in Ha as [->|Ha].
      * rewrite decide_True by done. exists y. set_solver.
      * pose proof (inv_lt c o a Hinv (before_sub _ _ _ Ha)).
        rewrite decide_False by lia. destruct (Hb a Ha) as (z & ? & ? & ?).
        exists z. set_solver.
    + right. intros x Hx. rewrite (req_at_update _ _ _ _ _ _ (He x)).
      destruct (decide (x = u)); [congruence|]. apply Habs. lia.
  - exists (L :: l). split; [done|].
    assert (HLl : L ∉ l) by (rewrite Ho in Hnd; apply NoDup_app in Hnd; set_solver).
    assert (HLu : L < currentCapacity c) by (apply (inv_lt c o); [done|rewrite Ho; set_solver]).
    destruct Htr as [(t & Ht & Hk & Hb)|Habs].
    + pose proof (inv_lt c o t Hinv Ht) as Htu.
      destruct (decide (t = L)) as [->|HtL].
      * right. intros x Hx. rewrite (req_at_update _ _ _ _ _ _ (He x)).
        destruct (decide (x = L)); [congruence|]. intros Hxk.
        apply n. eapply Huniq; [lia|exact HLu|exact Hxk|exact Hk].
      * left. exists t.
        assert (Htl : t ∈ l) by (rewrite Ho in Ht; set_solver).
        split; [set_solver|].
        rewrite (req_at_update _ _ _ _ _ _ (He t)), decide_False by done. split; [done|].
        intros a Ha. rewrite before_cons_ne in Ha by done.
        rewrite (req_at_update _ _ _ _ _ _ (He a)).
        apply elem_of_cons in Ha as [->|Ha].
        -- rewrite decide_True by done. exists y. set_solver.
        -- assert (HaL : a ≠ L) by (intros ->; apply HLl; eapply before_sub; exact Ha).
           rewrite decide_False by done.
           rewrite <- (before_app_in t l [L]) in Ha by done. rewrite <- Ho in Ha.
           destruct (Hb a Ha) as (z & ? & ? & ?). exists z. set_solver.
    + right. intros x Hx. rewrite (req_at_update _ _ _ _ _ _ (He x)).
      destruct (decide (x = L)); [congruence|]. apply Habs. lia.
Qed.

(* A get: a hit on k brings k's node to the front; a hit on another key
   brings that key's node ahead of k. *)
Lemma track_get (c c' : lruCache_t) o seen k y :
  cache_wf c o → tracks k c o seen → cache_step c (Get y) = Some c' →
  ∃ o', cache_wf c' o' ∧ tracks k c' o' (seen ++ [y]).
Proof.
  intros Hwf Htr Hst.
  pose proof Hwf as (Hinv & _ & Huniq).
  destruct (get_wf c c' o y Hwf Hst) as [->|(s & A & B & Ho & Hs & Hwf' & Hu & He)].
  { exists o. split; [done|]. eapply tracks_mono; [|exact Htr]. set_solver. }
  exists (s :: A ++ B). split; [done|].
  assert (Hreq : ∀ x, req_at (cachePool c') x = req_at (cachePool c) x)
    by (intros x; apply req_at_entry; done).
  assert (Hsu : s < currentCapacity c) by (apply (inv_lt c o); [done|rewrite Ho; set_solver]).
  destruct Htr as [(t & Ht & Hk & Hb)|Habs].
  - left. exists t. rewrite Hreq. split; [|split; [done|]].
    + rewrite Ho in Ht. set_solver.
    + pose proof (inv_lt c o t Hinv Ht) as Htu.
      destruct (decide (s = t)) as [->|Hst'].
      * simpl. rewrite decide_True by done. set_solver.
      * intros a Ha. rewrite Hreq. rewrite before_cons_ne in Ha by done.
        apply elem_of_cons in Ha as [->|Ha].
        -- exists y. split; [done|]. split; [|set_solver].
           intros ->. apply Hst'. eapply Huniq; eauto.
        -- apply (before_remove t s) in Ha; [|done]. rewrite <- Ho in Ha.
           destruct (Hb a Ha) as (z & ? & ? & ?). exists z. set_solver.
  - right. intros x Hx. rewrite Hreq. apply Habs. lia.
Qed.

(* Along fresh operations none of which puts k. *)
Lemma track_run (c c' : lruCache_t) o seen k mid :
  cache_wf c o → tracks k c o seen → fresh_run c mid = true →
  (∀ w, Put k w ∉ mid) → cache_run c mid = Some c' →
  ∃ o', cache_wf c' o' ∧ tracks k c' o' (seen ++ map op_key mid).
Proof.
  revert c o seen. induction mid as [|op mid IH]; intros c o seen Hwf Htr Hf Hnk Hr.
  - simpl in Hr. injection Hr as <-. rewrite app_nil_r. eauto.
  - simpl in Hf, Hr. apply andb_prop in Hf as [Hop Hf].
    destruct (cache_step c op) as [c1|] eqn:Hst; [|discriminate]. simpl in Hr.
    assert (∃ o1, cache_wf c1 o1 ∧ tracks k c1 o1 (seen ++ [op_key op])) as (o1 & Hwf1 & Htr1).
    { destruct op as [y v|y]; simpl.
      - apply bool_decide_eq_true in Hop.
        eapply track_put; eauto. intros ->. apply (Hnk v). set_solver.
      - eapply track_get; eauto. }
    destruct (IH c1 o1 _ Hwf1 Htr1 Hf) as (o' & Hwf' & Htr'); [set_solver|done|].
    exists o'. split; [done|]. rewrite <- app_assoc in Htr'. done.
Qed.


Lemma fresh_wf (c c' : lruCache_t) o ops :
  cache_wf c o → fresh_run c ops = true → cache_run c ops = Some c' →
  ∃ o', cache_wf c' o'.
Proof.
  revert c o. induction ops as [|op ops IH]; intros c o Hwf Hf Hr.
  - simpl in Hr. injection Hr as <-. eauto.
  - simpl in Hf, Hr. apply andb_prop in Hf as [Hop Hf].
    destruct (cache_step c op) as [c1|] eqn:Hst; [|discriminate]. simpl in Hr.
    destruct op as [y v|y].
    + apply bool_decide_eq_true in Hop.
      destruct (put_fresh_wf c c1 o y v Hwf Hop Hst) as [(_ & H & _)|(l & L & _ & _ & H & _)];
        eapply IH; eauto.
    + destruct (get_wf c c1 o y Hwf Hst) as [->|(s & A & B & _ & _ & H & _)];
        eapply IH; eauto.
Qed.

(* A fresh put that removes k overwrites the last node of the recency
   order, the one with all other live nodes ahead of it. *)
Lemma track_evict (c c' : lruCache_t) o seen k x v :
  cache_wf c o → tracks k c o seen → get_result c k ≠ Some None →
  get_result c x = Some None → lru_cache_update_node c x v = Some c' →
  get_result c' k = Some None →
  ∃ ys, NoDup ys ∧ totalCapacity c - 1 ≤ length ys ∧ ∀ y, y ∈ ys → y ≠ k ∧ y ∈ seen.
Proof.
  intros Hwf Htr Hk Hx Hput Hk'.
  pose proof Hwf as (Hinv & _ & Huniq).
  pose proof (inv_nodup c o Hinv) as Hnd.
  destruct Htr as [(t & Ht & Htk & Hb)|Habs];
    [|exfalso; apply Hk; eapply get_result_absent; [exact Hinv|exact Habs]].
  pose proof (inv_lt c o t Hinv Ht) as Htu.
  destruct (put_fresh_wf c c' o x v Hwf Hx Hput)
    as [(Hlt & Hwf' & Hu & He)|(l & L & Ho & Hfull & Hwf' & Hu & He)].
  - exfalso. apply (wf_absent c' _ k Hwf' Hk' t); [lia|].
    rewrite (req_at_update _ _ _ _ _ _ (He t)), decide_False by lia. done.
  - destruct (decide (t = L)) as [->|HtL].
    2:{ exfalso. apply (wf_absent c' _ k Hwf' Hk' t); [lia|].
        rewrite (req_at_update _ _ _ _ _ _ (He t)), decide_False by done. done. }
    assert (HLl : L ∉ l) by (rewrite Ho in Hnd; apply NoDup_app in Hnd; set_solver).
    rewrite Ho, before_last in Hb by done.
    destruct (keys_of (req_at (cachePool c)) (λ y, y ≠ k ∧ y ∈ seen) l)
      as (ys & Hys & Hlen & Hin).
    + rewrite Ho in Hnd. apply NoDup_app in Hnd as (? & _ & _). done.
    + intros a Ha. destruct (Hb a Ha) as (y & ? & ? & ?). eauto.
    + intros a b z Ha Hb' Hza Hzb. eapply Huniq; [| |exact Hza|exact Hzb];
        apply (inv_lt c o); [done| |done|]; rewrite Ho; set_solver.
    + exists ys. split; [done|]. split; [|intros y Hy; apply Hin; done].
      pose proof Hinv as (_ & _ & _ & Hp & _).
      apply Permutation_length in Hp. rewrite length_seq, Ho, length_app in Hp. simpl in Hp.
      lia.
Qed.

(** C10: lru_cache_init(capacity) returns NULL for every capacity <= 0; for
    every capacity > 0 it returns a cache with currentCapacity = 0,
    totalCapacity = capacity, a pool of that many slots whose request and
    md5 are all NULL, and head = slot 0 whose next and prev point to
    itself. *)
Theorem lru_cache_init_shape (capacity : Z) :
  ((capacity <= 0)%Z ∧ lru_cache_init capacity = None) ∨
  ((0 < capacity)%Z ∧
   ∃ c, lru_cache_init capacity = Some c ∧
     currentCapacity c = 0 ∧ Z.of_nat (totalCapacity c) = capacity ∧
     length (cachePool c) = totalCapacity c ∧
     (∀ x, x < totalCapacity c → get_entry (cachePool c) x = Some (None, None)) ∧
     head c = 0 ∧
     get_next (cachePool c) (Some 0) = Some (Some 0) ∧
     get_prev (cachePool c) (Some 0) = Some (Some 0)).
Proof.
  destruct (Z.le_gt_cases capacity 0) as [Hle|Hgt].
  - left. split; [done|]. apply cache_init_spec. done.
  - right. split; [lia|].
    destruct (cache_init_spec_pos capacity ltac:(lia))
      as (c & Hc & Hinv & Hu & Ht & Hh & Hn & He).
    exists c. pose proof Hinv as (Hlen & _ & _ & _ & _ & Hp).
    repeat split; try done; lia.
Qed.

(** C2: for every sequence of put and get operations on a cache created
    with capacity N > 0, every operation succeeds and afterwards the live
    count satisfies 0 <= currentCapacity <= N (every prefix of the sequence
    is itself such a sequence). *)
Theorem lru_cache_bound (N : Z) (ops : list cache_op) :
  (0 < N)%Z →
  ∃ c0 c, lru_cache_init N = Some c0 ∧ cache_run c0 ops = Some c ∧
    0 ≤ currentCapacity c ≤ Z.to_nat N ∧ totalCapacity c = Z.to_nat N.
Proof.
  intros HN.
  destruct (cache_init_spec_pos N HN) as (c0 & Hc0 & Hinv0 & _ & Ht0 & _).
  destruct (cache_run_inv c0 [] ops Hinv0) as (c & o & Hrun & Hinv & Ht).
  exists c0, c. pose proof Hinv as (_ & Hle & _).
  split; [done|]. split; [done|]. lia.
Qed.

Lemma lru_cache_bound_witness :
  (0 < 2)%Z ∧ ∃ c0 c, lru_cache_init 2 = Some c0 ∧
    cache_run c0 [Put "a" "A"; Put "b" "B"; Put "c" "C"; Get "b"] = Some c ∧
    0 ≤ currentCapacity c ≤ Z.to_nat 2 ∧ totalCapacity c = Z.to_nat 2.
Proof.
  split; [lia|]. apply (lru_cache_bound 2 [Put "a" "A"; Put "b" "B"; Put "c" "C"; Get "b"]). lia.
Defined.

(** C1: on a fresh cache of capacity N > 0, after put(k1, v1) ... put(kN, vN)
    and put(kN+1, vN+1) with k1 .. kN+1 distinct and no get in between,
    get(k1) returns NULL and get(ki) returns vi for every i in 2 .. N+1.
    The slot overwritten by the last put is head->prev of the cache before
    it (the slot that held k1), it becomes the head, and no next or prev
    link changes. *)
Theorem lru_order_after_overflow (N : nat) (kvs : list (string * string)) (kl vl : string) :
  0 < N → length kvs = N → NoDup (map fst kvs ++ [kl]) →
  ∃ c0 cN c', lru_cache_init (Z.of_nat N) = Some c0 ∧
    cache_run c0 (map put_op kvs) = Some cN ∧
    lru_cache_update_node cN kl vl = Some c' ∧
    (∀ k1 v1, kvs !! 0 = Some (k1, v1) → get_result c' k1 = Some None) ∧
    (∀ i k v, 1 ≤ i → kvs !! i = Some (k, v) → get_result c' k = Some (Some v)) ∧
    get_result c' kl = Some (Some vl) ∧
    get_prev (cachePool cN) (Some (head cN)) = Some (Some (head c')) ∧
    (∀ k1 v1, kvs !! 0 = Some (k1, v1) →
       get_entry (cachePool cN) (head c') = Some (Some k1, Some v1)) ∧
    get_entry (cachePool c') (head c') = Some (Some kl, Some vl) ∧
    (∀ x, get_next (cachePool c') (Some x) = get_next (cachePool cN) (Some x) ∧
          get_prev (cachePool c') (Some x) = get_prev (cachePool cN) (Some x)).
Proof.
  intros HN Hlen Hnd.
  destruct (cache_init_spec_pos (Z.of_nat N) ltac:(lia))
    as (c0 & Hc0 & Hinv0 & Hu0 & Ht0 & _ & _ & He0).
  rewrite Nat2Z.id in Ht0.
  destruct (run_puts c0 [] kvs Hinv0 ltac:(lia)) as (cN & HrunN & HinvN & HuN & HtN & HnewN & _).
  rewrite Hu0 in HinvN, HuN, HnewN. rewrite app_nil_r, Hlen in HinvN. rewrite Hlen in HuN.
  simpl in HuN.
  destruct (put_full_spec cN _ kl vl HinvN ltac:(lia))
    as (c' & l & L & HlL & Hput & Hinv' & Hprev & Hhd' & Hu' & Ht' & Hlinks & He').
  (* the LRU slot is slot 0 *)
  assert (HL : L = 0).
  { destruct N as [|N']; [lia|].
    simpl in HlL. apply app_inj_tail in HlL as [_ ->]. done. }
  rewrite HL in He', Hprev, Hhd'.
  (* the key held by each live slot of c' *)
  set (keys := map fst kvs ++ [kl]).
  set (pos := λ x : nat, if decide (x = 0) then N else x).
  assert (Hslot : ∀ x, x < N → ∃ k v, keys !! pos x = Some k ∧
            get_entry (cachePool c') x = Some (Some k, Some v) ∧
            (x = 0 → k = kl ∧ v = vl) ∧
            (x ≠ 0 → kvs !! x = Some (k, v))).
  { intros x Hx. rewrite He'. subst pos keys. simpl.
    destruct (decide (x = 0)) as [->|Hx0].
    - exists kl, vl. split; [|split; [done|split; done]].
      rewrite lookup_app_r; rewrite length_map, Hlen; [|lia].
      rewrite Nat.sub_diag. done.
    - destruct (lookup_lt_is_Some_2 kvs x) as [[k v] Hkv]; [lia|].
      exists k, v. split; [|split; [|split; [done|done]]].
      + rewrite lookup_app_l by (rewrite length_map; lia).
        rewrite list_lookup_fmap, Hkv. done.
      + specialize (HnewN x k v Hkv). simpl in HnewN. done. }
  assert (Huniq : ∀ x y k, x < N → y < N → req_at (cachePool c') x = Some k →
            req_at (cachePool c') y = Some k → x = y).
  { intros x y k Hx Hy Hrx Hry.
    destruct (Hslot x Hx) as (kx & vx & Hkx & Hex & _).
    destruct (Hslot y Hy) as (ky & vy & Hky & Hey & _).
    apply req_at_entry_Some in Hex, Hey. rewrite Hrx in Hex. rewrite Hry in Hey.
    injection Hex as <-. injection Hey as <-.
    assert (pos x = pos y) by (eapply NoDup_lookup; eauto).
    subst pos; simpl in *. destruct (decide (x = 0)), (decide (y = 0)); lia. }
  exists c0, cN, c'. split; [done|]. split; [done|]. split; [done|].
  split; [|split; [|split; [|split; [|split; [|split]]]]].
  - (* k1 is gone *)
    intros k1 v1 Hk1. apply (get_result_absent c' _ k1 Hinv').
    intros y Hy Hry. rewrite Hu', HuN in Hy.
    destruct (Hslot y Hy) as (ky & vy & Hky & Hey & _).
    apply req_at_entry_Some in Hey. rewrite Hry in Hey. injection Hey as <-.
    assert (Hk1' : keys !! 0 = Some k1).
    { subst keys. rewrite lookup_app_l by (rewrite length_map; lia).
      rewrite list_lookup_fmap, Hk1. done. }
    assert (Hp : pos y = 0) by (eapply NoDup_lookup; eauto).
    subst pos; simpl in Hp. destruct (decide (y = 0)); lia.
  - (* k2 .. kN are present *)
    intros i k v Hi Hkv.
    assert (HiN : i < N) by (rewrite <- Hlen; apply lookup_lt_is_Some; eauto).
    destruct (Hslot i HiN) as (k' & v' & _ & Hei & _ & Hnz).
    rewrite Hkv in Hnz. specialize (Hnz ltac:(lia)). injection Hnz as <- <-.
    apply (get_result_unique c' _ k i (Some v) Hinv'); [lia|done|].
    intros y Hy Hry. rewrite Hu', HuN in Hy. apply (Huniq y i k); [lia|lia|done|].
    apply req_at_entry_Some in Hei. done.
  - (* kN+1 is present, in slot 0 *)
    destruct (Hslot 0 ltac:(lia)) as (k' & v' & _ & He0' & H0 & _).
    destruct (H0 eq_refl) as [-> ->].
    apply (get_result_unique c' _ kl 0 (Some vl) Hinv'); [lia|done|].
    intros y Hy Hry. rewrite Hu', HuN in Hy. apply (Huniq y 0 kl); [lia|lia|done|].
    apply req_at_entry_Some in He0'. done.
  - rewrite Hprev, Hhd'. done.
  - intros k1 v1 Hk1. rewrite Hhd'. specialize (HnewN 0 k1 v1 Hk1). done.
  - rewrite Hhd', He', decide_True; done.
  - done.
Qed.

Lemma lru_order_after_overflow_witness :
  0 < 2 ∧ length [("a", "A"); ("b", "B")] = 2 ∧ NoDup (map fst [("a", "A"); ("b", "B")] ++ ["c"]) ∧
  ∃ c0 cN c', lru_cache_init (Z.of_nat 2) = Some c0 ∧
    cache_run c0 (map put_op [("a", "A"); ("b", "B")]) = Some cN ∧
    lru_cache_update_node cN "c" "C" = Some c' ∧
    (∀ k1 v1, [("a", "A"); ("b", "B")] !! 0 = Some (k1, v1) → get_result c' k1 = Some None) ∧
    (∀ i k v, 1 ≤ i → [("a", "A"); ("b", "B")] !! i = Some (k, v) → get_result c' k = Some (Some v)) ∧
    get_result c' "c" = Some (Some "C") ∧
    get_prev (cachePool cN) (Some (head cN)) = Some (Some (head c')) ∧
    (∀ k1 v1, [("a", "A"); ("b", "B")] !! 0 = Some (k1, v1) →
       get_entry (cachePool cN) (head c') = Some (Some k1, Some v1)) ∧
    get_entry (cachePool c') (head c') = Some (Some "c", Some "C") ∧
    (∀ x, get_next (cachePool c') (Some x) = get_next (cachePool cN) (Some x) ∧
          get_prev (cachePool c') (Some x) = get_prev (cachePool cN) (Some x)).
Proof.
  assert (Hnd : NoDup (map fst [("a", "A"); ("b", "B")] ++ ["c"])) by (apply (bool_decide_unpack _); vm_compute; reflexivity).
  split; [lia|]. split; [reflexivity|]. split; [exact Hnd|].
  apply (lru_order_after_overflow 2 [("a", "A"); ("b", "B")] "c" "C"); [lia|reflexivity|exact Hnd].
Defined.

Lemma lru_cache_init_Some_pos (N : Z) (c : lruCache_t) :
  lru_cache_init N = Some c → (0 < N)%Z.
Proof.
  unfold lru_cache_init. destruct (Z.leb_spec N 0); [discriminate|lia].
Qed.

(** C3 (amended): on any cache reached from lru_cache_init by gets and
    puts (a key put twice included), when get(k) finds k in slot t, t is
    unlinked from the recency order and spliced in at the front, before the
    old head, as the new head, the cache being left as it is when t
    already is the head. If moreover every put is of a key that get has
    just reported absent (as the server does), and a later put is the
    first to remove k after that get, then at least N-1 distinct keys
    other than k were put or get-ed in between. *)
Theorem mru_on_hit (N : Z) (c0 : lruCache_t) :
  lru_cache_init N = Some c0 →
  (∀ (ops0 : list cache_op) (k d : string) (c1 : lruCache_t),
     cache_run c0 ops0 = Some c1 → get_result c1 k = Some (Some d) →
     ∃ t A B c2, cache_inv c1 (A ++ t :: B) ∧ req_at (cachePool c1) t = Some k ∧
       lru_cache_get_element c1 k = Some (c2, Some d) ∧
       cache_inv c2 (t :: A ++ B) ∧ head c2 = t ∧ (t = head c1 → c2 = c1)) ∧
  (∀ (ops0 mid : list cache_op) (k d x v : string) (c1 c3 c4 : lruCache_t),
     cache_run c0 ops0 = Some c1 → get_result c1 k = Some (Some d) →
     fresh_run c0 (ops0 ++ Get k :: mid ++ [Put x v]) = true →
     (∀ w, Put k w ∉ mid) →
     cache_run c0 (ops0 ++ Get k :: mid) = Some c3 → get_result c3 k ≠ Some None →
     lru_cache_update_node c3 x v = Some c4 → get_result c4 k = Some None →
     ∃ ys, NoDup ys ∧ Z.to_nat N - 1 ≤ length ys ∧
       ∀ y, y ∈ ys → y ≠ k ∧ y ∈ map op_key mid).
Proof.
  intros Hinit. pose proof (lru_cache_init_Some_pos N c0 Hinit) as HN.
  destruct (cache_init_spec_pos N HN) as (c & Hc & Hinv0 & Hu0 & Ht0 & _).
  rewrite Hinit in Hc. injection Hc as <-.
  split.
  - intros ops0 k d c1 Hr1 Hd.
    destruct (cache_run_inv c0 [] ops0 Hinv0) as (c1' & o1 & Hr1' & Hinv1 & _).
    rewrite Hr1 in Hr1'. injection Hr1' as <-.
    destruct (find_total c1 o1 k Hinv1) as [[t|] Hfind];
      [|unfold get_result in Hd; rewrite (get_miss_spec c1 k Hfind) in Hd; discriminate].
    destruct (get_hit_spec c1 o1 k t Hinv1 Hfind)
      as (c2 & A & B & d' & Ho & He & Hget & Hi2 & Hh2 & Hsame & _).
    assert (d' = Some d) as -> by (unfold get_result in Hd; rewrite Hget in Hd; injection Hd as <-; done).
    exists t, A, B, c2. rewrite <- Ho. split; [done|]. split; [|done].
    apply req_at_entry_Some in He. done.
  - intros ops0 mid k d x v c1 c3 c4 Hr1 Hd Hf Hnk Hr3 Hk3 Hput Hk4.
    assert (Hwf0 : cache_wf c0 []).
    { split; [done|]. rewrite Hu0. split; intros; lia. }
    destruct (fresh_run_app c0 c1 ops0 _ Hf Hr1) as [Hf0 Hf1].
    destruct (fresh_wf c0 c1 [] ops0 Hwf0 Hf0 Hr1) as (o1 & Hwf1).
    pose proof Hwf1 as (Hinv1 & _).
    destruct (find_total c1 o1 k Hinv1) as [[t|] Hfind];
      [|unfold get_result in Hd; rewrite (get_miss_spec c1 k Hfind) in Hd; discriminate].
    destruct (get_hit_spec c1 o1 k t Hinv1 Hfind)
      as (c2 & A & B & d' & Ho & He & Hget & Hi2 & Hh2 & Hsame & Hu2 & _ & Hent).
    assert (d' = Some d) as -> by (unfold get_result in Hd; rewrite Hget in Hd; injection Hd as <-; done).
    assert (Hkt : req_at (cachePool c1) t = Some k) by (apply req_at_entry_Some in He; done).
    assert (Hwf2 : cache_wf c2 (t :: A ++ B)) by (eapply wf_transfer; eauto).
    assert (Htr2 : tracks k c2 (t :: A ++ B) []).
    { left. exists t. split; [set_solver|]. split.
      - rewrite (req_at_entry (cachePool c1)) by done. done.
      - simpl. rewrite decide_True by done. set_solver. }
    assert (Hs2 : cache_step c1 (Get k) = Some c2) by (unfold cache_step; rewrite Hget; done).
    cbn [fresh_run andb] in Hf1. rewrite Hs2 in Hf1.
    rewrite cache_run_app, Hr1, obind_Some in Hr3. cbn [cache_run] in Hr3.
    rewrite Hs2, obind_Some in Hr3.
    destruct (fresh_run_app c2 c3 mid [Put x v] Hf1 Hr3) as [Hfm Hfx].
    cbn [fresh_run andb] in Hfx. apply andb_prop in Hfx as [Hx _].
    apply bool_decide_eq_true in Hx.
    destruct (track_run c2 c3 _ [] k mid Hwf2 Htr2 Hfm Hnk Hr3) as (o3 & Hwf3 & Htr3).
    destruct (track_evict c3 c4 o3 _ k x v Hwf3 Htr3 Hk3 Hx Hput Hk4) as (ys & Hys & Hlen & Hin).
    exists ys. split; [done|]. split; [|done].
    destruct (cache_run_inv c0 [] (ops0 ++ Get k :: mid) Hinv0) as (c' & o' & Hr' & _ & Ht').
    rewrite cache_run_app, Hr1, obind_Some in Hr'. cbn [cache_run] in Hr'.
    rewrite Hs2, obind_Some, Hr3 in Hr'. injection Hr' as <-. lia.
Qed.

(* On a cache of capacity 3 holding k twice (put(k) twice, then put(x)),
   the hit on k moves the slot found for it, not the head, to the front;
   on the server's use, put(k), get(k), put(x), put(z), the put of y
   evicts k after two other keys (N-1 = 2). *)
Lemma mru_on_hit_witness :
  ∃ c0 : lruCache_t, lru_cache_init 3 = Some c0 ∧
  (∃ c1, cache_run c0 [Put "k" "K"; Put "k" "K2"; Put "x" "X"] = Some c1 ∧
     get_result c1 "k" = Some (Some "K") ∧
     ∃ t A B c2, cache_inv c1 (A ++ t :: B) ∧ req_at (cachePool c1) t = Some "k" ∧
       lru_cache_get_element c1 "k" = Some (c2, Some "K") ∧
       cache_inv c2 (t :: A ++ B) ∧ head c2 = t ∧ (t = head c1 → c2 = c1)) ∧
  ∃ c1 c3 c4 : lruCache_t,
    cache_run c0 [Put "k" "K"] = Some c1 ∧
    cache_run c0 ([Put "k" "K"] ++ Get "k" :: [Put "x" "X"; Put "z" "Z"]) = Some c3 ∧
    lru_cache_update_node c3 "y" "Y" = Some c4 ∧
    get_result c4 "k" = Some None ∧
    ∃ ys, NoDup ys ∧ Z.to_nat 3 - 1 ≤ length ys ∧
      ∀ y, y ∈ ys → y ≠ "k" ∧ y ∈ map op_key [Put "x" "X"; Put "z" "Z"].
Proof.
  eexists. split; [cbv; reflexivity|].
  pose proof (mru_on_hit 3 _ eq_refl) as [Hsp Hev]. split.
  - eexists. split; [cbv; reflexivity|]. split; [vm_compute; reflexivity|].
    eapply (Hsp [Put "k" "K"; Put "k" "K2"; Put "x" "X"]); [cbv; reflexivity|vm_compute; reflexivity].
  - do 3 eexists.
    split; [cbv; reflexivity|]. split; [cbv; reflexivity|].
    split; [cbv; reflexivity|]. split; [vm_compute; reflexivity|].
    eapply (Hev [Put "k" "K"] [Put "x" "X"; Put "z" "Z"] "k" "K" "y" "Y").
    + reflexivity.
    + vm_compute. reflexivity.
    + vm_compute. reflexivity.
    + intros w Hw. apply elem_of_cons in Hw as [Hw|Hw];
        [|apply list_elem_of_singleton in Hw]; discriminate.
    + reflexivity.
    + vm_compute. discriminate.
    + reflexivity.
    + vm_compute. reflexivity.
Defined.

(** C3 (as stated, refuted): put does not look the key up, so a key put
    twice takes two slots. On a cache of capacity 3, after put(k), a hit
    get(k) and two puts of the same key x, the put of y evicts k although
    only one key other than k (x) was operated on in between, not N-1 = 2. *)
Lemma mru_on_hit_duplicate_put_cex :
  ∃ c0 c1 c3 c4 : lruCache_t,
    lru_cache_init 3 = Some c0 ∧ cache_run c0 [Put "k" "K"] = Some c1 ∧
    get_result c1 "k" = Some (Some "K") ∧
    (∀ w, Put "k" w ∉ [Put "x" "X"; Put "x" "X"]) ∧
    cache_run c0 ([Put "k" "K"] ++ Get "k" :: [Put "x" "X"; Put "x" "X"]) = Some c3 ∧
    get_result c3 "k" ≠ Some None ∧
    lru_cache_update_node c3 "y" "Y" = Some c4 ∧ get_result c4 "k" = Some None ∧
    ¬ ∃ ys, NoDup ys ∧ Z.to_nat 3 - 1 ≤ length ys ∧
        ∀ y, y ∈ ys → y ≠ "k" ∧ y ∈ map op_key [Put "x" "X"; Put "x" "X"].
Proof.
  do 4 eexists.
  split; [cbv; reflexivity|]. split; [cbv; reflexivity|].
  split; [vm_compute; reflexivity|].
  split; [intros w Hw; apply elem_of_cons in Hw as [Hw|Hw];
          [|apply list_elem_of_singleton in Hw]; discriminate|].
  split; [cbv; reflexivity|]. split; [vm_compute; discriminate|].
  split; [cbv; reflexivity|]. split; [vm_compute; reflexivity|].
  intros (ys & Hnd & Hlen & Hin).
  assert (Hx : ∀ y, y ∈ ys → y = "x").
  { intros y Hy. destruct (Hin y Hy) as [_ Hm]. simpl in Hm. set_solver. }
  destruct ys as [|a [|b ys]]; simpl in Hlen; try lia.
  rewrite (Hx a), (Hx b) in Hnd by set_solver.
  apply NoDup_cons in Hnd as [Hn _]. set_solver.
Qed.

(* ===================================================================== *)
(* Proofs: crypto.c                                                      *)
(* ===================================================================== *)

Lemma hex_at_lower (n : Z) : (0 <= n < 16)%Z → is_lower_hex (hex_at n) = true.
Proof.
  intros Hn.
  assert (n = 0 ∨ n = 1 ∨ n = 2 ∨ n = 3 ∨ n = 4 ∨ n = 5 ∨ n = 6 ∨ n = 7 ∨
          n = 8 ∨ n = 9 ∨ n = 10 ∨ n = 11 ∨ n = 12 ∨ n = 13 ∨ n = 14 ∨ n = 15)%Z
    as Hc by lia.
  repeat destruct Hc as [->|Hc]; [reflexivity..|subst n; reflexivity].
Qed.

Lemma nibble_hi (d : Z) : (0 <= Z.shiftr (Z.land d 0xF0) 4 < 16)%Z.
Proof.
  rewrite Z.shiftr_land. change (Z.shiftr 0xF0 4) with (Z.ones 4).
  rewrite Z.land_ones by lia. apply Z.mod_pos_bound. lia.
Qed.

Lemma nibble_lo (d : Z) : (0 <= Z.land d 0x0F < 16)%Z.
Proof.
  change 0x0F%Z with (Z.ones 4). rewrite Z.land_ones by lia.
  apply Z.mod_pos_bound. lia.
Qed.

(* The hex loop of md5String writes two lowercase hex digits per byte. *)
Lemma hex_pairs (dg : list Z) (l : list nat) :
  length (flat_map (λ i, [hex_at (Z.shiftr (Z.land (nth i dg 0%Z) 0xF0) 4);
                     hex_at (Z.land (nth i dg 0%Z) 0x0F)]) l)
    = 2 * length l ∧
  forallb is_lower_hex
    (flat_map (λ i, [hex_at (Z.shiftr (Z.land (nth i dg 0%Z) 0xF0) 4);
                     hex_at (Z.land (nth i dg 0%Z) 0x0F)]) l) = true.
Proof.
  induction l as [|i l [IHl IHf]]; [done|]. cbn [flat_map app length forallb] in *.
  rewrite hex_at_lower by apply nibble_hi. rewrite hex_at_lower by apply nibble_lo.
  split; [lia|done].
Qed.

Lemma md5Update_Some (ctx : MD5Context_t) (bytes : list Z) :
  (Z.of_nat (length bytes) < 2 ^ 32)%Z → md5Update ctx bytes = Some (md5Update_loop ctx bytes).
Proof.
  intros H. unfold md5Update. destruct (Z.ltb_spec (Z.of_nat (length bytes)) (2 ^ 32)); [done|lia].
Qed.

Lemma md5Update_None (ctx : MD5Context_t) (bytes : list Z) :
  (2 ^ 32 <= Z.of_nat (length bytes))%Z → md5Update ctx bytes = None.
Proof.
  intros H. unfold md5Update. destruct (Z.ltb_spec (Z.of_nat (length bytes)) (2 ^ 32)); [lia|done].
Qed.

(* md5Finalize pads with at most 64 bytes, so it always returns. *)
Lemma md5Finalize_Some (ctx : MD5Context_t) : ∃ ctx', md5Finalize ctx = Some ctx'.
Proof.
  unfold md5Finalize. cbv zeta.
  match goal with |- context [firstn ?n PADDING] => pose proof (length_take PADDING n) end.
  change (length PADDING) with 64 in *.
  rewrite md5Update_Some by lia. rewrite obind_Some. eexists. reflexivity.
Qed.

Lemma md5String_Some (s : string) :
  (Z.of_nat (length (c_bytes s)) < 2 ^ 32)%Z →
  ∃ d, md5String s = Some d ∧ length (String.list_ascii_of_string d) = 32 ∧
    forallb is_lower_hex (String.list_ascii_of_string d) = true.
Proof.
  intros H. unfold md5String. cbv zeta. rewrite md5Update_Some by done. rewrite obind_Some.
  match goal with |- context [md5Finalize ?c] => destruct (md5Finalize_Some c) as [c' ->] end.
  rewrite obind_Some. eexists. split; [reflexivity|].
  rewrite String.list_ascii_of_string_of_list_ascii.
  destruct (hex_pairs (digest c') (seq 0 16)) as [Hl Hf]. rewrite Hl. done.
Qed.

Lemma md5String_None (s : string) :
  (2 ^ 32 <= Z.of_nat (length (c_bytes s)))%Z → md5String s = None.
Proof. intros H. unfold md5String. cbv zeta. rewrite md5Update_None by done. reflexivity. Qed.

Lemma c_bytes_string_repeat (n : nat) (c : Ascii.ascii) :
  Ascii.eqb c Ascii.zero = false → length (c_bytes (string_repeat n c)) = n.
Proof.
  intros Hc. induction n as [|n IH]; [done|]. cbn [string_repeat c_bytes]. rewrite Hc.
  cbn [length]. rewrite IH. done.
Qed.

(** C4: md5String returns, for every input string whose strlen is below
    2^32, exactly 32 characters, each a lowercase hexadecimal digit (0-9,
    a-f); on the RFC 1321 test inputs "", "a" and "abc" it returns
    d41d8cd98f00b204e9800998ecf8427e, 0cc175b9c0f1b6a831c399e269772661 and
    900150983cd24fb0d6963f7d28e17f72.  For a string of 2^32 bytes or more,
    such as "a" repeated 2^32 times, it never returns: the unsigned int
    loop counter of md5Update wraps to 0 before reaching strlen(input). *)
Theorem md5String_hex_digest :
  (∀ s : string, (Z.of_nat (length (c_bytes s)) < 2 ^ 32)%Z →
     ∃ d, md5String s = Some d ∧ length (String.list_ascii_of_string d) = 32 ∧
       forallb is_lower_hex (String.list_ascii_of_string d) = true) ∧
  (∀ s : string, (2 ^ 32 <= Z.of_nat (length (c_bytes s)))%Z → md5String s = None) ∧
  md5String (string_repeat (Z.to_nat (2 ^ 32)) (Ascii.ascii_of_nat 97)) = None ∧
  md5String "" = Some "d41d8cd98f00b204e9800998ecf8427e" ∧
  md5String "a" = Some "0cc175b9c0f1b6a831c399e269772661" ∧
  md5String "abc" = Some "900150983cd24fb0d6963f7d28e17f72".
Proof.
  split; [exact md5String_Some|]. split; [exact md5String_None|].
  split; [|split; [|split]; vm_compute; reflexivity].
  apply md5String_None. rewrite c_bytes_string_repeat by reflexivity.
  rewrite Z2Nat.id by lia. lia.
Qed.

(* ===================================================================== *)
(* Proofs: requestQueue.c                                                *)
(* ===================================================================== *)

Lemma qload_Some (h : qheap) a n : h !! a = Some (Some n) → qload h (Some a) = Some n.
Proof. intros H. unfold qload. simpl. rewrite H. done. Qed.

Lemma qstore_Some (h : qheap) a n n' :
  h !! a = Some (Some n) → qstore h (Some a) n' = Some (<[a := Some n']> h).
Proof. intros H. unfold qstore. rewrite (qload_Some h a n H). done. Qed.

Lemma qseg_frame (h h' : qheap) p pp l lp :
  qseg h p pp l lp → (∀ a, a ∈ l.*1 → h' !! a = h !! a) → qseg h' p pp l lp.
Proof.
  revert p pp. induction l as [|[a d] l IH]; intros p pp Hs Hh; [done|].
  destruct Hs as (n & -> & Ha & Hd & Hp & Hs). exists n.
  split; [done|]. rewrite Hh by set_solver. split; [done|]. split; [done|]. split; [done|].
  apply IH; [done|]. intros x Hx. apply Hh. set_solver.
Qed.

Lemma qseg_nil_inv (h : qheap) pp l lp : qseg h None pp l lp → l = [] ∧ lp = pp.
Proof. destruct l as [|[a d] l]; simpl; [intros [_ ->]; done|]. intros (n & H & _). discriminate. Qed.

Lemma qseg_last (h : qheap) p pp l lp :
  qseg h p pp l lp → l ≠ [] →
  ∃ l0 b db nb, l = l0 ++ [(b, db)] ∧ lp = Some b ∧ h !! b = Some (Some nb) ∧ qnext nb = None.
Proof.
  revert p pp. induction l as [|[a d] l IH]; intros p pp Hs Hne; [done|].
  destruct Hs as (n & -> & Ha & Hd & Hp & Hs).
  destruct l as [|x l].
  - destruct Hs as [Hn ->]. exists [], a, d, n. done.
  - destruct (IH _ _ Hs) as (l0 & b & db & nb & Hl & Hlp & Hb & Hnb); [done|].
    exists ((a, d) :: l0), b, db, nb. rewrite Hl. done.
Qed.

Lemma qseg_extend (h h' : qheap) p pp l0 b db nb a d na :
  qseg h p pp (l0 ++ [(b, db)]) (Some b) →
  h !! b = Some (Some nb) →
  h' !! b = Some (Some (set_qnext nb (Some a))) →
  h' !! a = Some (Some na) → data na = d → qprev na = Some b → qnext na = None →
  (∀ x, x ∈ l0.*1 → h' !! x = h !! x) →
  qseg h' p pp (l0 ++ [(b, db); (a, d)]) (Some a).
Proof.
  revert p pp. induction l0 as [|[x dx] l0 IH]; intros p pp Hs Hb Hb' Ha Hd Hpa Hna Hfr; simpl in *.
  - destruct Hs as (n & -> & Hn & Hdn & Hpn & _). rewrite Hb in Hn. injection Hn as <-.
    exists (set_qnext nb (Some a)). split; [done|]. split; [done|]. split; [done|].
    split; [done|]. simpl. exists na. done.
  - destruct Hs as (n & -> & Hn & Hdn & Hpn & Hs). exists n.
    split; [done|]. rewrite Hfr by set_solver. split; [done|]. split; [done|]. split; [done|].
    apply IH; try done. intros y Hy. apply Hfr. set_solver.
Qed.

Lemma qrep_init : qrep linked_queue_init [].
Proof. split; [done|]. split; [done|]. split; constructor. Qed.

(* push appends a node holding the payload at the tail. *)
Lemma push_spec (st : qstate) l d :
  qrep st l →
  ∃ st', linked_queue_push st d = Some st' ∧ qrep st' (l ++ [(length (heap st), d)]).
Proof.
  intros (Hs & He & Hnd & Hlt).
  set (a := length (heap st)).
  set (h1 := heap st ++ [Some (mk_qnode d None None)]).
  assert (Ha1 : h1 !! a = Some (Some (mk_qnode d None None)))
    by (subst h1 a; rewrite list_lookup_middle; done).
  assert (Hold : ∀ x, x < a → h1 !! x = heap st !! x) by (intros; subst h1; apply lookup_app_l; done).
  assert (Hl1 : length h1 = S a) by (subst h1 a; rewrite length_app; simpl; lia).
  assert (Hal : a ∉ l.*1).
  { intros Hin. rewrite Forall_forall in Hlt. specialize (Hlt a Hin). lia. }
  unfold linked_queue_push, linked_queue_append_node. fold a h1. cbn [queue heap].
  destruct (first (queue st)) as [f|] eqn:Hf.
  - destruct (qseg_last _ _ _ _ _ Hs) as (l0 & b & db & nb & -> & Hlp & Hb & Hnb).
    { intros ->. destruct Hs as [? _]. discriminate. }
    assert (Hbl : b < a).
    { rewrite Forall_forall in Hlt. apply Hlt. rewrite fmap_app. set_solver. }
    assert (Hb1 : h1 !! b = Some (Some nb)) by (rewrite Hold; done).
    rewrite Hlp, (qload_Some _ _ _ Hb1), obind_Some, (qstore_Some _ _ _ _ Hb1), obind_Some.
    erewrite (qload_Some _ a); [|rewrite list_lookup_insert_ne by lia; exact Ha1].
    rewrite obind_Some.
    erewrite (qstore_Some _ a); [|rewrite list_lookup_insert_ne by lia; exact Ha1].
    rewrite obind_Some.
    eexists. split; [done|].
    unfold qrep. cbn [queue heap first last elements].
    assert (Hl3 : length (<[a := Some (set_qnext (set_qprev (mk_qnode d None None) (Some b)) None)]>
                          (<[b := Some (set_qnext nb (Some a))]> h1)) = S a)
      by (rewrite !length_insert; done).
    assert (Hnd' : NoDup (l0.*1 ++ [b])) by (rewrite fmap_app in Hnd; done).
    split; [|split; [|split]].
    + rewrite Hlp in Hs. rewrite <- app_assoc. simpl.
      eapply (qseg_extend (heap st) _ _ _ _ b db nb a d (set_qnext (set_qprev (mk_qnode d None None) (Some b)) None)); [exact Hs|exact Hb| | |done|done|done|].
      * rewrite list_lookup_insert_ne by lia.
        rewrite list_lookup_insert_eq by lia. done.
      * rewrite list_lookup_insert_eq by (rewrite length_insert; lia). done.
      * intros x Hx.
        assert (x ∈ (l0 ++ [(b, db)]).*1) by (rewrite fmap_app; set_solver).
        assert (x ≠ b) by (apply NoDup_app in Hnd' as (_ & Hdis & _); set_solver).
        assert (x < a) by (rewrite Forall_forall in Hlt; auto).
        rewrite list_lookup_insert_ne by lia. rewrite list_lookup_insert_ne by lia. apply Hold. lia.
    + rewrite He, Zplus_mod_idemp_l, !length_app. f_equal. simpl. lia.
    + rewrite fmap_app. apply NoDup_app. split; [done|]. split; [set_solver|]. apply NoDup_singleton.
    + rewrite fmap_app, Forall_app. split; [|simpl; constructor; [lia|constructor]].
      eapply Forall_impl; [exact Hlt|]. intros x Hx. cbv beta in Hx |- *. rewrite !length_insert, Hl1. unfold a. lia.
  - destruct (qseg_nil_inv _ _ _ _ Hs) as [-> Hlast].
    rewrite (qload_Some _ _ _ Ha1), obind_Some, (qstore_Some _ _ _ _ Ha1), obind_Some.
    eexists. split; [done|]. unfold qrep. cbn [queue heap first last elements].
    split; [|split; [|split]].
    + exists (set_qnext (set_qprev (mk_qnode d None None) None) None).
      rewrite list_lookup_insert_eq by lia. done.
    + rewrite He. done.
    + simpl. apply NoDup_singleton.
    + simpl. constructor; [rewrite length_insert; lia|constructor].
Qed.

(* pop detaches the first node and returns its payload. *)
Lemma pop_spec (st : qstate) a d l :
  qrep st ((a, d) :: l) →
  ∃ st', linked_queue_pop st = Some (d, st') ∧ qrep st' l ∧ first (queue st) = Some a.
Proof.
  intros (Hs & He & Hnd & Hlt).
  destruct Hs as (n & Hf & Ha & Hd & Hp & Hs).
  apply NoDup_cons in Hnd as [Hal Hnd]. apply Forall_cons in Hlt as [Hah Hlt].
  unfold linked_queue_pop, linked_queue_pop_node. rewrite Hf.
  rewrite (qload_Some _ _ _ Ha), !obind_Some.
  destruct (qnext n) as [a2|] eqn:Hn.
  - destruct l as [|[a2' d2] l']; [destruct Hs; discriminate|].
    destruct Hs as (n2 & Ha2e & Ha2 & Hd2 & Hp2 & Hs). injection Ha2e as <-.
    rewrite (qload_Some _ _ _ Ha2), obind_Some, (qstore_Some _ _ _ _ Ha2), !obind_Some.
    assert (Hne : a2 ≠ a) by set_solver.
    eexists. split; [rewrite Hd; done|]. split; [|done].
    unfold qrep. cbn [queue heap first last elements]. split; [|split; [|split]].
    + exists (set_qprev n2 None).
      rewrite list_lookup_insert_ne by done. rewrite list_lookup_insert_eq
        by (apply lookup_lt_is_Some; rewrite Ha2; done).
      split; [done|]. split; [done|]. split; [done|]. split; [done|].
      eapply qseg_frame; [exact Hs|]. intros x Hx.
      apply NoDup_cons in Hnd as [Hx2 _].
      rewrite list_lookup_insert_ne by set_solver. rewrite list_lookup_insert_ne by set_solver. done.
    + rewrite He, Zminus_mod_idemp_l. f_equal. cbn [length]. lia.
    + done.
    + eapply Forall_impl; [exact Hlt|]. intros x Hx. cbv beta in Hx |- *.
      rewrite !length_insert. done.
  - destruct (qseg_nil_inv _ _ _ _ Hs) as [-> Hlast].
    eexists. split; [rewrite Hd; done|]. split; [|done].
    unfold qrep. cbn [queue heap first last elements].
    split; [done|]. split; [rewrite He; done|]. split; constructor.
Qed.

Lemma pop_empty (st : qstate) : qrep st [] → linked_queue_pop st = Some (0, st) ∧ first (queue st) = None.
Proof.
  intros ([Hf _] & _). unfold linked_queue_pop. rewrite Hf. done.
Qed.

Lemma queue_run_fifo (st : qstate) l ops :
  qrep st l →
  ∃ outs st' l', queue_run st ops = Some (outs, st') ∧ qrep st' l' ∧
    l.*2 ++ pushes ops = omap id outs ++ l'.*2.
Proof.
  revert st l. induction ops as [|[d|] ops IH]; intros st l Hq; simpl.
  - exists [], st, l. rewrite !app_nil_r. done.
  - destruct (push_spec st l d Hq) as (st1 & -> & Hq1). rewrite obind_Some.
    destruct (IH _ _ Hq1) as (outs & st' & l' & Hr & Hq' & Heq).
    exists outs, st', l'. split; [done|]. split; [done|].
    rewrite <- Heq, fmap_app, <- app_assoc. done.
  - destruct l as [|[a d] l].
    + destruct (pop_empty st Hq) as [Hp Hf]. rewrite Hp, Hf. simpl.
      destruct (IH _ _ Hq) as (outs & st' & l' & Hr & Hq' & Heq). rewrite Hr. simpl.
      eexists _, st', l'. split; [done|]. split; [done|]. done.
    + destruct (pop_spec st a d l Hq) as (st1 & Hp & Hq1 & Hf). rewrite Hp, Hf. simpl.
      destruct (IH _ _ Hq1) as (outs & st' & l' & Hr & Hq' & Heq). rewrite Hr. simpl.
      eexists _, st', l'. split; [done|]. split; [done|]. simpl. f_equal. exact Heq.
Qed.

(** C6: for every interleaving of pushes with the pops of a single
    consumer, starting from linked_queue_init, the payloads the consumer
    receives from the pops that detached a node, followed by the payloads
    still queued (first to last), are exactly the pushed payloads in push
    order: the consumer receives them in push order. *)
Theorem queue_fifo (ops : list qop) :
  ∃ outs st l, queue_run linked_queue_init ops = Some (outs, st) ∧ qrep st l ∧
    omap id outs ++ l.*2 = pushes ops.
Proof.
  destruct (queue_run_fifo linked_queue_init [] ops qrep_init) as (outs & st & l & Hr & Hq & Heq).
  exists outs, st, l. split; [done|]. split; [done|]. rewrite <- Heq. done.
Qed.

Lemma check_front (st : qstate) a d l f :
  qrep st ((a, d) :: l) → d ≠ 0 →
  ∃ st', pop_ex_check st f = Some (Return d st') ∧ qrep st' l.
Proof.
  intros Hq Hd. destruct (pop_spec st a d l Hq) as (st' & Hp & Hq' & _).
  exists st'. unfold pop_ex_check. rewrite Hp. simpl. rewrite decide_True by done. done.
Qed.

Lemma check_empty (st : qstate) f :
  qrep st [] →
  pop_ex_check st f =
    Some (if decide (Z.land f SERVER_SIGTERM ≠ 0%Z) then Return 0 st else Wait st).
Proof.
  intros Hq. destruct (pop_empty st Hq) as [Hp _].
  unfold pop_ex_check. rewrite Hp. simpl.
  destruct (decide _); done.
Qed.

Lemma env_run_spec (st : qstate) l f es :
  qrep st l → Forall (λ d, d ≠ 0) l.*2 → forallb push_nonnull es = true →
  ∃ st' f' l', env_run (st, f) es = Some (st', f') ∧ qrep st' l' ∧ Forall (λ d, d ≠ 0) l'.*2.
Proof.
  revert st l f. induction es as [|e es IH]; intros st l f Hq Hnz Hes; simpl in *.
  - exists st, f, l. done.
  - apply andb_prop in Hes as [He Hes]. destruct e as [d|f']; simpl.
    + apply bool_decide_eq_true in He.
      destruct (push_spec st l d Hq) as (st1 & -> & Hq1). rewrite !obind_Some.
      apply (IH st1 _ f Hq1); [|done].
      rewrite fmap_app, Forall_app. split; [done|]. simpl. constructor; [done|constructor].
    + exact (IH st l f' Hq Hnz Hes).
Qed.

(** C5 (amended, payloads not NULL): when the queue holds non-NULL payloads
    (the server pushes &connection), linked_queue_pop_ex returns the front
    payload as soon as the queue is non-empty, whatever serverHandler holds;
    a test of the loop returns NULL (shutdown) exactly when the queue is
    empty and SERVER_SIGTERM is set, and over any run whose other threads
    push only non-NULL payloads a NULL result comes from an empty queue with
    SERVER_SIGTERM set; when the queue is empty and SERVER_SIGTERM is clear
    it waits on the condition variable, leaves the queue as it is, and after
    each wakeup tests again, so spurious wakeups keep it waiting. *)
Theorem pop_ex_nonnull (st : qstate) (l : list (nat * nat)) (f : Z) :
  qrep st l → Forall (λ d, d ≠ 0) l.*2 →
  (∀ a d l', l = (a, d) :: l' →
     ∃ st', qrep st' l' ∧ ∀ ws, linked_queue_pop_ex st f ws = Some (Returned d st' f)) ∧
  ((∃ st', pop_ex_check st f = Some (Return 0 st')) ↔
     l = [] ∧ Z.land f SERVER_SIGTERM ≠ 0%Z) ∧
  (∀ ws st' f', Forall (λ es, forallb push_nonnull es = true) ws →
     linked_queue_pop_ex st f ws = Some (Returned 0 st' f') →
     qrep st' [] ∧ Z.land f' SERVER_SIGTERM ≠ 0%Z) ∧
  (l = [] → Z.land f SERVER_SIGTERM = 0%Z →
     pop_ex_check st f = Some (Wait st) ∧
     linked_queue_pop_ex st f [] = Some (Waiting st f) ∧
     (∀ es ws, linked_queue_pop_ex st f (es :: ws) =
                 '(st', f') ← env_run (st, f) es; linked_queue_pop_ex st' f' ws) ∧
     (∀ n, linked_queue_pop_ex st f (repeat [] n) = Some (Waiting st f))).
Proof.
  intros Hq Hnz. split; [|split; [|split]].
  - intros a d l' ->. apply Forall_cons in Hnz as [Hd _].
    destruct (check_front st a d l' f Hq Hd) as (st' & Hc & Hq').
    exists st'. split; [done|]. intros ws. destruct ws; simpl; rewrite Hc; done.
  - split.
    + intros (st' & Hc). destruct l as [|[a d] l'].
      * rewrite check_empty in Hc by done. split; [done|].
        destruct (decide _); [done|discriminate].
      * apply Forall_cons in Hnz as [Hd _].
        destruct (check_front st a d l' f Hq Hd) as (st'' & Hc' & _).
        rewrite Hc' in Hc. injection Hc as Hd0 _. done.
    + intros [-> Ht]. exists st. rewrite check_empty by done. rewrite decide_True by done. done.
  - intros ws. revert st l f Hq Hnz. induction ws as [|es ws IH]; intros st l f Hq Hnz st' f' Hws Hr.
    + destruct l as [|[a d] l'].
      * simpl in Hr. rewrite check_empty in Hr by done. simpl in Hr.
        destruct (decide _); [|discriminate]. injection Hr as <- <-. done.
      * apply Forall_cons in Hnz as [Hd _].
        destruct (check_front st a d l' f Hq Hd) as (st'' & Hc & _).
        simpl in Hr. rewrite Hc in Hr. simpl in Hr. injection Hr as Hd0. done.
    + apply Forall_cons in Hws as [Hes Hws].
      destruct l as [|[a d] l'].
      * cbn [linked_queue_pop_ex] in Hr. rewrite check_empty in Hr by done. rewrite obind_Some in Hr.
        destruct (decide _) as [Ht|Ht].
        -- injection Hr as <- <-. done.
        -- destruct (env_run_spec st [] f es Hq (Forall_nil_2 _) Hes) as (st1 & f1 & l1 & He & Hq1 & Hnz1).
           rewrite He, obind_Some in Hr. eapply IH; eauto.
      * apply Forall_cons in Hnz as [Hd _].
        destruct (check_front st a d l' f Hq Hd) as (st'' & Hc & _).
        cbn [linked_queue_pop_ex] in Hr. rewrite Hc in Hr. simpl in Hr. injection Hr as Hd0. done.
  - intros -> Ht.
    assert (Hc : pop_ex_check st f = Some (Wait st))
      by (rewrite check_empty by done; rewrite decide_False by lia; done).
    split; [done|]. split; [simpl; rewrite Hc; done|]. split.
    + intros es ws. cbn [linked_queue_pop_ex]. rewrite Hc. done.
    + intros n. induction n as [|n IHn]; simpl; rewrite Hc; [done|]. simpl. exact IHn.
Qed.

(** C5 (as stated, refuted): linked_queue_pop_ex cannot tell a NULL
    payload from an empty queue. With one node holding NULL queued, it
    detaches the node and waits when SERVER_SIGTERM is clear, instead of
    returning the front element; and it returns NULL (shutdown) when
    SERVER_SIGTERM is set although the queue was not empty. *)
Lemma pop_ex_null_payload_cex :
  ∃ st, linked_queue_push linked_queue_init 0 = Some st ∧ first (queue st) ≠ None ∧
    (∃ st', linked_queue_pop_ex st 0 [] = Some (Waiting st' 0) ∧ first (queue st') = None) ∧
    (∃ st', linked_queue_pop_ex st SERVER_SIGTERM [] = Some (Returned 0 st' SERVER_SIGTERM)).
Proof.
  eexists. split; [vm_compute; reflexivity|]. split; [vm_compute; discriminate|].
  split; eexists; vm_compute; [split; reflexivity|reflexivity].
Qed.

Lemma pop_ex_nonnull_witness :
  (qrep (mk_qstate (mk_queue 1%Z (Some 0) (Some 0)) [Some (mk_qnode 7 None None)]) [(0, 7)] ∧
   Forall (λ d, d ≠ 0) [(0, 7)].*2) ∧
  ∃ st', qrep st' [] ∧ ∀ ws,
    linked_queue_pop_ex (mk_qstate (mk_queue 1%Z (Some 0) (Some 0)) [Some (mk_qnode 7 None None)])
      0 ws = Some (Returned 7 st' 0).
Proof.
  assert (Hq : qrep (mk_qstate (mk_queue 1%Z (Some 0) (Some 0)) [Some (mk_qnode 7 None None)]) [(0, 7)]).
  { split; [|split; [reflexivity|split; [cbn; constructor; [intros H; inversion H|constructor]|
      cbn; constructor; [lia|constructor]]]].
    exists (mk_qnode 7 None None). simpl. repeat split. }
  assert (Hnz : Forall (λ d, d ≠ 0) [(0, 7)].*2) by (cbn; constructor; [lia|constructor]).
  split; [split; [exact Hq|exact Hnz]|].
  destruct (pop_ex_nonnull _ _ 0 Hq Hnz) as [Hfront _].
  destruct (Hfront 0 7 [] eq_refl) as (st' & Hq' & Hr).
  exists st'. split; [exact Hq'|exact Hr].
Defined.

(* ===================================================================== *)
(* Proofs: requestMonitor.c                                              *)
(* ===================================================================== *)

(* strtok's skip of leading delimiters does not change the tokens. *)
Lemma space_tokens_skip s : space_tokens (skip_delims s) = space_tokens s.
Proof.
  induction s as [|c s IH]; [done|]. simpl. unfold space_tokens in *.
  destruct (is_space_delim c) eqn:Hc; simpl; rewrite ?Hc; done.
Qed.

Lemma skip_delims_head s c s' :
  skip_delims s = c :: s' → is_space_delim c = false.
Proof.
  induction s as [|c0 s IH]; simpl; [done|].
  destruct (is_space_delim c0) eqn:Hc; [done|]. intros [= -> _]. done.
Qed.

Lemma skip_delims_length s : length (skip_delims s) ≤ length s.
Proof. induction s as [|c s IH]; simpl; [done|]. destruct (is_space_delim c); simpl; lia. Qed.

(* The token taken from [s], with the characters [cur] already read
   (reversed) before it. *)
Lemma space_tokens_take cur s :
  space_tokens_acc cur s =
    let '(t, r) := take_token s in
    match rev cur ++ t with [] => space_tokens r | w => w :: space_tokens r end.
Proof.
  revert cur. induction s as [|c s IH]; intros cur; simpl.
  - rewrite app_nil_r. destruct cur as [|c cur]; simpl; [done|].
    destruct (rev cur ++ [c]) eqn:E; [|done]. apply app_eq_nil in E as [_ ?]. done.
  - destruct (is_space_delim c) eqn:Hc.
    + rewrite app_nil_r. destruct cur as [|c' cur]; simpl; [done|].
      destruct (rev cur ++ [c']) eqn:E; [|done]. apply app_eq_nil in E as [_ ?]. done.
    + rewrite IH. destruct (take_token s) as [t r]. simpl.
      rewrite <- app_assoc. simpl.
      destruct (rev cur ++ c :: t) eqn:E; [|done]. apply app_eq_nil in E as [_ ?]. done.
Qed.

Lemma take_token_length s t r : take_token s = (t, r) → length t + length r ≤ length s.
Proof.
  revert t r. induction s as [|c s IH]; intros t r; simpl; [intros [= <- <-]; done|].
  destruct (is_space_delim c); [intros [= <- <-]; simpl; lia|].
  destruct (take_token s) as [t' r'] eqn:E. intros [= <- <-]. simpl.
  specialize (IH _ _ eq_refl). lia.
Qed.

(* Each call of strtok returns the next token of [space_tokens]. *)
Lemma strtok_spec s :
  match strtok s with
  | None => space_tokens s = []
  | Some (t, r) => space_tokens s = t :: space_tokens r ∧ t ≠ [] ∧ length r < length s
  end.
Proof.
  unfold strtok. rewrite <- space_tokens_skip.
  pose proof (skip_delims_length s) as Hl.
  destruct (skip_delims s) as [|c s'] eqn:Hs; [done|].
  pose proof (skip_delims_head _ _ _ Hs) as Hc.
  unfold space_tokens. rewrite (space_tokens_take [] (c :: s')).
  simpl. rewrite Hc. destruct (take_token s') as [t r] eqn:Ht. simpl.
  pose proof (take_token_length _ _ _ Ht). split; [done|]. split; [done|].
  simpl in Hl. lia.
Qed.

Lemma tokenize_loop_tokens fuel s requestIterator request :
  length s < fuel →
  tokenize_loop fuel (strtok s) requestIterator request =
    Some (loop_on_tokens (space_tokens s) requestIterator request).
Proof.
  revert s requestIterator request. induction fuel as [|fuel IH]; intros s it req Hf; [lia|].
  pose proof (strtok_spec s) as Hs. destruct (strtok s) as [[t r]|].
  - destruct Hs as (-> & _ & Hr).
    destruct it as [|[|[|it]]]; cbn [tokenize_loop loop_on_tokens]; rewrite ?IH by lia; try done.
    destruct (is_get t); done.
  - rewrite Hs. done.
Qed.

Lemma tokenize_request_tokens s request :
  tokenize_request (Some s) request =
    match loop_on_tokens (space_tokens (c_chars s)) 0 request with
    | LoopReturn code request => Some (code, request)
    | LoopDone requestIterator request =>
        if bool_decide (requestIterator ≠ REQUEST_FIELDS) then Some (ERROR, request)
        else Some (SUCCESS, request)
    end.
Proof.
  unfold tokenize_request. rewrite tokenize_loop_tokens by lia. done.
Qed.

Lemma is_get_get : is_get (String.list_ascii_of_string "get") = true.
Proof. reflexivity. Qed.

Lemma ERROR_SUCCESS : ERROR ≠ SUCCESS.
Proof. unfold ERROR, SUCCESS. lia. Qed.

Lemma tokenize_error_case (L : list (list Ascii.ascii)) (request : request_t) P :
  ¬ (∃ m d, L = [String.list_ascii_of_string "get"; m; d]) →
  (ERROR = SUCCESS ∨ ERROR = ERROR) ∧
  (ERROR = SUCCESS ↔ ∃ m d, L = [String.list_ascii_of_string "get"; m; d]) ∧
  (∀ m d, L = [String.list_ascii_of_string "get"; m; d] → request = P m d).
Proof.
  intros Hno. pose proof ERROR_SUCCESS. split; [right; done|].
  split; [split; [done|tauto]|]. intros m d E. exfalso. eauto.
Qed.

(** C7 (corrected): tokenize_request returns ERROR on a NULL string.
    Otherwise it returns SUCCESS or ERROR, and SUCCESS exactly when the
    tokens strtok splits off at ASCII spaces (of the string up to its NUL)
    are the three tokens "get", m and d; it then stores m as the message
    and strtoul(d, NULL, 10) as the delay. So an empty buffer, fewer or
    more than three tokens and another verb fail, but the third token is
    not checked: a non-numeric one, or one ending in a newline or another
    whitespace character, is accepted. *)
Theorem tokenize_request_shape (request : request_t) :
  tokenize_request None request = Some (ERROR, request) ∧
  ∀ s, ∃ code request', tokenize_request (Some s) request = Some (code, request') ∧
    (code = SUCCESS ∨ code = ERROR) ∧
    (code = SUCCESS ↔
       ∃ m d, space_tokens (c_chars s) = [String.list_ascii_of_string "get"; m; d]) ∧
    (∀ m d, space_tokens (c_chars s) = [String.list_ascii_of_string "get"; m; d] →
       request' = mk_request (Some m) (to_time_t (strtoul10 d))).
Proof.
  pose proof ERROR_SUCCESS as Hne.
  split; [done|]. intros s. rewrite tokenize_request_tokens.
  destruct (space_tokens (c_chars s)) as [|t1 [|t2 [|t3 [|t4 toks]]]];
    cbn [loop_on_tokens]; [|destruct (is_get t1) eqn:Hg ..].
  all: eexists _, _; split; [reflexivity|].
  6: { apply bool_decide_eq_true in Hg as ->.
        split; [left; reflexivity|]. split; [split; [intros _; exists t2, t3; done|done]|].
        intros m d E. injection E as -> ->. reflexivity. }
  all: apply (tokenize_error_case _ _ (λ m d, mk_request (Some m) (to_time_t (strtoul10 d))));
    intros (m & d & E);
    first [discriminate | injection E as Ht _ _; rewrite Ht in Hg; vm_compute in Hg; discriminate].
Qed.

(** C7 (as stated, refuted): the third token is not checked. A
    non-numeric delay is accepted as 0, and a request ending in a newline
    (or a carriage return and a newline) is accepted with its delay. *)
Lemma tokenize_request_unchecked_delay_cex :
  tokenize_request (Some (String.list_ascii_of_string "get a x")) (mk_request None 0%Z) =
    Some (SUCCESS, mk_request (Some (String.list_ascii_of_string "a")) 0%Z) ∧
  tokenize_request (Some (String.list_ascii_of_string "get a 5" ++ [Ascii.ascii_of_nat 10]))
      (mk_request None 0%Z) =
    Some (SUCCESS, mk_request (Some (String.list_ascii_of_string "a")) 5%Z) ∧
  tokenize_request
      (Some (String.list_ascii_of_string "get a 5" ++ [Ascii.ascii_of_nat 13; Ascii.ascii_of_nat 10]))
      (mk_request None 0%Z) =
    Some (SUCCESS, mk_request (Some (String.list_ascii_of_string "a")) 5%Z).
Proof. split; [|split]; vm_compute; reflexivity. Qed.

Lemma c_chars_id s : Forall (λ c, is_nul c = false) s → c_chars s = s.
Proof. induction 1 as [|c s Hc _ IH]; simpl; [done|]. rewrite Hc, IH. done. Qed.

(* A word without delimiters is read as one piece of the current token. *)
Lemma space_tokens_word cur w s :
  Forall (λ c, is_space_delim c = false) w →
  space_tokens_acc cur (w ++ s) = space_tokens_acc (rev w ++ cur) s.
Proof.
  intros Hw. revert cur. induction Hw as [|c w Hc _ IH]; intros cur; simpl; [done|].
  rewrite Hc, IH, <- app_assoc. done.
Qed.

Lemma space_tokens_words w s :
  w ≠ [] → Forall (λ c, is_space_delim c = false) w →
  space_tokens (w ++ space_char :: s) = w :: space_tokens s.
Proof.
  intros Hne Hw. unfold space_tokens. rewrite space_tokens_word by done.
  rewrite app_nil_r. simpl. rewrite rev_involutive.
  destruct (rev w) eqn:E; [|done]. apply (f_equal (@rev Ascii.ascii)) in E. rewrite rev_involutive in E. done.
Qed.

Lemma space_tokens_last w :
  w ≠ [] → Forall (λ c, is_space_delim c = false) w → space_tokens w = [w].
Proof.
  intros Hne Hw. unfold space_tokens. rewrite <- (app_nil_r w) at 1.
  rewrite space_tokens_word by done. rewrite app_nil_r. simpl. rewrite rev_involutive.
  destruct (rev w) eqn:E; [|done]. apply (f_equal (@rev Ascii.ascii)) in E. rewrite rev_involutive in E. done.
Qed.

Definition digit_char (c : Ascii.ascii) : Prop :=
  is_digit c = true ∧ is_space_delim c = false ∧ is_nul c = false ∧ is_c_space c = false ∧
  Ascii.eqb c (Ascii.ascii_of_nat 45) = false ∧ Ascii.eqb c (Ascii.ascii_of_nat 43) = false.

Lemma uint_chars_digits u : Forall digit_char (uint_chars u).
Proof. induction u; simpl; constructor; try assumption; repeat split. Qed.

Lemma str_of_nat_nonempty d : str_of_nat d ≠ [].
Proof.
  unfold str_of_nat. destruct (Nat.to_uint d) eqn:E; simpl; [|done..].
  pose proof (DecimalNat.Unsigned.of_to d) as Hd. rewrite E in Hd. simpl in Hd. subst d. discriminate.
Qed.

Lemma digits_value_uint u acc :
  digits_value (Z.of_nat acc) (uint_chars u) = Z.of_nat (Nat.of_uint_acc u acc).
Proof.
  revert acc. induction u; intros acc; cbn [uint_chars digits_value Nat.of_uint_acc]; [done|..].
  all: rewrite <- IHu; rewrite Nat.tail_mul_spec.
  all: match goal with |- (if is_digit ?c then _ else _) = _ =>
         replace (is_digit c) with true by reflexivity end.
  all: f_equal; unfold digit_value; rewrite Ascii.nat_ascii_embedding by lia; lia.
Qed.

Lemma strtoul10_str d : (Z.of_nat d ≤ ULONG_MAX)%Z → strtoul10 (str_of_nat d) = Z.of_nat d.
Proof.
  intros Hd. pose proof (uint_chars_digits (Nat.to_uint d)) as Hdig.
  pose proof (str_of_nat_nonempty d) as Hne. unfold strtoul10, str_of_nat in *.
  destruct (uint_chars (Nat.to_uint d)) as [|c cs] eqn:E; [done|].
  apply Forall_cons in Hdig as [(_ & _ & _ & Hsp & Hm & Hp) _].
  simpl. rewrite Hsp, Hm, Hp. rewrite <- E.
  replace 0%Z with (Z.of_nat 0) by done. rewrite digits_value_uint.
  change (Nat.of_uint_acc (Nat.to_uint d) 0) with (Nat.of_uint (Nat.to_uint d)).
  rewrite DecimalNat.Unsigned.of_to. destruct (ULONG_MAX <? Z.of_nat d)%Z eqn:Hlt; [lia|done].
Qed.

Lemma no_delim_nul c : c ≠ space_char ∧ c ≠ Ascii.zero → is_space_delim c = false ∧ is_nul c = false.
Proof. intros [H1 H2]. split; apply Ascii.eqb_neq; done. Qed.

(** C8 (corrected): for every non-empty message m with no space and no
    NUL character and every d < 2^31, tokenize_request on the string
    "get " ++ m ++ " " ++ str(d) returns SUCCESS and stores m as the
    message (strdup'ed) and d as the delay. The message must be non-empty:
    with an empty one the string has only two tokens. *)
Theorem tokenize_request_roundtrip (m : list Ascii.ascii) (d : nat) (request : request_t) :
  m ≠ [] → Forall (λ c, c ≠ space_char ∧ c ≠ Ascii.zero) m → (Z.of_nat d < 2 ^ 31)%Z →
  tokenize_request
    (Some (String.list_ascii_of_string "get " ++ m ++ String.list_ascii_of_string " " ++ str_of_nat d))
    request = Some (SUCCESS, mk_request (Some m) (Z.of_nat d)).
Proof.
  intros Hne Hm Hd.
  assert (Hm' : Forall (λ c, is_space_delim c = false ∧ is_nul c = false) m)
    by (eapply Forall_impl; [exact Hm|exact no_delim_nul]).
  pose proof (uint_chars_digits (Nat.to_uint d)) as Hs. fold (str_of_nat d) in Hs.
  rewrite tokenize_request_tokens.
  replace (String.list_ascii_of_string "get " ++ m ++ String.list_ascii_of_string " " ++ str_of_nat d)
    with (String.list_ascii_of_string "get" ++ space_char :: m ++ space_char :: str_of_nat d)
    by reflexivity.
  rewrite c_chars_id.
  2: { apply Forall_app. split; [repeat constructor|]. constructor; [reflexivity|].
       apply Forall_app. split; [eapply Forall_impl; [exact Hm'|intros c [_ H]; exact H]|].
       constructor; [reflexivity|]. eapply Forall_impl; [exact Hs|intros c (_ & _ & H & _); exact H]. }
  rewrite space_tokens_words by (try discriminate; repeat constructor).
  rewrite space_tokens_words by (first [done | eapply Forall_impl; [exact Hm'|intros c [H _]; exact H]]).
  rewrite space_tokens_last
    by (first [apply str_of_nat_nonempty |
        eapply Forall_impl; [exact Hs|intros c (_ & H & _); exact H]]).
  cbn [loop_on_tokens]. rewrite is_get_get. cbn [loop_on_tokens msg].
  rewrite strtoul10_str by (unfold ULONG_MAX; lia).
  unfold to_time_t. destruct (Z.of_nat d <? 2 ^ 63)%Z eqn:Hlt; [|lia]. done.
Qed.

Lemma tokenize_request_roundtrip_witness :
  (String.list_ascii_of_string "abc" ≠ [] ∧
   Forall (λ c, c ≠ space_char ∧ c ≠ Ascii.zero) (String.list_ascii_of_string "abc") ∧
   (Z.of_nat 250 < 2 ^ 31)%Z) ∧
  tokenize_request
    (Some (String.list_ascii_of_string "get " ++ String.list_ascii_of_string "abc" ++
           String.list_ascii_of_string " " ++ str_of_nat 250))
    (mk_request None 0%Z) =
  Some (SUCCESS, mk_request (Some (String.list_ascii_of_string "abc")) (Z.of_nat 250)).
Proof.
  assert (Hne : String.list_ascii_of_string "abc" ≠ []) by discriminate.
  assert (Hm : Forall (λ c, c ≠ space_char ∧ c ≠ Ascii.zero) (String.list_ascii_of_string "abc"))
    by (repeat constructor; discriminate).
  assert (Hd : (Z.of_nat 250 < 2 ^ 31)%Z) by lia.
  split; [split; [exact Hne|split; [exact Hm|exact Hd]]|].
  exact (tokenize_request_roundtrip _ 250 (mk_request None 0%Z) Hne Hm Hd).
Defined.

(** C8 (as stated, refuted): with the empty message, "get  5" has two
    tokens and tokenize_request returns ERROR (having stored the delay
    token "5" as the message). *)
Lemma tokenize_request_empty_msg_cex :
  tokenize_request
    (Some (String.list_ascii_of_string "get " ++ [] ++ String.list_ascii_of_string " " ++ str_of_nat 5))
    (mk_request None 0%Z) =
  Some (ERROR, mk_request (Some (str_of_nat 5)) 0%Z).
Proof. vm_compute. reflexivity. Qed.

(* ===================================================================== *)
(* Proofs: main.c                                                        *)
(* ===================================================================== *)

(** C9 (code bug): start_server pushes the address of its single local
    [connection] for every accepted connection. When two connections,
    with descriptors fd1 and fd2, are accepted before any worker pops,
    two workers pop the same pointer &connection, and both read fd2 from
    it: the handle fd2 is held by two workers and fd1 by none. *)
Theorem start_server_shared_connection (connection0 fd1 fd2 : Z) :
  (0 ≤ fd1)%Z → (0 ≤ fd2)%Z →
  ∃ s, server_run (server_init connection0) [Accept fd1; Accept fd2; WorkerPop 1; WorkerPop 2] = Some s ∧
    held s = [(2, connection_addr); (1, connection_addr)] ∧
    deref s connection_addr = Some fd2.
Proof.
  intros H1 H2. cbn [server_run]. unfold server_step.
  rewrite (bool_decide_false (fd1 < 0)%Z), (bool_decide_false (fd2 < 0)%Z) by lia.
  vm_compute. eexists. split; [reflexivity|]. split; reflexivity.
Qed.

Lemma start_server_shared_connection_witness :
  ((0 ≤ 4)%Z ∧ (0 ≤ 5)%Z) ∧
  ∃ s, server_run (server_init 0) [Accept 4; Accept 5; WorkerPop 1; WorkerPop 2] = Some s ∧
    held s = [(2, connection_addr); (1, connection_addr)] ∧ deref s connection_addr = Some 5%Z.
Proof.
  split; [split; lia|]. apply (start_server_shared_connection 0 4 5); lia.
Defined.

(* ===================================================================== *)
(* Further properties: crypto.c                                          *)
(* ===================================================================== *)

(* The byte loop of md5Update advances the offset modulo 64. *)
Lemma md5_update_bytes_offset (bytes : list Z) buf inp off :
  off < 64 →
  (fold_left md5_update_byte bytes (buf, inp, off)).2 = (off + length bytes) mod 64.
Proof.
  revert buf inp off. induction bytes as [|b bytes IH]; intros buf inp off Hoff;
    cbn [fold_left length md5_update_byte].
  - rewrite Nat.add_0_r, Nat.mod_small by lia. done.
  - destruct (decide (S off mod 64 = 0)) as [H|H].
    + rewrite IH by lia. assert (S off = 64) as Hs.
      { destruct (decide (S off = 64)); [done|]. rewrite Nat.mod_small in H by lia. lia. }
      replace (off + S (length bytes)) with (length bytes + 1 * 64) by lia.
      rewrite Nat.Div0.mod_add. done.
    + assert (S off < 64) by (destruct (decide (S off = 64)) as [E|E]; [rewrite E in H; done|lia]).
      rewrite IH by lia. f_equal. lia.
Qed.

Lemma mask64_mod (x : Z) : mask64 x = (x mod 2 ^ 64)%Z.
Proof. unfold mask64. rewrite Z.land_ones by lia. done. Qed.

(* The byte loop, run on a and then on b, is the loop run on a ++ b (the
   offset into the 64-byte block that md5Update recomputes from the size
   is the one the byte loop stopped at). *)
Lemma md5Update_loop_app (ctx : MD5Context_t) (a b : list Z) :
  (0 <= size ctx < 2 ^ 64)%Z →
  md5Update_loop (md5Update_loop ctx a) b = md5Update_loop ctx (a ++ b).
Proof.
  intros Hs. unfold md5Update_loop.
  set (off := Z.to_nat (size ctx mod 64)).
  assert (Hoff : off < 64) by (subst off; pose proof (Z.mod_pos_bound (size ctx) 64); lia).
  destruct (fold_left md5_update_byte a (buffer ctx, input ctx, off)) as [[buf1 inp1] off1] eqn:Ha.
  pose proof (md5_update_bytes_offset a (buffer ctx) (input ctx) off Hoff) as Hoa.
  rewrite Ha in Hoa. cbn [snd] in Hoa. cbn [size buffer input digest].
  assert (Hoff1 : Z.to_nat (mask64 (size ctx + Z.of_nat (length a)) mod 64) = off1).
  { rewrite mask64_mod, Hoa. subst off.
    rewrite Z.mod_mod_divide by (exists (2 ^ 58)%Z; reflexivity).
    apply Nat2Z.inj. rewrite Z2Nat.id by (apply Z.mod_pos_bound; lia).
    rewrite Nat2Z.inj_mod, Nat2Z.inj_add, Z2Nat.id by (apply Z.mod_pos_bound; lia).
    rewrite Zplus_mod_idemp_l. done. }
  rewrite Hoff1, fold_left_app, Ha, length_app.
  destruct (fold_left md5_update_byte b (buf1, inp1, off1)) as [[buf2 inp2] off2].
  f_equal. rewrite !mask64_mod, Zplus_mod_idemp_l. f_equal. lia.
Qed.

(** md5Update is incremental: for a context whose size counter is a
    uint64_t value and bytes a and b of fewer than 2^32 bytes together,
    feeding a and then b gives the same context as feeding a ++ b in one
    call (at 2^32 bytes or more the single call does not return). *)
Theorem md5Update_app (ctx : MD5Context_t) (a b : list Z) :
  (0 <= size ctx < 2 ^ 64)%Z → (Z.of_nat (length (a ++ b)) < 2 ^ 32)%Z →
  (md5Update ctx a ≫= λ c, md5Update c b) = md5Update ctx (a ++ b).
Proof.
  intros Hs Hl. pose proof Hl as Hl'. rewrite length_app in Hl'.
  rewrite (md5Update_Some ctx a) by lia. rewrite obind_Some. cbv beta.
  rewrite (md5Update_Some _ b) by lia. rewrite (md5Update_Some ctx (a ++ b)) by done.
  f_equal. apply md5Update_loop_app. done.
Qed.

Lemma md5Update_app_witness :
  let ctx := md5Init (mk_md5 0 [] (repeat 0%Z 64) (repeat 0%Z 16)) in
  (0 <= size ctx < 2 ^ 64)%Z ∧ (Z.of_nat (length (repeat 97%Z 40 ++ repeat 98%Z 30)) < 2 ^ 32)%Z ∧
  (md5Update ctx (repeat 97%Z 40) ≫= λ c, md5Update c (repeat 98%Z 30)) =
  md5Update ctx (repeat 97%Z 40 ++ repeat 98%Z 30).
Proof.
  intros ctx. split; [cbn; lia|]. split; [cbn; lia|]. apply md5Update_app; cbn; lia.
Defined.

Lemma c_bytes_nul (s t : string) :
  c_bytes (String.append s (String.String Ascii.zero t)) = c_bytes s.
Proof. induction s as [|a s IH]; simpl; [done|]. rewrite IH. done. Qed.

(** md5String hashes its argument only up to the first NUL character
    (md5Update is given strlen(input) bytes): a string and the same string
    followed by NUL and any further characters have the same digest. *)
Theorem md5String_stops_at_nul (s t : string) :
  md5String (String.append s (String.String Ascii.zero t)) = md5String s.
Proof. unfold md5String. rewrite c_bytes_nul. done. Qed.

(* Bit i of rotateLeft x n, for a 32-bit x and 0 < n < 32. *)
Lemma rotateLeft_bit (x n i : Z) :
  (0 < n < 32)%Z → (0 <= x < 2 ^ 32)%Z → (0 <= i)%Z →
  Z.testbit (rotateLeft x n) i =
    if (i <? n)%Z then Z.testbit x (i + 32 - n)
    else if (i <? 32)%Z then Z.testbit x (i - n) else false.
Proof.
  intros Hn Hx Hi. unfold rotateLeft, mask32.
  assert (Hhi : ∀ j, (32 <= j)%Z → Z.testbit x j = false).
  { intros j Hj. rewrite <- (Z.mod_small x (2 ^ 32)) by lia.
    apply Z.mod_pow2_bits_high. lia. }
  rewrite Z.land_spec, Z.lor_spec, Z.testbit_ones by lia. rewrite Z.shiftr_spec by lia.
  assert (H0 : (0 <=? i)%Z = true) by (apply Z.leb_le; lia). rewrite H0, andb_true_l.
  destruct (Z.ltb_spec i n) as [Hin|Hin].
  - rewrite Z.shiftl_spec_low by lia. rewrite orb_false_l.
    replace (i + (32 - n))%Z with (i + 32 - n)%Z by lia.
    destruct (Z.ltb_spec i 32); [|lia]. rewrite andb_true_r. done.
  - rewrite Z.shiftl_spec by lia.
    destruct (Z.ltb_spec i 32) as [Hi32|Hi32].
    + rewrite (Hhi (i + (32 - n))%Z) by lia. rewrite orb_false_r, andb_true_r. done.
    + rewrite andb_false_r. done.
Qed.

(** rotateLeft is a rotation of 32-bit words: for 0 < n < 32 it maps a
    uint32_t to a uint32_t, and rotating by 32 - n and then by n gives
    back the original word. *)
Theorem rotateLeft_inverse (x n : Z) :
  (0 < n < 32)%Z → (0 <= x < 2 ^ 32)%Z →
  (0 <= rotateLeft x n < 2 ^ 32)%Z ∧ rotateLeft (rotateLeft x (32 - n)) n = x.
Proof.
  intros Hn Hx.
  assert (Hr : ∀ y m, (0 <= rotateLeft y m < 2 ^ 32)%Z).
  { intros y m. unfold rotateLeft, mask32. rewrite Z.land_ones by lia.
    apply Z.mod_pos_bound. lia. }
  split; [apply Hr|].
  apply Z.bits_inj'. intros i Hi.
  rewrite rotateLeft_bit by (try apply Hr; lia).
  destruct (Z.ltb_spec i n).
  - rewrite rotateLeft_bit by lia.
    destruct (Z.ltb_spec (i + 32 - n) (32 - n)); [lia|].
    destruct (Z.ltb_spec (i + 32 - n) 32); [|lia]. f_equal. lia.
  - destruct (Z.ltb_spec i 32).
    + rewrite rotateLeft_bit by lia.
      destruct (Z.ltb_spec (i - n) (32 - n)); [|lia]. f_equal. lia.
    + symmetry. rewrite <- (Z.mod_small x (2 ^ 32)) by lia.
      apply Z.mod_pow2_bits_high. lia.
Qed.

Lemma rotateLeft_inverse_witness :
  ((0 < 7 < 32)%Z ∧ (0 <= 0x12345678 < 2 ^ 32)%Z) ∧
  (0 <= rotateLeft 0x12345678 7 < 2 ^ 32)%Z ∧
  rotateLeft (rotateLeft 0x12345678 (32 - 7)) 7 = 0x12345678%Z.
Proof.
  split; [split; lia|]. apply rotateLeft_inverse; lia.
Defined.

(* ===================================================================== *)
(* Further properties: requestQueue.c                                    *)
(* ===================================================================== *)

Lemma qstore_allocated (h h' : qheap) p n :
  qstore h p n = Some h' → ∀ b, allocated h' b ↔ allocated h b.
Proof.
  unfold qstore, qload. destruct p as [a|]; [|done]. simpl.
  destruct (h !! a) as [[m|]|] eqn:Ha; simpl; try discriminate.
  intros [= <-] b. unfold allocated.
  destruct (decide (b = a)) as [->|Hne].
  - rewrite list_lookup_insert_eq by (apply lookup_lt_is_Some; eauto). rewrite Ha. split; eauto.
  - rewrite list_lookup_insert_ne by done. done.
Qed.

Lemma append_node_allocated (st st' : qstate) node :
  linked_queue_append_node st node = Some st' → ∀ b, allocated (heap st') b ↔ allocated (heap st) b.
Proof.
  unfold linked_queue_append_node. intros H b.
  destruct (first (queue st));
  repeat (apply bind_Some in H as (? & ? & H));
  injection H as <-; simpl;
  repeat match goal with
  | E : qstore _ _ _ = Some _ |- _ => rewrite (qstore_allocated _ _ _ _ E b); clear E
  end; done.
Qed.

Lemma push_allocated (st st' : qstate) d :
  linked_queue_push st d = Some st' →
  ∀ b, allocated (heap st') b ↔ allocated (heap st) b ∨ b = length (heap st).
Proof.
  unfold linked_queue_push. intros H b. rewrite (append_node_allocated _ _ _ H b). simpl.
  unfold allocated. destruct (decide (b = length (heap st))) as [->|Hne].
  - rewrite list_lookup_middle by done. split; [eauto|eauto].
  - destruct (decide (b < length (heap st))).
    + rewrite lookup_app_l by done. split; [eauto|intros [?|?]; done].
    + rewrite lookup_ge_None_2 by (rewrite length_app; simpl; lia).
      rewrite lookup_ge_None_2 by lia. split; [intros (? & ?); done|intros [(? & ?)|?]; done].
Qed.

Lemma allocated_free (h : qheap) a b :
  allocated (<[a := None]> h) b ↔ allocated h b ∧ b ≠ a.
Proof.
  unfold allocated. destruct (decide (b = a)) as [->|Hne].
  - destruct (decide (a < length h)).
    + rewrite list_lookup_insert_eq by done. split; [intros (? & ?); done|intros [_ ?]; done].
    + rewrite list_insert_ge by lia. split; [|intros [_ ?]; done].
      intros (? & Hx). apply lookup_lt_Some in Hx. lia.
  - rewrite list_lookup_insert_ne by done. tauto.
Qed.

Lemma pop_allocated (st st' : qstate) d a :
  first (queue st) = Some a → linked_queue_pop st = Some (d, st') →
  ∀ b, allocated (heap st') b ↔ allocated (heap st) b ∧ b ≠ a.
Proof.
  intros Hf H b. unfold linked_queue_pop in H. rewrite Hf in H.
  apply bind_Some in H as (f & Hl & H). apply bind_Some in H as (st1 & Hp & H).
  injection H as _ <-.
  unfold linked_queue_pop_node in Hp. rewrite Hf, Hl in Hp. simpl in Hp.
  apply bind_Some in Hp as ([h1 lst] & Hm & Hp). simpl in Hp. injection Hp as <-. simpl.
  rewrite allocated_free.
  destruct (qnext f) as [nx|] eqn:Hn.
  - apply bind_Some in Hm as (n & _ & Hm). apply bind_Some in Hm as (h2 & Hs & Hm).
    injection Hm as <- <-. rewrite (qstore_allocated _ _ _ _ Hs). done.
  - injection Hm as <- <-. done.
Qed.

(** Every node linked_queue_push allocates is freed by the
    linked_queue_pop that detaches it, and by nothing else: after any
    interleaving of pushes and pops from linked_queue_init, the allocated
    node cells are exactly the nodes still in the queue, and
    queue->elements, an unsigned int, is their number modulo 2^32. *)
Theorem queue_no_leak (ops : list qop) :
  ∃ outs st l, queue_run linked_queue_init ops = Some (outs, st) ∧ qrep st l ∧
    elements (queue st) = (Z.of_nat (length l) mod 2 ^ 32)%Z ∧ ∀ b, allocated (heap st) b ↔ b ∈ l.*1.
Proof.
  assert (Hgen : ∀ st l, qrep st l → (∀ b, allocated (heap st) b ↔ b ∈ l.*1) →
            ∃ outs st' l', queue_run st ops = Some (outs, st') ∧ qrep st' l' ∧
              ∀ b, allocated (heap st') b ↔ b ∈ l'.*1).
  { induction ops as [|[d|] ops IH]; intros st l Hq Ha; simpl.
    - exists [], st, l. done.
    - destruct (push_spec st l d Hq) as (st1 & Hp & Hq1). rewrite Hp, obind_Some.
      apply (IH st1 _ Hq1). intros b. rewrite (push_allocated _ _ _ Hp b), Ha.
      rewrite fmap_app. simpl. rewrite elem_of_app, list_elem_of_singleton. done.
    - destruct l as [|[a d] l].
      + destruct (pop_empty st Hq) as [Hp Hf]. rewrite Hp. simpl.
        destruct (IH st [] Hq Ha) as (outs & st' & l' & Hr & Hq' & Ha'). rewrite Hr. simpl.
        eexists _, st', l'. done.
      + destruct (pop_spec st a d l Hq) as (st1 & Hp & Hq1 & Hf). rewrite Hp. simpl.
        assert (Ha1 : ∀ b, allocated (heap st1) b ↔ b ∈ l.*1).
        { intros b. rewrite (pop_allocated _ _ _ _ Hf Hp b), Ha.
          destruct Hq as (_ & _ & Hnd & _). simpl in Hnd. apply NoDup_cons in Hnd as [Hn _].
          simpl. rewrite elem_of_cons. split; [intros [[->|?] ?]; done|].
          intros Hb. split; [by right|]. intros ->. done. }
        destruct (IH st1 l Hq1 Ha1) as (outs & st' & l' & Hr & Hq' & Ha'). rewrite Hr. simpl.
        eexists _, st', l'. done. }
  destruct (Hgen linked_queue_init [] qrep_init) as (outs & st & l & Hr & Hq & Ha).
  { intros b. unfold allocated. simpl. split; [intros (? & ?); done|intros Hb; inversion Hb]. }
  exists outs, st, l. split; [done|]. split; [done|]. split; [apply Hq|done].
Qed.

(* ===================================================================== *)
(* Further properties: signalHandler.c                                   *)
(* ===================================================================== *)

Definition term_event (e : flag_event) : bool :=
  match e with Signal signal => ((signal =? SIGTERM) || (signal =? SIGINT))%Z | EmptyCache => false end.

Definition usr1_event (e : flag_event) : bool :=
  match e with Signal signal => (signal =? SIGUSR1)%Z | EmptyCache => false end.

Definition empty_event (e : flag_event) : bool :=
  match e with Signal _ => false | EmptyCache => true end.

Lemma flag_step_bits (f : Z) (e : flag_event) :
  (0 <= f < 8)%Z →
  (0 <= flag_step f e < 8)%Z ∧
  Z.testbit (flag_step f e) 0 = Z.testbit f 0 && negb (term_event e) ∧
  Z.testbit (flag_step f e) 1 = usr1_event e || (Z.testbit f 1 && negb (empty_event e)) ∧
  Z.testbit (flag_step f e) 2 = Z.testbit f 2 || term_event e.
Proof.
  intros Hf.
  assert (Hc : (f = 0 ∨ f = 1 ∨ f = 2 ∨ f = 3 ∨ f = 4 ∨ f = 5 ∨ f = 6 ∨ f = 7)%Z) by lia.
  destruct e as [sg|]; cbn [flag_step term_event usr1_event empty_event]; [unfold signal_handler|].
  - destruct (sg =? SIGUSR1)%Z eqn:Hu.
    + apply Z.eqb_eq in Hu. subst sg.
      repeat destruct Hc as [->|Hc]; subst; vm_compute; repeat split; first [reflexivity | intro; discriminate].
    + destruct ((sg =? SIGTERM) || (sg =? SIGINT))%Z;
      repeat destruct Hc as [->|Hc]; subst; vm_compute; repeat split; first [reflexivity | intro; discriminate].
  - repeat destruct Hc as [->|Hc]; subst; vm_compute; repeat split; first [reflexivity | intro; discriminate].
Qed.

Lemma land_bits (f : Z) :
  (0 <= f < 8)%Z →
  (Z.land f SERVER_ENABLED ≠ 0%Z ↔ Z.testbit f 0 = true) ∧
  (Z.land f SERVER_SIGUSR1 ≠ 0%Z ↔ Z.testbit f 1 = true) ∧
  (Z.land f SERVER_SIGTERM ≠ 0%Z ↔ Z.testbit f 2 = true).
Proof.
  intros Hf.
  assert (Hc : (f = 0 ∨ f = 1 ∨ f = 2 ∨ f = 3 ∨ f = 4 ∨ f = 5 ∨ f = 6 ∨ f = 7)%Z) by lia.
  repeat destruct Hc as [->|Hc]; subst; vm_compute; repeat split; intros H; congruence.
Qed.

Lemma app_snoc_cons_inv {A} (es es1 es2 : list A) (e x : A) :
  es ++ [e] = es1 ++ x :: es2 →
  (es2 = [] ∧ es1 = es ∧ x = e) ∨ (∃ es2', es2 = es2' ++ [e] ∧ es = es1 ++ x :: es2').
Proof.
  destruct es2 as [|y es2'] using rev_ind; intros H.
  - left. apply app_inj_tail in H as [-> [= ->]]. done.
  - right. exists es2'. rewrite app_comm_cons, app_assoc in H.
    apply app_inj_tail in H as [-> ->]. done.
Qed.

(** signal_handler and empty_cache (each update of serverHandler taken as
    one step): from the initial SERVER_ENABLED, serverHandler keeps only
    its three flag bits; SERVER_ENABLED is clear and SERVER_SIGTERM set
    exactly when a SIGTERM or SIGINT has been delivered, and nothing
    later undoes it; SERVER_SIGUSR1 is set exactly when a SIGUSR1 arrived
    after the last empty_cache. *)
Theorem server_flags_latch (es : list flag_event) :
  let f := flag_run es in
  (0 <= f < 8)%Z ∧
  (Z.land f SERVER_ENABLED = 0%Z ↔ ∃ signal, Signal signal ∈ es ∧ (signal = SIGTERM ∨ signal = SIGINT)) ∧
  (Z.land f SERVER_SIGTERM ≠ 0%Z ↔ ∃ signal, Signal signal ∈ es ∧ (signal = SIGTERM ∨ signal = SIGINT)) ∧
  (Z.land f SERVER_SIGUSR1 ≠ 0%Z ↔ ∃ es1 es2, es = es1 ++ Signal SIGUSR1 :: es2 ∧ EmptyCache ∉ es2).
Proof.
  assert (Hterm : ∀ e, term_event e = true ↔ ∃ signal, e = Signal signal ∧ (signal = SIGTERM ∨ signal = SIGINT)).
  { intros [sg|]; simpl; [|split; [done|intros (? & ? & _); done]].
    rewrite orb_true_iff, !Z.eqb_eq. split; [eauto|intros (? & [= <-] & ?); done]. }
  assert (Hbits : ∀ es, let f := flag_run es in (0 <= f < 8)%Z ∧
    (Z.testbit f 0 = true ↔ ¬ ∃ signal, Signal signal ∈ es ∧ (signal = SIGTERM ∨ signal = SIGINT)) ∧
    (Z.testbit f 2 = true ↔ ∃ signal, Signal signal ∈ es ∧ (signal = SIGTERM ∨ signal = SIGINT)) ∧
    (Z.testbit f 1 = true ↔ ∃ es1 es2, es = es1 ++ Signal SIGUSR1 :: es2 ∧ EmptyCache ∉ es2)).
  { clear es. intros es. induction es as [|e es IH] using rev_ind; cbv zeta.
    - unfold flag_run. cbn [fold_left]. split; [unfold SERVER_ENABLED; lia|].
      change (Z.testbit SERVER_ENABLED 0) with true.
      change (Z.testbit SERVER_ENABLED 2) with false.
      change (Z.testbit SERVER_ENABLED 1) with false.
      split; [split; [intros _ (? & Hin & _); inversion Hin|done]|].
      split; [split; [discriminate|intros (? & Hin & _); inversion Hin]|].
      split; [discriminate|]. intros (es1 & es2 & Hs & _). destruct es1; discriminate.
    - destruct IH as (Hr & H0 & H2 & H1). unfold flag_run in *. rewrite fold_left_app. cbn [fold_left].
      destruct (flag_step_bits _ e Hr) as (Hr' & B0 & B1 & B2).
      split; [done|]. rewrite B0, B1, B2.
      setoid_rewrite elem_of_app. setoid_rewrite list_elem_of_singleton.
      split; [|split].
      + rewrite andb_true_iff, H0, negb_true_iff, <- not_true_iff_false, Hterm.
        split.
        * intros [Hn Ht] (sg & [Hin|Heq] & Hs); [apply Hn; eauto|subst e; apply Ht; eauto].
        * intros Hn. split; [intros (sg & ? & ?); apply Hn; eauto|].
          intros (sg & Heq & ?). subst e. apply Hn. eauto.
      + rewrite orb_true_iff, H2, Hterm. split.
        * intros [(sg & ? & ?)|(sg & Heq & ?)]; [eauto|subst e; eauto].
        * intros (sg & [Hin|Heq] & ?); [eauto|subst e; eauto].
      + rewrite orb_true_iff, andb_true_iff, H1, negb_true_iff. split.
        * intros [Hu|[(es1 & es2 & Hs & Hn) He]].
          -- destruct e as [sg|]; simpl in Hu; [|discriminate]. apply Z.eqb_eq in Hu. subst sg.
             exists es, []. split; [done|]. intros Hin; inversion Hin.
          -- exists es1, (es2 ++ [e]). split; [subst es; by rewrite <- app_assoc|].
             rewrite elem_of_app, list_elem_of_singleton. intros [Hin|Heq]; [done|subst e; discriminate].
        * intros (es1 & es2 & Hs & Hn). apply app_snoc_cons_inv in Hs as [(-> & -> & Heq)|(es2' & -> & ->)].
          -- left. subst e. reflexivity.
          -- right. split; [exists es1, es2'; split; [done|]; intros Hin; apply Hn; rewrite elem_of_app; by left|].
             destruct e; [done|]. exfalso. apply Hn. rewrite elem_of_app, list_elem_of_singleton. by right. }
  cbv zeta. destruct (Hbits es) as (Hr & H0 & H2 & H1).
  destruct (land_bits _ Hr) as (L0 & L1 & L2).
  split; [done|]. split; [|split].
  - rewrite <- H2. destruct (Z.testbit (flag_run es) 2).
    + split; [done|]. intros _. destruct (decide (Z.land (flag_run es) SERVER_ENABLED = 0%Z)) as [|Hne]; [done|].
      exfalso. apply L0, H0 in Hne. apply Hne, H2. done.
    + split; [|done]. intros Hz. exfalso.
      assert (Hb : Z.testbit (flag_run es) 0 = true) by (apply H0; intros Hex; apply H2 in Hex; discriminate).
      exact (proj2 L0 Hb Hz).
  - by rewrite L2.
  - by rewrite L1.
Qed.

(* ===================================================================== *)
(* Further properties: main.c (parse_arguments, initialize_server_data)  *)
(* ===================================================================== *)

Definition known_opt (c : Ascii.ascii) : bool :=
  Ascii.eqb c (Ascii.ascii_of_nat 112) || Ascii.eqb c (Ascii.ascii_of_nat 67) ||
  Ascii.eqb c (Ascii.ascii_of_nat 116).

(* The optarg of the last occurrence of option [c]. *)
Fixpoint last_opt (c : Ascii.ascii) (opts : list (Ascii.ascii * list Ascii.ascii))
    : option (list Ascii.ascii) :=
  match opts with
  | [] => None
  | (c', o) :: opts =>
      match last_opt c opts with
      | Some a => Some a
      | None => if Ascii.eqb c' c then Some o else None
      end
  end.

Definition pick (x : option (list Ascii.ascii)) (d : Z) : Z :=
  match x with Some a => atoi a | None => d end.

Lemma pick_last c' c o opts d :
  pick (last_opt c ((c', o) :: opts)) d = pick (last_opt c opts) (if Ascii.eqb c' c then atoi o else d).
Proof. simpl. destruct (last_opt c opts), (Ascii.eqb c' c); done. Qed.

Lemma getopt_loop_known opts args :
  forallb (λ o, known_opt o.1) opts = true →
  getopt_loop opts args =
    inr (mk_arguments (pick (last_opt (Ascii.ascii_of_nat 67) opts) (cacheSize args))
                      (pick (last_opt (Ascii.ascii_of_nat 112) opts) (port args))
                      (pick (last_opt (Ascii.ascii_of_nat 116) opts) (threadNumber args))).
Proof.
  revert args. induction opts as [|[c o] opts IH]; intros args Hk; [by destruct args|].
  simpl in Hk. apply andb_true_iff in Hk as [Hc Hk]. unfold known_opt in Hc.
  rewrite !pick_last. cbn [getopt_loop].
  destruct (Ascii.eqb c (Ascii.ascii_of_nat 112)) eqn:Hp.
  { apply Ascii.eqb_eq in Hp. subst c. rewrite IH by done. done. }
  destruct (Ascii.eqb c (Ascii.ascii_of_nat 67)) eqn:HC.
  { apply Ascii.eqb_eq in HC. subst c. rewrite IH by done. done. }
  destruct (Ascii.eqb c (Ascii.ascii_of_nat 116)) eqn:Ht; [|discriminate].
  apply Ascii.eqb_eq in Ht. subst c. rewrite IH by done. done.
Qed.

Lemma getopt_loop_unknown opts args :
  forallb (λ o, known_opt o.1) opts = false → ∃ a, getopt_loop opts args = inl a.
Proof.
  revert args. induction opts as [|[c o] opts IH]; intros args Hk; [discriminate|].
  simpl in Hk. cbn [getopt_loop]. unfold known_opt in Hk.
  destruct (Ascii.eqb c (Ascii.ascii_of_nat 112)); [apply IH; done|].
  destruct (Ascii.eqb c (Ascii.ascii_of_nat 67)); [apply IH; done|].
  destruct (Ascii.eqb c (Ascii.ascii_of_nat 116)); [apply IH; done|]. eauto.
Qed.

(** parse_arguments, from the zeroed settings of calloc, succeeds
    exactly when getopt returns only -p, -C and -t and the last -p and
    the last -C both give a positive atoi; the settings are then the
    values of the last occurrences (last one wins), with the thread count
    replaced by THREAD_POOL_SIZE (8) when -t is missing or outside 1..999. *)
Theorem parse_arguments_spec (opts : list (Ascii.ascii * list Ascii.ascii)) (a : arguments_t) :
  parse_arguments opts (mk_arguments 0 0 0) = (true, a) ↔
  forallb (λ o, known_opt o.1) opts = true ∧
  ∃ p c, last_opt (Ascii.ascii_of_nat 112) opts = Some p ∧
         last_opt (Ascii.ascii_of_nat 67) opts = Some c ∧
         (0 < atoi p)%Z ∧ (0 < atoi c)%Z ∧
         a = mk_arguments (atoi c) (atoi p)
               (match last_opt (Ascii.ascii_of_nat 116) opts with
                | Some t => if ((0 <? atoi t) && (atoi t <? 1000))%Z then atoi t else THREAD_POOL_SIZE
                | None => THREAD_POOL_SIZE
                end).
Proof.
  destruct (forallb (λ o, known_opt o.1) opts) eqn:Hk.
  - unfold parse_arguments. rewrite (getopt_loop_known _ _ Hk). cbn [cacheSize port threadNumber].
    destruct (last_opt (Ascii.ascii_of_nat 112) opts) as [p|]; cbn [pick];
      [|split; [discriminate|intros (_ & ? & ? & ? & _); discriminate]].
    destruct (last_opt (Ascii.ascii_of_nat 67) opts) as [c|]; cbn [pick];
      [|destruct (atoi p <=? 0)%Z; (split; [discriminate|intros (_ & ? & ? & _ & ? & _); discriminate])].
    destruct (Z.leb_spec (atoi p) 0).
    { split; [discriminate|intros (_ & ? & ? & [= <-] & _ & ? & _); lia]. }
    destruct (Z.leb_spec (atoi c) 0).
    { split; [discriminate|intros (_ & ? & ? & _ & [= <-] & _ & ? & _); lia]. }
    destruct (last_opt (Ascii.ascii_of_nat 116) opts) as [t|]; cbn [pick].
    + destruct (Z.leb_spec (atoi t) 0), (Z.leb_spec 1000 (atoi t)),
        (Z.ltb_spec 0 (atoi t)), (Z.ltb_spec (atoi t) 1000); try lia; cbn [orb andb].
      all: split; [intros [= <-]; split; [done|]; eexists _, _; done|].
      all: intros (_ & ? & ? & [= <-] & [= <-] & _ & _ & ->); done.
    + cbn [orb]. replace (0 <=? 0)%Z with true by done. cbn [orb].
      split; [intros [= <-]; split; [done|]; eexists _, _; done|].
      intros (_ & ? & ? & [= <-] & [= <-] & _ & _ & ->); done.
  - destruct (getopt_loop_unknown opts (mk_arguments 0 0 0) Hk) as (a' & Ha').
    unfold parse_arguments. rewrite Ha'. split; [discriminate|intros (? & _); discriminate].
Qed.


(** atoi reads back what printf's %d writes: the decimal numeral of an
    int, with a leading '-' for a negative one. *)
Theorem atoi_decimal (d : nat) (neg : bool) :
  (if neg then Z.of_nat d <= 2 ^ 31 else Z.of_nat d < 2 ^ 31)%Z →
  atoi ((if neg then [Ascii.ascii_of_nat 45] else []) ++ str_of_nat d) =
  (if neg then - Z.of_nat d else Z.of_nat d)%Z.
Proof.
  intros Hd. pose proof (uint_chars_digits (Nat.to_uint d)) as Hdig.
  pose proof (str_of_nat_nonempty d) as Hne.
  assert (Hv : digits_value 0 (str_of_nat d) = Z.of_nat d).
  { unfold str_of_nat. replace 0%Z with (Z.of_nat 0) by done. rewrite digits_value_uint.
    change (Nat.of_uint_acc (Nat.to_uint d) 0) with (Nat.of_uint (Nat.to_uint d)).
    by rewrite DecimalNat.Unsigned.of_to. }
  unfold str_of_nat in *.
  destruct (uint_chars (Nat.to_uint d)) as [|c cs] eqn:E; [done|].
  apply Forall_cons in Hdig as [(_ & _ & _ & Hsp & Hm & Hp) _].
  unfold atoi, strtol10, to_int. destruct neg; cbn [app skip_c_space].
  - replace (is_c_space (Ascii.ascii_of_nat 45)) with false by done.
    replace (Ascii.eqb (Ascii.ascii_of_nat 45) (Ascii.ascii_of_nat 45)) with true by done.
    rewrite Hv. destruct (Z.ltb_spec (2 ^ 63) (Z.of_nat d)); [lia|].
    rewrite Z.mod_small by lia. lia.
  - rewrite Hsp, Hm, Hp, Hv. destruct (Z.ltb_spec LONG_MAX (Z.of_nat d)); [unfold LONG_MAX in *; lia|].
    rewrite Z.mod_small by lia. lia.
Qed.

Lemma atoi_decimal_witness :
  (Z.of_nat 443 <= 2 ^ 31)%Z ∧
  atoi ([Ascii.ascii_of_nat 45] ++ str_of_nat 443) = (- Z.of_nat 443)%Z.
Proof. split; [vm_compute; discriminate|]. apply (atoi_decimal 443 true). vm_compute; discriminate. Defined.

(* ===================================================================== *)
(* Further properties: main.c (teardown_server)                          *)
(* ===================================================================== *)

Lemma teardown_loop_S (pool : list lruCacheNode_t) hd i :
  teardown_loop pool hd (S i) =
    nd ← (h ← hd; pool !! h);
    '(printed, head) ← teardown_loop pool (next nd) i;
    Some ((request nd, md5 nd) :: printed, head).
Proof. reflexivity. Qed.

Lemma teardown_loop_chain (pool : list lruCacheNode_t) (l : list nat) x z :
  chain pool (x :: l ++ [z]) →
  ∃ es, teardown_loop pool (Some x) (S (length l)) = Some (es, Some z) ∧
        Forall2 (λ y e, get_entry pool y = Some e) (x :: l) es.
Proof.
  revert x. induction l as [|y l IH]; intros x Hc.
  - apply chain_pair in Hc as [Hn _]. unfold get_next in Hn. simpl in Hn.
    destruct (pool !! x) as [nd|] eqn:Hx; [|discriminate]. injection Hn as Hn.
    eexists. simpl. rewrite Hx. simpl. rewrite Hn. simpl. split; [done|].
    constructor; [unfold get_entry; rewrite Hx; done|constructor].
  - change (x :: (y :: l) ++ [z]) with ([x] ++ y :: (l ++ [z])) in Hc.
    apply chain_app in Hc as [Hxy Hc]. apply chain_pair in Hxy as [Hn _].
    destruct (IH y Hc) as (es & Hl & Hf).
    unfold get_next in Hn. simpl in Hn.
    destruct (pool !! x) as [nd|] eqn:Hx; [|discriminate]. injection Hn as Hn.
    eexists. cbn [length]. rewrite teardown_loop_S, obind_Some, Hx, obind_Some, Hn.
    cbn [length] in Hl. rewrite Hl, obind_Some. split; [done|].
    constructor; [unfold get_entry; rewrite Hx; done|done].
Qed.

(** The printing loop of teardown_server, on a cache built by
    lru_cache_init and any gets and puts, prints each live slot
    0 .. currentCapacity-1 exactly once, starting at the head and following
    the next pointers, and never dereferences NULL. *)
Theorem teardown_prints_each_entry (N : Z) (ops : list cache_op) (c0 c : lruCache_t) :
  lru_cache_init N = Some c0 → cache_run c0 ops = Some c →
  ∃ o es, teardown_print c = Some es ∧ o ≡ₚ seq 0 (currentCapacity c) ∧
    (match o with [] => True | h :: _ => h = head c end) ∧
    (∀ x y, (x, y) ∈ links o → get_next (cachePool c) (Some x) = Some (Some y)) ∧
    Forall2 (λ x e, get_entry (cachePool c) x = Some e) o es.
Proof.
  intros Hi Hr.
  destruct (Z.leb_spec N 0) as [Hn|Hn]; [unfold lru_cache_init in Hi; destruct (N <=? 0)%Z eqn:E; [discriminate|lia]|].
  destruct (cache_init_spec_pos N Hn) as (c1 & Hc1 & Hinv1 & _). rewrite Hi in Hc1. injection Hc1 as <-.
  destruct (cache_run_inv c0 [] ops Hinv1) as (c' & o & Hr' & Hinv & _). rewrite Hr in Hr'. injection Hr' as <-.
  exists o. destruct Hinv as (_ & _ & _ & Hperm & Ho).
  assert (Hlen : currentCapacity c = length o) by (rewrite (Permutation_length Hperm), length_seq; done).
  unfold teardown_print.
  destruct o as [|h r].
  - exists []. rewrite Hlen. split; [done|]. split; [done|]. split; [done|].
    split; [intros ? ? Hin; inversion Hin|constructor].
  - destruct Ho as [Hh [Hnd Hc]]. subst h.
    destruct (teardown_loop_chain (cachePool c) r (head c) (head c) Hc) as (es & Hl & Hf).
    exists es. split; [rewrite Hlen; cbn [length]; rewrite Hl; done|]. split; [done|]. split; [done|]. split; [|done].
    intros x y Hxy. unfold chain in Hc. rewrite Forall_forall in Hc.
    assert (Hxy' : (x, y) ∈ links ((head c :: r) ++ [head c])).
    { destruct (exists_last (l := head c :: r)) as (l & L & HL); [done|].
      rewrite HL in Hxy |- *. rewrite <- app_assoc. cbn [app].
      rewrite links_app. apply elem_of_app. by left. }
    apply (Hc _ Hxy').
Qed.

Lemma teardown_prints_each_entry_witness :
  ∃ c0 c, lru_cache_init 2 = Some c0 ∧ cache_run c0 [Put "a" "A"; Put "b" "B"; Get "a"] = Some c ∧
    ∃ o es, teardown_print c = Some es ∧ o ≡ₚ seq 0 (currentCapacity c) ∧
      (match o with [] => True | h :: _ => h = head c end) ∧
      (∀ x y, (x, y) ∈ links o → get_next (cachePool c) (Some x) = Some (Some y)) ∧
      Forall2 (λ x e, get_entry (cachePool c) x = Some e) o es.
Proof.
  eexists _, _. split; [reflexivity|]. split; [reflexivity|].
  eapply (teardown_prints_each_entry 2 [Put "a" "A"; Put "b" "B"; Get "a"]); reflexivity.
Defined.
(* ===================================================================== *)
(* Further properties: requestMonitor.c                                  *)
(* ===================================================================== *)

Lemma msg_key_length (m : list Ascii.ascii) : length (c_bytes (msg_key m)) <= length m.
Proof.
  unfold msg_key. induction m as [|a m IH]; [done|]. cbn [c_chars].
  destruct (is_nul a); [cbn; lia|]. cbn [String.string_of_list_ascii c_bytes].
  destruct (Ascii.eqb a Ascii.zero); cbn [length]; lia.
Qed.

(* The cache holds only digests of their own keys. *)
Definition digest_inv (c : lruCache_t) : Prop :=
  ∃ o, cache_wf c o ∧
    ∀ x r v, x < currentCapacity c → get_entry (cachePool c) x = Some (Some r, Some v) →
      md5String r = Some v.

Lemma digest_inv_init (N : Z) (c0 : lruCache_t) : lru_cache_init N = Some c0 → digest_inv c0.
Proof.
  intros Hi.
  destruct (Z.leb_spec N 0) as [Hn|Hn]; [unfold lru_cache_init in Hi; destruct (N <=? 0)%Z eqn:E; [discriminate|lia]|].
  destruct (cache_init_spec_pos N Hn) as (c1 & Hc1 & Hinv1 & Hcc & _). rewrite Hi in Hc1. injection Hc1 as <-.
  exists []. split; [split; [done|]; rewrite Hcc; split; intros; lia|]. intros. lia.
Qed.

Lemma process_digest (fd : Z) (c : lruCache_t) (request : request_t) (m : list Ascii.ascii) :
  digest_inv c → msg request = Some m → (Z.of_nat (length m) < 2 ^ 32)%Z →
  (LONG_MIN <= mseconds request * 1000 <= LONG_MAX)%Z →
  ∃ c' slept dg, md5String (msg_key m) = Some dg ∧
    process_client_request fd c request =
      Some (c', mk_request None 0, slept ++
              [Send fd (String.list_ascii_of_string dg); Send fd newline; Close fd]) ∧
    digest_inv c' ∧
    (slept = [] ∨ ∃ usec, usleep_arg (mseconds request) = Some usec ∧ slept = [Sleep usec]).
Proof.
  intros (o & Hwf & Hv) Hm Hlen Hms. pose proof Hwf as (Hinv & Hfull & Huniq).
  assert (Hkl : (Z.of_nat (length (c_bytes (msg_key m))) < 2 ^ 32)%Z)
    by (pose proof (msg_key_length m); lia).
  destruct (md5String_Some (msg_key m) Hkl) as (dg & Hdg & Hdl & _).
  assert (Htake : take 32 (String.list_ascii_of_string dg) = String.list_ascii_of_string dg)
    by (apply take_ge; lia).
  unfold process_client_request. rewrite Hm, obind_Some.
  set (key := msg_key m) in *.
  destruct (find_total c o key Hinv) as [[t|] Hf].
  - destruct (get_hit_spec c o key t Hinv Hf)
      as (c' & A & B & d & Ho & He & Hg & Hinv' & _ & _ & Hcc & _ & Hent).
    assert (Ht : t < currentCapacity c).
    { apply (inv_lt c o); [done|]. rewrite Ho. apply elem_of_app. right. apply elem_of_cons. by left. }
    destruct (Hfull t Ht) as (r & v & Hrv). rewrite He in Hrv. injection Hrv as <- ->.
    assert (v = dg) as -> by (pose proof (Hv t key v Ht He); congruence).
    rewrite Hg, ?obind_Some, Htake.
    exists c', [], dg. split; [done|]. split; [done|]. split; [|by left].
    exists (t :: A ++ B). split; [apply (wf_transfer c c' o); done|].
    intros x r' v' Hx. rewrite Hent. apply Hv. lia.
  - rewrite (get_miss_spec c key Hf), ?obind_Some, Hdg, ?obind_Some.
    assert (Hus : usleep_arg (mseconds request) = Some ((mseconds request * 1000) mod 2 ^ 32)%Z).
    { unfold usleep_arg. rewrite bool_decide_false by lia. done. }
    rewrite Hus, ?obind_Some.
    destruct (cache_step_inv c o (Put key dg) Hinv) as (c' & o' & Hput & _ & _).
    cbn [cache_step] in Hput. rewrite Hput, ?obind_Some, Htake.
    exists c', [Sleep ((mseconds request * 1000) mod 2 ^ 32)%Z], dg. split; [done|]. split; [done|].
    split; [|right; eauto].
    assert (Hg : get_result c key = Some None) by (unfold get_result; rewrite (get_miss_spec c key Hf); done).
    destruct (put_fresh_wf c c' o key dg Hwf Hg Hput)
      as [(Hlt & Hwf' & Hcc & He)|(l & L & _ & _ & Hwf' & Hcc & He)].
    + eexists. split; [exact Hwf'|]. intros x r v Hx. rewrite He.
      destruct (decide (x = currentCapacity c)); [intros [= <- <-]; done|]. apply Hv. lia.
    + eexists. split; [exact Hwf'|]. intros x r v Hx. rewrite He.
      destruct (decide (x = L)); [intros [= <- <-]; done|]. apply Hv. lia.
Qed.

(** process_client_request, on requests served one after another from a
    cache built by lru_cache_init, with messages shorter than 2^32 bytes
    (read_client_request passes at most MAXREQUESTSIZE): every client
    receives the 32 characters of md5String of its message followed by a
    newline, and its socket is then closed; the cache never answers a
    message with the digest of another one.  Before answering, the worker
    makes at most one usleep call, for the request's mseconds converted to
    microseconds. *)
Theorem serve_run_md5 (N : Z) (c0 : lruCache_t) (reqs : list (Z * request_t)) :
  lru_cache_init N = Some c0 →
  Forall (λ '(fd, r), (∃ m, msg r = Some m ∧ (Z.of_nat (length m) < 2 ^ 32)%Z) ∧
                      (LONG_MIN <= mseconds r * 1000 <= LONG_MAX)%Z) reqs →
  ∃ c ios, serve_run c0 reqs = Some (c, ios) ∧
    Forall2 (λ '(fd, r) io, ∃ m slept dg, msg r = Some m ∧ md5String (msg_key m) = Some dg ∧
       (slept = [] ∨ ∃ usec, usleep_arg (mseconds r) = Some usec ∧ slept = [Sleep usec]) ∧
       io = slept ++ [Send fd (String.list_ascii_of_string dg); Send fd newline; Close fd]) reqs ios.
Proof.
  intros Hi Hall. pose proof (digest_inv_init N c0 Hi) as Hd. clear Hi.
  revert c0 Hd. induction Hall as [|[fd r] reqs [(m & Hm & Hl) Hms] _ IH]; intros c Hd.
  - exists c, []. done.
  - destruct (process_digest fd c r m Hd Hm Hl Hms) as (c1 & slept & dg & Hdg & Hp & Hd1 & Hs).
    destruct (IH c1 Hd1) as (c2 & ios & Hr & Hf).
    exists c2. eexists. cbn [serve_run]. rewrite Hp, obind_Some, Hr, obind_Some. split; [done|].
    constructor; [|done]. exists m, slept, dg. done.
Qed.

Lemma serve_run_md5_witness :
  ∃ c0, lru_cache_init 1 = Some c0 ∧
  ∃ c ios, serve_run c0 [(5%Z, mk_request (Some (String.list_ascii_of_string "a")) 0);
                         (6%Z, mk_request (Some (String.list_ascii_of_string "a")) 2)] = Some (c, ios) ∧
    Forall2 (λ '(fd, r) io, ∃ m slept dg, msg r = Some m ∧ md5String (msg_key m) = Some dg ∧
       (slept = [] ∨ ∃ usec, usleep_arg (mseconds r) = Some usec ∧ slept = [Sleep usec]) ∧
       io = slept ++ [Send fd (String.list_ascii_of_string dg); Send fd newline; Close fd])
      [(5%Z, mk_request (Some (String.list_ascii_of_string "a")) 0);
       (6%Z, mk_request (Some (String.list_ascii_of_string "a")) 2)] ios.
Proof.
  eexists. split; [reflexivity|].
  apply (serve_run_md5 1); [reflexivity|].
  constructor; [cbn; split; [eexists; split; [reflexivity|cbn; lia]|unfold LONG_MIN, LONG_MAX; lia]|].
  constructor; [cbn; split; [eexists; split; [reflexivity|cbn; lia]|unfold LONG_MIN, LONG_MAX; lia]|].
  constructor.
Defined.

Lemma c_chars_nul_pad (bytes : list Ascii.ascii) k :
  c_chars (bytes ++ replicate (S k) Ascii.zero) = c_chars bytes.
Proof.
  induction bytes as [|c bytes IH]; [done|]. cbn [app c_chars]. rewrite IH. done.
Qed.

Lemma tokenize_cases (s : list Ascii.ascii) (request : request_t) :
  (∃ m d, space_tokens (c_chars s) = [String.list_ascii_of_string "get"; m; d] ∧
     tokenize_request (Some s) request = Some (SUCCESS, mk_request (Some m) (to_time_t (strtoul10 d)))) ∨
  (∃ request', tokenize_request (Some s) request = Some (ERROR, request')).
Proof.
  rewrite tokenize_request_tokens.
  destruct (space_tokens (c_chars s)) as [|t1 [|t2 [|t3 [|t4 toks]]]] eqn:Ht;
    cbn [loop_on_tokens]; [|destruct (is_get t1) eqn:Hg ..]; try (right; eexists; reflexivity).
  apply bool_decide_eq_true in Hg as ->. left. eexists _, _. split; [done|]. reflexivity.
Qed.

(** read_client_request on a non-NULL connection, with request->msg
    NULL on entry (as request_monitor keeps it): it returns true, with no
    action on the socket, only when the first recv brings at most
    MAXREQUESTSIZE bytes that split at spaces into "get", a message and a
    delay, which it stores; when it returns false, request->msg is NULL
    (no strdup'ed message is left behind) and the socket is closed once,
    as the last action, after at most one of the three error replies. *)
Theorem read_client_request_spec (request : request_t) (fd : Z) (rs : list recv_result) :
  msg request = None →
  match read_client_request request (Some fd) rs with
  | None => True
  | Some (true, r, io, rs') =>
      io = [] ∧ ∃ bytes m d, rs = RecvData bytes :: rs' ∧ length bytes <= MAXREQUESTSIZE ∧
        space_tokens (c_chars bytes) = [String.list_ascii_of_string "get"; m; d] ∧
        r = mk_request (Some m) (to_time_t (strtoul10 d))
  | Some (false, r, io, rs') =>
      msg r = None ∧ ∃ pre, io = pre ++ [Close fd] ∧
        (pre = [] ∨ ∃ e, pre = [Send fd e] ∧
           (e = SEND_TIMEOUT ∨ e = SEND_LONG_REQUEST ∨ e = SEND_INVALID_REQUEST))
  end.
Proof.
  intros Hm. unfold read_client_request.
  destruct rs as [|[errno|bytes] rs]; [done| |].
  - split; [done|]. eexists. split; [reflexivity|].
    destruct (bool_decide (errno = EAGAIN)); [right; eauto|left; done].
  - destruct (bool_decide (MAXREQUESTSIZE < length bytes)) eqn:Hlen.
    + destruct (drain rs); [|done]. cbn. split; [done|]. exists [Send fd SEND_LONG_REQUEST].
      split; [done|]. right. eauto.
    + apply bool_decide_eq_false in Hlen.
      replace (S MAXREQUESTSIZE - length bytes) with (S (MAXREQUESTSIZE - length bytes)) by lia.
      destruct (tokenize_cases (bytes ++ replicate (S (MAXREQUESTSIZE - length bytes)) Ascii.zero) request)
        as [(m & d & Ht & Hr)|(r & Hr)]; rewrite Hr, obind_Some.
      * rewrite bool_decide_false by (pose proof ERROR_SUCCESS; congruence).
        split; [done|]. rewrite c_chars_nul_pad in Ht. exists bytes, m, d. split; [done|]. split; [lia|]. done.
      * rewrite bool_decide_true by done. split; [done|]. exists [Send fd SEND_INVALID_REQUEST].
        split; [done|]. right. eauto.
Qed.

Lemma read_client_request_spec_witness :
  msg (mk_request None 0) = None ∧
  match read_client_request (mk_request None 0) (Some 7%Z)
          [RecvData (String.list_ascii_of_string "get abc 10")] with
  | None => True
  | Some (true, r, io, rs') =>
      io = [] ∧ ∃ bytes m d, [RecvData (String.list_ascii_of_string "get abc 10")] = RecvData bytes :: rs' ∧
        length bytes <= MAXREQUESTSIZE ∧
        space_tokens (c_chars bytes) = [String.list_ascii_of_string "get"; m; d] ∧
        r = mk_request (Some m) (to_time_t (strtoul10 d))
  | Some (false, r, io, rs') =>
      msg r = None ∧ ∃ pre, io = pre ++ [Close 7%Z] ∧
        (pre = [] ∨ ∃ e, pre = [Send 7%Z e] ∧
           (e = SEND_TIMEOUT ∨ e = SEND_LONG_REQUEST ∨ e = SEND_INVALID_REQUEST))
  end.
Proof. split; [reflexivity|]. apply read_client_request_spec. reflexivity. Defined.
